(** * Stellaris TTS proxy: ordering buffer, fetch pool, cache and retry loop

    A shallow embedding of the pipeline core of the proxy
    (playback_queue.cpp, fetch_thread_pool.cpp, audio_cache.cpp,
    tts_fetcher.cpp, utils.h, tts_processor.cpp) together with the
    properties its specification states about it, followed by the
    settings (config.cpp), the WAV header code of the player
    (audio_player.cpp) and further properties of all of these, numbered
    X1, X2, ...

    Conventions.
    - [uint64_t], [size_t] and [DWORD] values are integers in [Z]; where the
      source increments or multiplies them the wrap-around is written out.
    - Every method that runs under the object's mutex is one atomic
      transition on the object's state; a thread interleaving is a list of
      such transitions.
    - [std::map] and [std::unordered_map] are finite maps ([gmap]). *)

From Stdlib Require Import ZArith Lia String Ascii.
From stdpp Require Import gmap strings list fin_maps.

Local Open Scope Z_scope.

(** ** Machine integers *)

Definition UINT64_MOD : Z := 2 ^ 64.
Definition wrap64 (x : Z) : Z := x mod UINT64_MOD.

Definition UINT32_MOD : Z := 2 ^ 32.
Definition wrap32 (x : Z) : Z := x mod UINT32_MOD.

(** [std::vector<uint8_t>]: byte values in [0, 256). *)
Abbreviation bytes := (list Z) (only parsing).

(** [std::wstring]: UTF-16 code units. *)
Abbreviation wstring := (list Z) (only parsing).

(** ** utils.h *)

Module Utils.

(** The value of a [char] seen as [unsigned char]. *)
Definition byte_of (c : ascii) : Z := Z.of_N (N_of_ascii c).

Definition bytes_of_string (s : string) : bytes := map byte_of (list_ascii_of_string s).

(** A continuation byte: [(b & 0xC0) == 0x80]. *)
Definition is_cont (c : ascii) : bool := Z.land (byte_of c) 0xC0 =? 0x80.

(** [bool IsValidUTF8(const std::string&)]: the index [i] of the source is
    the position of the remaining suffix. *)
Fixpoint IsValidUTF8 (str : string) : bool :=
  match str with
  | EmptyString => true
  | String c r =>
      let b := byte_of c in
      if b <? 0x80 then IsValidUTF8 r
      else if Z.land b 0xE0 =? 0xC0 then
        match r with
        | String c1 r1 => if is_cont c1 then IsValidUTF8 r1 else false
        | _ => false
        end
      else if Z.land b 0xF0 =? 0xE0 then
        match r with
        | String c1 (String c2 r2) =>
            if is_cont c1 && is_cont c2 then IsValidUTF8 r2 else false
        | _ => false
        end
      else if Z.land b 0xF8 =? 0xF0 then
        match r with
        | String c1 (String c2 (String c3 r3)) =>
            if is_cont c1 && is_cont c2 && is_cont c3 then IsValidUTF8 r3 else false
        | _ => false
        end
      else false
  end.

(** [text.erase(std::remove(text.begin(), text.end(), ch), text.end())]. *)
Fixpoint erase_remove (ch : ascii) (text : string) : string :=
  match text with
  | EmptyString => EmptyString
  | String c r =>
      if Ascii.eqb c ch then erase_remove ch r else String c (erase_remove ch r)
  end.

(** [text.resize(n)] on a string that is longer than [n]. *)
Fixpoint resize_down (n : nat) (text : string) : string :=
  match n, text with
  | S n', String c r => String c (resize_down n' r)
  | _, _ => EmptyString
  end.

Definition MAX_LENGTH : nat := 5000.

Inductive LogLine := WarnInvalidUTF8 | WarnTruncated.

(** [bool SanitizeText(std::string& text)]: the returned triple is the
    result, the text as the call leaves it, and the warnings logged. *)
Definition SanitizeText (text : string) : bool * string * list LogLine :=
  let text1 := erase_remove Ascii.zero text in
  let log1 := if IsValidUTF8 text1 then [] else [WarnInvalidUTF8] in
  let '(text2, log2) :=
    if (MAX_LENGTH <? String.length text1)%nat
    then (resize_down MAX_LENGTH text1, [WarnTruncated])
    else (text1, []) in
  (negb (String.eqb text2 EmptyString), text2, log1 ++ log2).

End Utils.

(** ** SHA-256

    [GenerateCacheKey] hashes through the operating system's BCrypt provider
    with [BCRYPT_SHA256_ALGORITHM].  The provider is not part of the
    repository; it is modelled by the algorithm it implements (FIPS 180-4),
    on byte lists. *)

Module Sha256.

Definition add32 (a b : Z) : Z := wrap32 (a + b).
Definition rotr (n x : Z) : Z := Z.lor (Z.shiftr x n) (wrap32 (Z.shiftl x (32 - n))).
Definition shr (n x : Z) : Z := Z.shiftr x n.
Definition not32 (x : Z) : Z := Z.lxor x 0xFFFFFFFF.

Definition Ch (x y z : Z) : Z := Z.lxor (Z.land x y) (Z.land (not32 x) z).
Definition Maj (x y z : Z) : Z :=
  Z.lxor (Z.lxor (Z.land x y) (Z.land x z)) (Z.land y z).
Definition Sigma0 (x : Z) : Z := Z.lxor (Z.lxor (rotr 2 x) (rotr 13 x)) (rotr 22 x).
Definition Sigma1 (x : Z) : Z := Z.lxor (Z.lxor (rotr 6 x) (rotr 11 x)) (rotr 25 x).
Definition sigma0 (x : Z) : Z := Z.lxor (Z.lxor (rotr 7 x) (rotr 18 x)) (shr 3 x).
Definition sigma1 (x : Z) : Z := Z.lxor (Z.lxor (rotr 17 x) (rotr 19 x)) (shr 10 x).

(** The constants of FIPS 180-4, from their definition: the first 32 bits
    of the fractional parts of the cube roots (round constants) and of the
    square roots (initial hash value) of the first primes. *)
Definition is_prime (n : Z) : bool :=
  (1 <? n) && forallb (fun d => negb (n mod d =? 0)) (seqZ 2 (n - 2)).

Definition primes_below (n : Z) : list Z := filter (fun p => is_prime p = true) (seqZ 2 (n - 2)).

(** The integer cube root of [x], by bisection on [lo, lo + 2^bits). *)
Fixpoint cbrt_bits (bits : nat) (lo x : Z) : Z :=
  match bits with
  | O => lo
  | S b =>
      let mid := lo + 2 ^ Z.of_nat b in
      if mid * mid * mid <=? x then cbrt_bits b mid x else cbrt_bits b lo x
  end.

Definition frac_cbrt32 (p : Z) : Z := wrap32 (cbrt_bits 40 0 (p * 2 ^ 96)).
Definition frac_sqrt32 (p : Z) : Z := wrap32 (Z.sqrt (p * 2 ^ 64)).

Definition K : list Z := Eval vm_compute in map frac_cbrt32 (take 64 (primes_below 312)).

Definition H0 : list Z := Eval vm_compute in map frac_sqrt32 (take 8 (primes_below 20)).

(** Big-endian bytes of the low [8 * n] bits of [x]. *)
Fixpoint be_bytes (n : nat) (x : Z) : list Z :=
  match n with
  | O => []
  | S n' => (Z.shiftr x (8 * Z.of_nat n')) mod 256 :: be_bytes n' x
  end.

Definition pad (msg : list Z) : list Z :=
  let len := Z.of_nat (length msg) in
  let zeros := Z.to_nat ((55 - len) mod 64) in
  msg ++ [0x80] ++ repeat 0 zeros ++ be_bytes 8 (8 * len).

Fixpoint words_of (fuel : nat) (bs : list Z) : list Z :=
  match fuel, bs with
  | S f, b0 :: b1 :: b2 :: b3 :: r =>
      (b0 * 2 ^ 24 + b1 * 2 ^ 16 + b2 * 2 ^ 8 + b3) :: words_of f r
  | _, _ => []
  end.

(** Message schedule, newest word first. *)
Fixpoint schedule (n : nat) (w : list Z) : list Z :=
  match n with
  | O => w
  | S n' =>
      let wt := add32 (add32 (sigma1 (nth 1 w 0)) (nth 6 w 0))
                      (add32 (sigma0 (nth 14 w 0)) (nth 15 w 0)) in
      schedule n' (wt :: w)
  end.

Definition round (st : list Z) (kw : Z * Z) : list Z :=
  match st with
  | [a; b; c; d; e; f; g; h] =>
      let t1 := add32 (add32 (add32 h (Sigma1 e)) (add32 (Ch e f g) kw.1)) kw.2 in
      let t2 := add32 (Sigma0 a) (Maj a b c) in
      [add32 t1 t2; a; b; c; add32 d t1; e; f; g]
  | _ => st
  end.

Definition compress (h : list Z) (block : list Z) : list Z :=
  let w := rev (schedule 48 (rev block)) in
  let st := fold_left round (combine K w) h in
  map (fun p : Z * Z => add32 p.1 p.2) (combine h st).

Fixpoint blocks (fuel : nat) (ws : list Z) (h : list Z) : list Z :=
  match fuel with
  | O => h
  | S f =>
      match ws with
      | [] => h
      | _ => blocks f (drop 16 ws) (compress h (take 16 ws))
      end
  end.

Definition digest (msg : list Z) : list Z :=
  let p := pad msg in
  let ws := words_of (length p) p in
  flat_map (be_bytes 4) (blocks (length ws) ws H0).

End Sha256.

(** ** playback_queue.h / playback_queue.cpp *)

Module PlaybackQueue.

Record AudioItem := mkAudioItem {
  sequenceNumber : Z;
  text : wstring;
  audioData : bytes;
  cachePath : string;
  isReady : bool;
  failed : bool
}.

(** The members of [class PlaybackQueue] (mutex and condition variable
    apart). *)
Record t := mk {
  pendingItems : gmap Z AudioItem;
  nextSequenceNumber : Z;
  nextToPlay : Z;
  shutdownRequested : bool
}.

(** [PlaybackQueue() = default] with the in-class initialisers. *)
Definition init : t :=
  {| pendingItems := ∅; nextSequenceNumber := 1; nextToPlay := 1;
     shutdownRequested := false |}.

Definition set_pending (m : gmap Z AudioItem) (q : t) : t :=
  {| pendingItems := m; nextSequenceNumber := nextSequenceNumber q;
     nextToPlay := nextToPlay q; shutdownRequested := shutdownRequested q |}.

(** [uint64_t AddRequest(const std::wstring&)]: [fetch_add(1)] hands out
    the old counter value and stores the incremented one. *)
Definition AddRequest (q : t) (txt : wstring) : Z * t :=
  let seq := nextSequenceNumber q in
  let item := {| sequenceNumber := seq; text := txt; audioData := [];
                 cachePath := EmptyString; isReady := false; failed := false |} in
  (seq, {| pendingItems := <[seq := item]> (pendingItems q);
           nextSequenceNumber := wrap64 (seq + 1);
           nextToPlay := nextToPlay q;
           shutdownRequested := shutdownRequested q |}).

(** [void MarkReady(seq, audio, cachePath)]; [cachePath] is a nullable
    pointer. *)
Definition MarkReady (q : t) (seq : Z) (audio : bytes) (path : option string) : t :=
  match pendingItems q !! seq with
  | Some it =>
      let it' := {| sequenceNumber := sequenceNumber it; text := text it;
                    audioData := audio;
                    cachePath := match path with Some p => p | None => cachePath it end;
                    isReady := true; failed := failed it |} in
      set_pending (<[seq := it']> (pendingItems q)) q
  | None => q
  end.

(** [void MarkFailed(seq)]. *)
Definition MarkFailed (q : t) (seq : Z) : t :=
  match pendingItems q !! seq with
  | Some it =>
      let it' := {| sequenceNumber := sequenceNumber it; text := text it;
                    audioData := audioData it; cachePath := cachePath it;
                    isReady := true; failed := true |} in
      set_pending (<[seq := it']> (pendingItems q)) q
  | None => q
  end.

(** One pass of the [while (true)] loop of [WaitForNextReady]: it returns
    [false] (shutdown), returns [true] with the item moved out and its
    entry erased, or reaches [cv.wait(lock)].  A caller that reaches
    [cv.wait] sleeps and re-runs the pass on the state it finds when it
    is woken. *)
Inductive wait_result :=
| WaitShutdown
| WaitItem (outItem : AudioItem) (q' : t)
| WaitBlocks.

Definition WaitForNextReady (q : t) : wait_result :=
  if shutdownRequested q then WaitShutdown
  else
    let expectedSeq := nextToPlay q in
    match pendingItems q !! expectedSeq with
    | Some it =>
        if isReady it
        then WaitItem it (set_pending (delete expectedSeq (pendingItems q)) q)
        else WaitBlocks
    | None => WaitBlocks
    end.

(** [void Remove(seq)]: the cursor moves when [seq] is the current
    [nextToPlay]; the clean-up loop erases every key [< seq]. *)
Definition Remove (q : t) (seq : Z) : t :=
  let currentNext := nextToPlay q in
  {| pendingItems := filter (fun kv : Z * AudioItem => ¬ (kv.1 < seq)) (pendingItems q);
     nextSequenceNumber := nextSequenceNumber q;
     nextToPlay := if seq =? currentNext then wrap64 (seq + 1) else currentNext;
     shutdownRequested := shutdownRequested q |}.

Definition Shutdown (q : t) : t :=
  {| pendingItems := pendingItems q; nextSequenceNumber := nextSequenceNumber q;
     nextToPlay := nextToPlay q; shutdownRequested := true |}.

Definition GetSize (q : t) : nat := size (pendingItems q).

End PlaybackQueue.

(** ** audio_cache.h / audio_cache.cpp *)

Module AudioCache.

Definition to_hex_digit (n : Z) : ascii :=
  nth (Z.to_nat n) (list_ascii_of_string "0123456789abcdef") "0"%char.

(** [ss << std::hex << std::setfill('0') << std::setw(2) << int(hash[i])]. *)
Definition hex_of_byte (b : Z) : list ascii := [to_hex_digit (b / 16); to_hex_digit (b mod 16)].

Definition to_hex (hash : bytes) : string :=
  string_of_list_ascii (flat_map hex_of_byte hash).

(** What the operating system does during one call into the cache: the
    reading of [steady_clock::now()], whether the BCrypt and heap calls of
    [GenerateCacheKey] all succeed, whether an existing cache file is read
    back completely, and how the write of a cache file ends. *)
Inductive DiskWrite :=
| CreateFileFails
| WriteFileReturns (success : bool) (bytesWritten : nat).

Record OS := mkOS {
  clock : Z;
  bcrypt_ok : bool;
  read_ok : bool;
  disk_write : DiskWrite
}.

Record CacheEntry := mkEntry { data : bytes; timestamp : Z }.

(** The members of [class AudioCache]; [files] is the file system seen
    through the paths the cache opens. *)
Record t := mk {
  cache : gmap string CacheEntry;
  maxSize : Z;
  cacheDirectory : string;
  diskCacheEnabled : bool;
  files : gmap string bytes
}.

(** [AudioCache(size_t size = 50)]. *)
Definition create (size : Z) (fs : gmap string bytes) : t :=
  {| cache := ∅; maxSize := size; cacheDirectory := EmptyString;
     diskCacheEnabled := false; files := fs |}.

Definition set_cache (m : gmap string CacheEntry) (c : t) : t :=
  {| cache := m; maxSize := maxSize c; cacheDirectory := cacheDirectory c;
     diskCacheEnabled := diskCacheEnabled c; files := files c |}.

(** [combined = text + "|" + server + "|" + voice]. *)
Definition combined (text server voice : string) : string :=
  text +:+ "|" +:+ server +:+ "|" +:+ voice.

(** [GenerateCacheKey]: every failing BCrypt or heap call jumps to
    [cleanup] with [result] still empty. *)
Definition GenerateCacheKey (ok : bool) (text server voice : string) : string :=
  if ok
  then to_hex (Sha256.digest (Utils.bytes_of_string (combined text server voice)))
  else EmptyString.

Definition file_path (c : t) (format cacheKey : string) : string :=
  cacheDirectory c +:+ "\" +:+ cacheKey +:+ "." +:+ format.

(** [LoadFromDisk]: [Some] is a [true] return with [outData] filled. *)
Definition LoadFromDisk (c : t) (format cacheKey : string) (rd : bool) : option bytes :=
  if diskCacheEnabled c then
    match files c !! file_path c format cacheKey with
    | Some content => if rd then Some content else None
    | None => None
    end
  else None.

(** [SaveToDisk]: [CREATE_ALWAYS] truncates the file before the write. *)
Definition SaveToDisk (c : t) (format cacheKey : string) (d : bytes) (w : DiskWrite)
  : bool * gmap string bytes :=
  if diskCacheEnabled c then
    match w with
    | CreateFileFails => (false, files c)
    | WriteFileReturns success bytesWritten =>
        (success && (bytesWritten =? length d)%nat,
         <[file_path c format cacheKey := take bytesWritten d]> (files c))
    end
  else (false, files c).

(** The body of the scan [for (it = begin; it != end; ++it)
    if (it->timestamp < oldest->timestamp) oldest = it]. *)
Definition older (oldest it : string * CacheEntry) : string * CacheEntry :=
  if timestamp it.2 <? timestamp oldest.2 then it else oldest.

(** The iterator [oldest] after the scan; [None] is [cache.end()], which
    is where [cache.begin()] points when the map is empty.  The scan runs
    in the map's iteration order, which the standard leaves open and which
    decides between entries of equal timestamp; nothing below depends on
    it. *)
Definition find_oldest (m : gmap string CacheEntry) : option (string * CacheEntry) :=
  match map_to_list m with
  | [] => None
  | (first :: _) as l => Some (fold_left older l first)
  end.

(** [if (cache.size() >= maxSize) { ...; cache.erase(oldest); }].
    Erasing [cache.end()] is undefined behaviour: the result is [None]. *)
Definition evict_if_full (m : gmap string CacheEntry) (max : Z)
  : option (gmap string CacheEntry) :=
  if max <=? Z.of_nat (size m) then
    match find_oldest m with
    | Some oldest => Some (delete oldest.1 m)
    | None => None
    end
  else Some m.

(** [bool Get(text, server, voice, outData)] takes the lock twice.  The
    first block looks the key up in memory and, on a hit, refreshes the
    timestamp. *)
Definition Get_memory (c : t) (os : OS) (cacheKey : string) : option (bytes * t) :=
  match cache c !! cacheKey with
  | Some e =>
      Some (data e,
            set_cache (<[cacheKey := {| data := data e; timestamp := clock os |}]> (cache c)) c)
  | None => None
  end.

(** The second block follows a successful [LoadFromDisk] and promotes the
    file's bytes into memory.  The inner option is [Some outData] for a
    [true] return and [None] for [false]; the outer one is [None] where
    the call has undefined behaviour. *)
Definition Get_disk (c : t) (os : OS) (format cacheKey : string)
  : option (option bytes * t) :=
  match LoadFromDisk c format cacheKey (read_ok os) with
  | Some outData =>
      match evict_if_full (cache c) (maxSize c) with
      | Some m =>
          Some (Some outData,
                set_cache (<[cacheKey := {| data := outData; timestamp := clock os |}]> m) c)
      | None => None
      end
  | None => Some (None, c)
  end.

(** [Get] with no other thread between its two blocks. *)
Definition Get (c : t) (os : OS) (format text server voice : string)
  : option (option bytes * t) :=
  let cacheKey := GenerateCacheKey (bcrypt_ok os) text server voice in
  match Get_memory c os cacheKey with
  | Some (outData, c') => Some (Some outData, c')
  | None => Get_disk c os format cacheKey
  end.

(** [void Put(text, server, voice, data)]. *)
Definition Put (c : t) (os : OS) (format text server voice : string) (d : bytes)
  : option t :=
  let cacheKey := GenerateCacheKey (bcrypt_ok os) text server voice in
  match evict_if_full (cache c) (maxSize c) with
  | Some m =>
      Some {| cache := <[cacheKey := {| data := d; timestamp := clock os |}]> m;
              maxSize := maxSize c;
              cacheDirectory := cacheDirectory c;
              diskCacheEnabled := diskCacheEnabled c;
              files := (SaveToDisk c format cacheKey d (disk_write os)).2 |}
  | None => None
  end.

Definition Clear (c : t) : t := set_cache ∅ c.

Definition SetMaxSize (c : t) (size : Z) : t :=
  {| cache := cache c; maxSize := size; cacheDirectory := cacheDirectory c;
     diskCacheEnabled := diskCacheEnabled c; files := files c |}.

Definition GetCachedFilePath (c : t) (ok : bool) (format text server voice : string) : string :=
  if diskCacheEnabled c
  then file_path c format (GenerateCacheKey ok text server voice)
  else EmptyString.

End AudioCache.

(** ** fetch_thread_pool.h / fetch_thread_pool.cpp *)

Module FetchThreadPool.

(** The members of [class FetchThreadPool]; [workers] counts the threads
    in the vector. *)
Record t (Task : Type) := mk {
  workers : nat;
  tasks : list Task;
  stop : bool;
  initialized : bool;
  maxThreads : Z;
  maxPendingTasks : Z
}.
Arguments mk {Task}.
Arguments workers {Task}.
Arguments tasks {Task}.
Arguments stop {Task}.
Arguments initialized {Task}.
Arguments maxThreads {Task}.
Arguments maxPendingTasks {Task}.

(** [FetchThreadPool(size_t maxThreads = 4, size_t maxPending = 20)]. *)
Definition create {Task} (threads maxPending : Z) : t Task :=
  {| workers := 0; tasks := []; stop := false; initialized := false;
     maxThreads := threads; maxPendingTasks := maxPending |}.

(** [FetchThreadPool g_fetchThreadPool;] *)
Definition g_fetchThreadPool {Task} : t Task := create 4 20.

(** The lazy start at the head of [Enqueue]. *)
Definition start {Task} (p : t Task) : t Task :=
  if initialized p then p
  else {| workers := (workers p + Z.to_nat (maxThreads p))%nat; tasks := tasks p;
          stop := stop p; initialized := true;
          maxThreads := maxThreads p; maxPendingTasks := maxPendingTasks p |}.

(** [bool Enqueue(std::function<void()> task)]. *)
Definition Enqueue {Task} (p : t Task) (task : Task) : bool * t Task :=
  let p := start p in
  if maxPendingTasks p <=? Z.of_nat (length (tasks p)) then (false, p)
  else (true, {| workers := workers p; tasks := tasks p ++ [task];
                 stop := stop p; initialized := initialized p;
                 maxThreads := maxThreads p; maxPendingTasks := maxPendingTasks p |}).

(** The locked block of [WorkerLoop]: the worker sleeps while neither
    [stop] nor a task is there, leaves on [stop] with an empty queue, and
    otherwise pops the front task, which it runs after unlocking. *)
Inductive worker_result (Task : Type) :=
| WorkerWaits
| WorkerExits
| WorkerRuns (task : Task) (p' : t Task).
Arguments WorkerWaits {Task}.
Arguments WorkerExits {Task}.
Arguments WorkerRuns {Task}.

Definition WorkerLoop {Task} (p : t Task) : worker_result Task :=
  match tasks p with
  | [] => if stop p then WorkerExits else WorkerWaits
  | task :: rest =>
      WorkerRuns task {| workers := workers p; tasks := rest; stop := stop p;
                         initialized := initialized p;
                         maxThreads := maxThreads p; maxPendingTasks := maxPendingTasks p |}
  end.

Definition GetQueueSize {Task} (p : t Task) : nat := length (tasks p).

(** A pool together with the tasks its workers have run, oldest first. *)
Record sys (Task : Type) := mkSys {
  pool : t Task;
  executed : list Task;
  accepted : list Task
}.
Arguments mkSys {Task}.
Arguments pool {Task}.
Arguments executed {Task}.
Arguments accepted {Task}.

Inductive event (Task : Type) :=
| EvEnqueue (task : Task)
| EvWorker.
Arguments EvEnqueue {Task}.
Arguments EvWorker {Task}.

Definition step {Task} (s : sys Task) (ev : event Task) : sys Task :=
  match ev with
  | EvEnqueue task =>
      let '(ok, p') := Enqueue (pool s) task in
      {| pool := p'; executed := executed s;
         accepted := if ok then accepted s ++ [task] else accepted s |}
  | EvWorker =>
      match WorkerLoop (pool s) with
      | WorkerRuns task p' =>
          {| pool := p'; executed := executed s ++ [task]; accepted := accepted s |}
      | _ => s
      end
  end.

Definition run {Task} (s : sys Task) (tr : list (event Task)) : sys Task :=
  fold_left step tr s.

Definition boot {Task} (p : t Task) : sys Task :=
  {| pool := p; executed := []; accepted := [] |}.

End FetchThreadPool.

(** ** tts_fetcher.h / tts_fetcher.cpp *)

Module TTSFetcher.

(** How one pass of the retry loop ends.  The first five are the WinINet
    calls that fail before a response exists (each one [continue]s);
    [Response] carries the status code and, for status 200, the bytes the
    read loop collected. *)
Inductive AttemptOutcome :=
| InternetOpenFails
| CrackUrlFails
| ConnectFails
| OpenRequestFails
| SendRequestFails
| Response (statusCode : Z) (body : bytes).

(** What the procedure does to the outside: [Sleep(delayMs)] and one pass
    of network calls. *)
Inductive Effect :=
| Sleep (delayMs : Z)
| Attempt (attempt : Z).

(** [DWORD delayMs = 500 * (1 << attempt)]; the product is exact in [int]
    for [attempt <= 21]. *)
Definition backoff (attempt : Z) : Z := wrap32 (500 * Z.shiftl 1 attempt).

(** The [for] loop from [attempt] on, with [remaining = maxRetries -
    attempt] passes left.  [break] and the end of the loop both reach
    [return {}]. *)
Fixpoint retry_loop (net : Z -> AttemptOutcome) (remaining : nat) (attempt : Z)
  : bytes * list Effect :=
  match remaining with
  | O => ([], [])
  | S r =>
      let pre := if 0 <? attempt then [Sleep (backoff attempt)] else [] in
      let again := retry_loop net r (attempt + 1) in
      match net attempt with
      | Response statusCode body =>
          if statusCode =? 200 then (body, pre ++ [Attempt attempt])
          else if (400 <=? statusCode) && (statusCode <? 500)
               then ([], pre ++ [Attempt attempt])
               else (again.1, pre ++ Attempt attempt :: again.2)
      | _ => (again.1, pre ++ Attempt attempt :: again.2)
      end
  end.

(** [FetchTTSAudioWithRetry(text, maxRetries)]; [net] is the service as
    this call meets it, one outcome per pass. *)
Definition FetchTTSAudioWithRetry (net : Z -> AttemptOutcome) (maxRetries : Z)
  : bytes * list Effect :=
  retry_loop net (Z.to_nat maxRetries) 0.

Definition FetchTTSAudio (net : Z -> AttemptOutcome) : bytes * list Effect :=
  FetchTTSAudioWithRetry net 3.

Definition attempts (effects : list Effect) : list Z :=
  omap (fun e => match e with Attempt k => Some k | _ => None end) effects.

Definition delays (effects : list Effect) : list Z :=
  omap (fun e => match e with Sleep d => Some d | _ => None end) effects.

End TTSFetcher.

(** ** tts_processor.cpp *)

Module TTSProcessor.

(** The fields of [g_config] the fetch task reads. *)
Record Config := mkConfig { server : string; voice : string; format : string }.

(** The global objects a fetch task works on, and the network calls made
    so far. *)
Record World := mkWorld {
  g_audioCache : AudioCache.t;
  g_playbackQueue : PlaybackQueue.t;
  network : list TTSFetcher.Effect
}.

(** The outside as one task meets it: the operating system at the
    [Get], the [Put] and the two [GetCachedFilePath] calls, and the
    service's answers to the sanitized text. *)
Record TaskEnv := mkTaskEnv {
  os_get : AudioCache.OS;
  os_put : AudioCache.OS;
  bcrypt_path : bool;
  net : string -> Z -> TTSFetcher.AttemptOutcome
}.

(** [void FetchAndEnqueueForPlayback(text, sequenceNumber)], run without
    another thread in between; [None] where a cache call has undefined
    behaviour. *)
Definition FetchAndEnqueueForPlayback (cfg : Config) (env : TaskEnv) (w : World)
    (text : string) (sequenceNumber : Z) : option World :=
  match AudioCache.Get (g_audioCache w) (os_get env) (format cfg) text (server cfg) (voice cfg) with
  | None => None
  | Some (Some audioData, c1) =>
      let cachePath :=
        AudioCache.GetCachedFilePath c1 (bcrypt_path env) (format cfg) text (server cfg) (voice cfg) in
      Some {| g_audioCache := c1;
              g_playbackQueue :=
                PlaybackQueue.MarkReady (g_playbackQueue w) sequenceNumber audioData (Some cachePath);
              network := network w |}
  | Some (None, c1) =>
      let '(ok, sanitizedText, _) := Utils.SanitizeText text in
      if negb ok then
        Some {| g_audioCache := c1;
                g_playbackQueue := PlaybackQueue.MarkFailed (g_playbackQueue w) sequenceNumber;
                network := network w |}
      else
        let '(audioData, effects) := TTSFetcher.FetchTTSAudio (net env sanitizedText) in
        match audioData with
        | [] =>
            Some {| g_audioCache := c1;
                    g_playbackQueue := PlaybackQueue.MarkFailed (g_playbackQueue w) sequenceNumber;
                    network := network w ++ effects |}
        | _ =>
            match AudioCache.Put c1 (os_put env) (format cfg) text (server cfg) (voice cfg) audioData with
            | None => None
            | Some c2 =>
                let cachePath :=
                  AudioCache.GetCachedFilePath c2 (bcrypt_path env) (format cfg) text (server cfg) (voice cfg) in
                Some {| g_audioCache := c2;
                        g_playbackQueue :=
                          PlaybackQueue.MarkReady (g_playbackQueue w) sequenceNumber audioData (Some cachePath);
                        network := network w ++ effects |}
            end
        end
  end.

(** The threads around the ordering buffer.  Producers and fetch tasks
    call [AddRequest], [MarkReady] and [MarkFailed]; the single
    [PlaybackCoordinator] thread alternates [WaitForNextReady] and, after
    playing or skipping the item, [Remove(item.sequenceNumber)].  [holding]
    is the coordinator's local [item] between the two calls and [returned]
    lists the items [WaitForNextReady] has handed out, oldest first. *)
Record sys := mkSys {
  queue : PlaybackQueue.t;
  holding : option PlaybackQueue.AudioItem;
  returned : list PlaybackQueue.AudioItem
}.

Inductive event :=
| EvAddRequest (text : wstring)
| EvMarkReady (seq : Z) (audio : bytes) (cachePath : option string)
| EvMarkFailed (seq : Z)
| EvShutdown
| EvWaitForNextReady
| EvRemove.

Definition boot : sys :=
  {| queue := PlaybackQueue.init; holding := None; returned := [] |}.

Definition set_queue (q : PlaybackQueue.t) (s : sys) : sys :=
  {| queue := q; holding := holding s; returned := returned s |}.

(** One transition.  A coordinator that is inside [cv.wait], or that has
    left its loop after a shutdown, leaves the state as it is; so does a
    coordinator event that is not the coordinator's next call. *)
Definition step (s : sys) (ev : event) : sys :=
  match ev with
  | EvAddRequest txt => set_queue (PlaybackQueue.AddRequest (queue s) txt).2 s
  | EvMarkReady seq audio path => set_queue (PlaybackQueue.MarkReady (queue s) seq audio path) s
  | EvMarkFailed seq => set_queue (PlaybackQueue.MarkFailed (queue s) seq) s
  | EvShutdown => set_queue (PlaybackQueue.Shutdown (queue s)) s
  | EvWaitForNextReady =>
      match holding s with
      | Some _ => s
      | None =>
          match PlaybackQueue.WaitForNextReady (queue s) with
          | PlaybackQueue.WaitItem item q' =>
              {| queue := q'; holding := Some item; returned := returned s ++ [item] |}
          | _ => s
          end
      end
  | EvRemove =>
      match holding s with
      | Some item =>
          {| queue := PlaybackQueue.Remove (queue s) (PlaybackQueue.sequenceNumber item);
             holding := None; returned := returned s |}
      | None => s
      end
  end.

Definition run (s : sys) (tr : list event) : sys := fold_left step tr s.

End TTSProcessor.

(** * Specification vocabulary *)

Module OrderingSpec.
Import PlaybackQueue TTSProcessor.

(** What a consumer observes of a returned item. *)
Definition key_text (it : AudioItem) : Z * wstring := (sequenceNumber it, text it).

(** The texts handed to [AddRequest], in call order. *)
Definition added_texts (tr : list event) : list wstring :=
  omap (fun ev => match ev with EvAddRequest txt => Some txt | _ => None end) tr.

Definition count_adds (tr : list event) : nat := length (added_texts tr).

(** The submission order: the k-th [AddRequest] (from 1) with its text. *)
Definition number_from_1 (texts : list wstring) : list (Z * wstring) :=
  imap (fun i txt => (Z.of_nat i + 1, txt)) texts.

Definition submissions (tr : list event) : list (Z * wstring) :=
  number_from_1 (added_texts tr).

(** Bookkeeping along a trace: the texts added so far, the sequence
    numbers that were marked ready or failed after they had been assigned,
    and whether [Shutdown] was called. *)
Record ghost := mkGhost {
  g_texts : list wstring;
  g_resolved : gset Z;
  g_shutdown : bool
}.

Definition ghost0 : ghost := {| g_texts := []; g_resolved := ∅; g_shutdown := false |}.

Definition mark (seq : Z) (g : ghost) : ghost :=
  {| g_texts := g_texts g;
     g_resolved := if bool_decide (1 <= seq <= Z.of_nat (length (g_texts g)))
                   then {[seq]} ∪ g_resolved g else g_resolved g;
     g_shutdown := g_shutdown g |}.

Definition gstep (g : ghost) (ev : event) : ghost :=
  match ev with
  | EvAddRequest txt =>
      {| g_texts := g_texts g ++ [txt]; g_resolved := g_resolved g;
         g_shutdown := g_shutdown g |}
  | EvMarkReady seq _ _ => mark seq g
  | EvMarkFailed seq => mark seq g
  | EvShutdown =>
      {| g_texts := g_texts g; g_resolved := g_resolved g; g_shutdown := true |}
  | EvWaitForNextReady | EvRemove => g
  end.

Definition grun (g : ghost) (tr : list event) : ghost := fold_left gstep tr g.

(** Every request of the trace was marked ready or failed at some point
    after its [AddRequest], and [Shutdown] was not called. *)
Definition all_resolved (tr : list event) : bool :=
  let g := grun ghost0 tr in
  negb (g_shutdown g)
  && forallb (fun k => bool_decide (k ∈ g_resolved g))
             (seqZ 1 (Z.of_nat (length (g_texts g)))).

(** [m] passes of the coordinator's loop: [WaitForNextReady], then
    [Remove]. *)
Definition coordinator_rounds (m : nat) : list event :=
  concat (replicate m [EvWaitForNextReady; EvRemove]).

(** Calls the coordinator still has to make before it has returned and
    removed every request added so far. *)
Definition backlog (g : ghost) (s : sys) : nat :=
  (length (g_texts g) - length (returned s)
   + match holding s with Some _ => 1 | None => 0 end)%nat.

(** The state of the threads agrees with the bookkeeping [g]. *)
Record Inv (g : ghost) (s : sys) : Prop := mkInv {
  inv_bound : Z.of_nat (length (g_texts g)) < UINT64_MOD - 1;
  inv_next : nextSequenceNumber (queue s) = Z.of_nat (length (g_texts g)) + 1;
  inv_played : (length (returned s) <= length (g_texts g))%nat;
  inv_cursor :
    match holding s with
    | Some it =>
        nextToPlay (queue s) = Z.of_nat (length (returned s))
        ∧ sequenceNumber it = Z.of_nat (length (returned s))
        ∧ (0 < length (returned s))%nat
    | None => nextToPlay (queue s) = Z.of_nat (length (returned s)) + 1
    end;
  inv_pending : forall k it,
    pendingItems (queue s) !! k = Some it ->
    Z.of_nat (length (returned s)) < k <= Z.of_nat (length (g_texts g))
    ∧ sequenceNumber it = k
    ∧ g_texts g !! Z.to_nat (k - 1) = Some (text it);
  inv_present : forall k,
    Z.of_nat (length (returned s)) < k <= Z.of_nat (length (g_texts g)) ->
    is_Some (pendingItems (queue s) !! k);
  inv_returned :
    map key_text (returned s) = take (length (returned s)) (number_from_1 (g_texts g));
  inv_resolved_range : forall k,
    k ∈ g_resolved g -> 1 <= k <= Z.of_nat (length (g_texts g));
  inv_ready : forall k it,
    k ∈ g_resolved g -> pendingItems (queue s) !! k = Some it -> isReady it = true;
  inv_shutdown : shutdownRequested (queue s) = g_shutdown g
}.

(** Every key of the pending map carries its own sequence number and is
    not behind the cursor. *)
Definition coherent (q : PlaybackQueue.t) : Prop :=
  forall k it, pendingItems q !! k = Some it ->
    sequenceNumber it = k ∧ nextToPlay q <= k.

(** The reading of [Remove] that prunes below the new cursor. *)
Definition Remove_prunes_below_new_cursor (q : PlaybackQueue.t) (seq : Z) : Prop :=
  let q' := Remove q seq in
  nextToPlay q' = (if seq =? nextToPlay q then seq + 1 else nextToPlay q)
  ∧ forall k, pendingItems q' !! k
              = if decide (k < nextToPlay q') then None else pendingItems q !! k.

Definition item_ready (seq : Z) : AudioItem :=
  {| sequenceNumber := seq; text := []; audioData := []; cachePath := EmptyString;
     isReady := true; failed := false |}.

(** One ready request, not yet consumed. *)
Definition one_ready : PlaybackQueue.t :=
  MarkReady (AddRequest init []).2 1 [] None.

(** Marking: both calls rewrite the entry at [seq], keep its number and
    text, and leave it ready. *)
Definition marks (f : PlaybackQueue.t -> PlaybackQueue.t) (seq : Z) : Prop :=
  forall q,
    nextSequenceNumber (f q) = nextSequenceNumber q
    ∧ nextToPlay (f q) = nextToPlay q
    ∧ shutdownRequested (f q) = shutdownRequested q
    ∧ (forall k, k ≠ seq -> pendingItems (f q) !! k = pendingItems q !! k)
    ∧ match pendingItems q !! seq with
      | Some it => exists it', pendingItems (f q) !! seq = Some it'
                               ∧ sequenceNumber it' = sequenceNumber it
                               ∧ text it' = text it ∧ isReady it' = true
      | None => pendingItems (f q) !! seq = None
      end.

(** The example of the specification: A, B, C are added and resolved in
    the order 2, 3, 1. *)
Definition abc_trace : list event :=
  [EvAddRequest [65]; EvAddRequest [66]; EvAddRequest [67];
   EvMarkReady 2 [20] None; EvMarkReady 3 [30] None; EvMarkReady 1 [10] None].

End OrderingSpec.

Module PoolSpec.
Import FetchThreadPool.

(** What a step keeps: the bound itself and the queue within it. *)
Definition pool_inv {Task} (p0 : t Task) (s : sys Task) : Prop :=
  maxPendingTasks (pool s) = maxPendingTasks p0
  ∧ Z.of_nat (length (tasks (pool s))) <= maxPendingTasks p0.

(** A pool bounded at 2 whose queue holds the tasks 1 and 2. *)
Definition full_pool : t nat :=
  {| workers := 4; tasks := [1%nat; 2%nat]; stop := false; initialized := true;
     maxThreads := 4; maxPendingTasks := 2 |}.

End PoolSpec.

Module FetchSpec.
Import TTSFetcher.

(** HTTP 200: the pass returns the body. *)
Definition is_success (o : AttemptOutcome) : bool :=
  match o with Response c _ => c =? 200 | _ => false end.

(** A client-side error response: status in the 4xx range. *)
Definition is_client_error (o : AttemptOutcome) : bool :=
  match o with Response c _ => (400 <=? c) && (c <? 500) | _ => false end.

(** A server-side error response: status in the 5xx range. *)
Definition is_server_error (o : AttemptOutcome) : bool :=
  match o with Response c _ => (500 <=? c) && (c <? 600) | _ => false end.

(** A failure below HTTP: no response was received. *)
Definition is_transport_failure (o : AttemptOutcome) : bool :=
  match o with Response _ _ => false | _ => true end.

(** The passes that end in [continue]. *)
Definition is_retried (o : AttemptOutcome) : bool :=
  negb (is_success o) && negb (is_client_error o).

(** The effects of pass [k]: the sleep, from the second pass on, then the
    network calls. *)
Definition pass (k : Z) : list Effect :=
  if 0 <? k then [Sleep (backoff k); Attempt k] else [Attempt k].

(** A service that never answers. *)
Definition unreachable : Z -> AttemptOutcome := fun _ => SendRequestFails.

(** A service that rejects the first request with status 400. *)
Definition rejecting : Z -> AttemptOutcome := fun _ => Response 400 [].

(** The delays the specification lists for the default budget. *)
Definition listed_delays : list Z := [500; 1000; 2000].

End FetchSpec.

Module SanitizeSpec.
Import AudioCache PlaybackQueue TTSProcessor.

Definition quiet_os : AudioCache.OS :=
  {| clock := 0; bcrypt_ok := true; read_ok := true; disk_write := CreateFileFails |}.

Definition some_config : Config :=
  {| server := "http://localhost:5050/v1"; voice := "onyx"; format := "wav" |}.

(** The single byte 0xFF. *)
Definition invalid_utf8 : string :=
  String (Ascii.Ascii true true true true true true true true) EmptyString.

(** A task environment whose service would answer every request. *)
Definition answering_env : TaskEnv :=
  {| os_get := quiet_os; os_put := quiet_os; bcrypt_path := true;
     net := fun _ _ => TTSFetcher.Response 200 [1] |}.

(** The globals after one [AddRequest], with a cold cache. *)
Definition fresh_world : World :=
  {| g_audioCache := AudioCache.create 50 ∅;
     g_playbackQueue := (AddRequest PlaybackQueue.init []).2;
     network := [] |}.

End SanitizeSpec.

Module CacheSpec.
Import AudioCache.

(** The entry a call at clock reading [now] writes for [d]. *)
Definition fresh (d : bytes) (now : Z) : CacheEntry := {| data := d; timestamp := now |}.

(** [m'] is [m] after [key := new] was written under the bound [max]:
    below the bound nothing else changes; at or above it one entry whose
    timestamp no entry undercuts was erased first. *)
Definition written_under_bound (max : Z) (key : string) (new : CacheEntry)
    (m m' : gmap string CacheEntry) : Prop :=
  (Z.of_nat (size m) < max -> m' = <[key := new]> m)
  ∧ (max <= Z.of_nat (size m) ->
     exists k_old e_old,
       m !! k_old = Some e_old
       ∧ (forall k e, m !! k = Some e -> timestamp e_old <= timestamp e)
       ∧ m' = <[key := new]> (delete k_old m)
       ∧ m' !! k_old = if decide (k_old = key) then Some new else None)
  ∧ (Z.of_nat (size m) <= max -> Z.of_nat (size m') <= max).

(** The reading of the eviction rule by which a write that keeps the
    entry count within the bound erases nothing. *)
Definition evicts_only_on_overflow (max : Z) (key : string) (new : CacheEntry)
    (m m' : gmap string CacheEntry) : Prop :=
  Z.of_nat (size (<[key := new]> m)) <= max -> m' = <[key := new]> m.

Definition os_at (now : Z) : OS :=
  {| clock := now; bcrypt_ok := true; read_ok := true; disk_write := CreateFileFails |}.

(** The locked blocks of the calls into the cache, with the operating
    system each one meets; a [Get] of another thread may have its second
    block run after other calls. *)
Inductive op :=
| OpPut (os : OS) (text server voice : string) (d : bytes)
| OpGet (os : OS) (text server voice : string)
| OpGetDisk (os : OS) (cacheKey : string).

Definition apply_op (format : string) (c : t) (o : op) : option t :=
  match o with
  | OpPut os text server voice d => Put c os format text server voice d
  | OpGet os text server voice => snd <$> Get c os format text server voice
  | OpGetDisk os cacheKey => snd <$> Get_disk c os format cacheKey
  end.

Fixpoint run (format : string) (c : t) (ops : list op) : option t :=
  match ops with
  | [] => Some c
  | o :: ops' =>
      match apply_op format c o with
      | Some c' => run format c' ops'
      | None => None
      end
  end.

(** No two triples share a key. *)
Definition key_injective : Prop :=
  forall ok text server voice text' server' voice',
    GenerateCacheKey ok text server voice = GenerateCacheKey ok text' server' voice' ->
    (text, server, voice) = (text', server', voice').

(** The separator occurs in [s]. *)
Fixpoint has_bar (s : string) : bool :=
  match s with
  | EmptyString => false
  | String c r => Ascii.eqb c "|" || has_bar r
  end.

Definition key_of (text : string) : string := GenerateCacheKey true text "srv" "v".

(** A cache bounded at two entries after [Put] of "A" and then of "B". *)
Definition two_entries : t :=
  default (create 2 ∅)
    (c1 ← Put (create 2 ∅) (os_at 1) "wav" "A" "srv" "v" [1];
     Put c1 (os_at 2) "wav" "B" "srv" "v" [2]).

(** The same cache after a third [Put], of [text]. *)
Definition third_put (text : string) : t :=
  default two_entries (Put two_entries (os_at 3) "wav" text "srv" "v" [3]).

End CacheSpec.

(** * Further parts of the program *)

(** ** tts_processor.cpp: the producer side *)

Module Producer.
Import PlaybackQueue.

(** What the lambda handed to the pool captures: [utf8Text] and [seq]. *)
Record FetchTask := mkFetchTask { task_text : string; task_seq : Z }.

(** [void ProcessTTSRequest(const std::wstring& text)] after the lazy
    start of the coordinator thread, run without another thread in
    between; [WideToUTF8] is the conversion the operating system does. *)
Definition ProcessTTSRequest (WideToUTF8 : wstring -> string)
    (q : PlaybackQueue.t) (p : FetchThreadPool.t FetchTask) (txt : wstring)
  : PlaybackQueue.t * FetchThreadPool.t FetchTask :=
  let '(seq, q1) := AddRequest q txt in
  let utf8Text := WideToUTF8 txt in
  let '(ok, p1) := FetchThreadPool.Enqueue p {| task_text := utf8Text; task_seq := seq |} in
  if ok then (q1, p1) else (MarkFailed q1 seq, p1).

(** A [MarkReady] or [MarkFailed] call. *)
Inductive mark_call :=
| CallMarkReady (seq : Z) (audio : bytes) (cachePath : option string)
| CallMarkFailed (seq : Z).

Definition apply_mark (q : PlaybackQueue.t) (m : mark_call) : PlaybackQueue.t :=
  match m with
  | CallMarkReady seq audio path => MarkReady q seq audio path
  | CallMarkFailed seq => MarkFailed q seq
  end.

End Producer.

Module FetchMore.
Import TTSFetcher.

(** The time a run spends in [Sleep], in milliseconds. *)
Definition total_sleep (effects : list Effect) : Z := foldr Z.add 0 (delays effects).

(** A service that fails twice at transport level and then answers. *)
Definition third_time_lucky (payload : bytes) : Z -> AttemptOutcome :=
  fun k => if k <? 2 then ConnectFails else Response 200 payload.

End FetchMore.

Module ProcessorSpec.
Import AudioCache PlaybackQueue TTSProcessor.

(** An operating system on which hashing, reading and writing succeed. *)
Definition obliging_os (now : Z) (d : bytes) : AudioCache.OS :=
  {| clock := now; bcrypt_ok := true; read_ok := true;
     disk_write := WriteFileReturns true (length d) |}.

(** A task environment whose service answers "hello" with four bytes. *)
Definition hello_env (now : Z) : TaskEnv :=
  {| os_get := obliging_os now [82; 73; 70; 70];
     os_put := obliging_os (now + 1) [82; 73; 70; 70];
     bcrypt_path := true;
     net := fun _ _ => TTSFetcher.Response 200 [82; 73; 70; 70] |}.

(** The globals after two [AddRequest] calls, with a cold cache. *)
Definition two_requests : World :=
  {| g_audioCache := AudioCache.create 50 ∅;
     g_playbackQueue := (AddRequest (AddRequest PlaybackQueue.init [104]).2 [104]).2;
     network := [] |}.


(** A task environment whose service answers every text with status 200
    and no bytes. *)
Definition mute_env : TaskEnv :=
  {| os_get := obliging_os 1 [];
     os_put := obliging_os 2 [];
     bcrypt_path := true;
     net := fun _ _ => TTSFetcher.Response 200 [] |}.

End ProcessorSpec.

Module CacheMore.
Import AudioCache CacheSpec.

(** A character of a lower-case hexadecimal numeral. *)
Definition is_hex_digit (c : ascii) : bool :=
  existsb (Ascii.eqb c) (list_ascii_of_string "0123456789abcdef").

(** A cache with the disk tier switched on, as [Initialize] leaves it
    when the cache directory exists. *)
Definition with_disk (dir : string) (max : Z) (fs : gmap string bytes) : t :=
  {| cache := ∅; maxSize := max; cacheDirectory := dir;
     diskCacheEnabled := true; files := fs |}.

(** An operating system at clock reading [now] that writes [n] bytes. *)
Definition os_writing (now : Z) (n : nat) : OS :=
  {| clock := now; bcrypt_ok := true; read_ok := true;
     disk_write := WriteFileReturns true n |}.

End CacheMore.

Module PoolShutdown.
Import FetchThreadPool.

(** [void Shutdown()] up to [cv.notify_all()]: a pool that never started
    returns at once, a started one stores [stop] under the lock. *)
Definition Shutdown_signal {Task} (p : t Task) : t Task :=
  if initialized p
  then {| workers := workers p; tasks := tasks p; stop := true;
          initialized := initialized p;
          maxThreads := maxThreads p; maxPendingTasks := maxPendingTasks p |}
  else p.

(** [Shutdown] after its joins have returned: [workers.clear()]. *)
Definition Shutdown_clear {Task} (p : t Task) : t Task :=
  if initialized p
  then {| workers := 0; tasks := tasks p; stop := stop p;
          initialized := initialized p;
          maxThreads := maxThreads p; maxPendingTasks := maxPendingTasks p |}
  else p.

(** The pool after the [Enqueue] calls for [ts], one after the other. *)
Definition enqueue_all {Task} (p : t Task) (ts : list Task) : t Task :=
  fold_left (fun p task => (Enqueue p task).2) ts p.

(** Whether a trace holds an [Enqueue] call. *)
Definition calls_Enqueue {Task} (tr : list (event Task)) : bool :=
  existsb (fun ev => match ev with EvEnqueue _ => true | EvWorker => false end) tr.

(** A started pool bounded at 5 that holds three tasks. *)
Definition busy_pool : t nat :=
  {| workers := 4; tasks := [7%nat; 8%nat; 9%nat]; stop := false; initialized := true;
     maxThreads := 4; maxPendingTasks := 5 |}.

End PoolShutdown.

(** ** utils.h, continued *)

Module Text.
Import Utils.

(** Membership in the set [" \t\r\n"] that [trim] passes to the two
    searches. *)
Definition is_trimmed_char (c : ascii) : bool :=
  let b := byte_of c in (b =? 32) || (b =? 9) || (b =? 13) || (b =? 10).

(** [str.find_first_not_of(" \t\r\n")]; [None] is [npos]. *)
Fixpoint find_first_not_of (str : string) : option nat :=
  match str with
  | EmptyString => None
  | String c r => if is_trimmed_char c then S <$> find_first_not_of r else Some O
  end.

(** [str.find_last_not_of(" \t\r\n")]. *)
Fixpoint find_last_not_of (str : string) : option nat :=
  match str with
  | EmptyString => None
  | String c r =>
      match find_last_not_of r with
      | Some i => Some (S i)
      | None => if is_trimmed_char c then None else Some O
      end
  end.

(** [std::string trim(const std::string&)].  [substring] is [substr] for
    a position within the string, which [first] is.  With [last] at
    [npos] the count [last - first + 1] would wrap to a count that
    reaches the end of the string. *)
Definition trim (str : string) : string :=
  match find_first_not_of str with
  | None => EmptyString
  | Some first =>
      match find_last_not_of str with
      | Some last => substring first (last - first + 1) str
      | None => substring first (String.length str) str
      end
  end.

(** A string of the characters [trim] removes. *)
Fixpoint all_trimmed (s : string) : bool :=
  match s with
  | EmptyString => true
  | String c r => is_trimmed_char c && all_trimmed r
  end.

(** The quotation mark and the backslash. *)
Definition quote : ascii := "034".
Definition backslash : ascii := "092".

Definition hex_digit (n : Z) : ascii := AudioCache.to_hex_digit n.

(** [oss << std::hex << std::setw(4) << std::setfill('0') << int(c)] for
    a value below [0x10000]. *)
Definition hex4 (n : Z) : string :=
  String (hex_digit (n / 4096 mod 16))
    (String (hex_digit (n / 256 mod 16))
       (String (hex_digit (n / 16 mod 16))
          (String (hex_digit (n mod 16)) EmptyString))).

(** One round of the [switch] in [EscapeJSON]. *)
Definition escape_char (c : ascii) : string :=
  let b := byte_of c in
  if b =? 34 then String backslash (String quote EmptyString)
  else if b =? 92 then String backslash (String backslash EmptyString)
  else if b =? 8 then String backslash "b"
  else if b =? 12 then String backslash "f"
  else if b =? 10 then String backslash "n"
  else if b =? 13 then String backslash "r"
  else if b =? 9 then String backslash "t"
  else if b <? 0x20 then String backslash (String "u" (hex4 b))
  else String c EmptyString.

(** [std::string EscapeJSON(const std::string&)]. *)
Fixpoint EscapeJSON (str : string) : string :=
  match str with
  | EmptyString => EmptyString
  | String c r => escape_char c +:+ EscapeJSON r
  end.

(** The request body that [FetchTTSAudioWithRetry] assembles in
    [jsonBody]. *)
Definition member (name value : string) : string :=
  String quote name +:+ String quote (String ":" (String quote (EscapeJSON value)))
  +:+ String quote EmptyString.

Definition jsonBody (model text voice format : string) : string :=
  "{" +:+ member "model" model +:+ "," +:+ member "input" text +:+ ","
  +:+ member "voice" voice +:+ "," +:+ member "response_format" format +:+ "}".

End Text.

(** A reader of JSON strings and of flat JSON objects (RFC 8259), the
    yardstick for [EscapeJSON]: it is what the service on the other side
    applies to the body. *)
Module JsonReader.
Import Utils Text.

Definition hex_value (c : ascii) : option Z :=
  let b := byte_of c in
  if (48 <=? b) && (b <=? 57) then Some (b - 48)
  else if (97 <=? b) && (b <=? 102) then Some (b - 87)
  else if (65 <=? b) && (b <=? 70) then Some (b - 55)
  else None.

Definition prepend (c : ascii) (r : option (string * string)) : option (string * string) :=
  match r with
  | Some (content, rest) => Some (String c content, rest)
  | None => None
  end.

(** The code point of [\uXXXX] as one byte; code points from 256 on are
    outside what [EscapeJSON] writes and are refused. *)
Definition unit_of (h1 h2 h3 h4 : ascii) : option ascii :=
  match hex_value h1, hex_value h2, hex_value h3, hex_value h4 with
  | Some a, Some b, Some c, Some d =>
      let n := ((a * 16 + b) * 16 + c) * 16 + d in
      if n <? 256 then Some (ascii_of_N (Z.to_N n)) else None
  | _, _, _, _ => None
  end.

Definition unescape (e : ascii) : option ascii :=
  let b := byte_of e in
  if b =? 34 then Some quote
  else if b =? 92 then Some backslash
  else if b =? 47 then Some "/"%char
  else if b =? 98 then Some "008"%char
  else if b =? 102 then Some "012"%char
  else if b =? 110 then Some "010"%char
  else if b =? 114 then Some "013"%char
  else if b =? 116 then Some "009"%char
  else None.

(** The characters of a string after its opening quotation mark: the
    decoded content up to the closing quotation mark, and what follows
    it.  A raw control character, an unknown escape and a missing closing
    mark are errors. *)
Fixpoint read_string (s : string) : option (string * string) :=
  match s with
  | EmptyString => None
  | String c r =>
      if byte_of c =? 34 then Some (EmptyString, r)
      else if byte_of c =? 92 then
        match r with
        | String e r' =>
            if byte_of e =? 117 then
              match r' with
              | String h1 (String h2 (String h3 (String h4 r''))) =>
                  match unit_of h1 h2 h3 h4 with
                  | Some d => prepend d (read_string r'')
                  | None => None
                  end
              | _ => None
              end
            else
              match unescape e with
              | Some d => prepend d (read_string r')
              | None => None
              end
        | EmptyString => None
        end
      else if byte_of c <? 0x20 then None
      else prepend c (read_string r)
  end.

(** The members of an object whose values are strings, after the opening
    brace and without white space, as [jsonBody] writes them. *)
Fixpoint read_members (fuel : nat) (s : string) : option (list (string * string)) :=
  match fuel with
  | O => None
  | S fuel' =>
      match s with
      | String q r =>
          if byte_of q =? 34 then
            match read_string r with
            | Some (name, String colon (String q' r')) =>
                if (byte_of colon =? 58) && (byte_of q' =? 34) then
                  match read_string r' with
                  | Some (value, String sep r'') =>
                      if byte_of sep =? 125 then
                        match r'' with
                        | EmptyString => Some [(name, value)]
                        | _ => None
                        end
                      else if byte_of sep =? 44 then
                        match read_members fuel' r'' with
                        | Some ms => Some ((name, value) :: ms)
                        | None => None
                        end
                      else None
                  | _ => None
                  end
                else None
            | _ => None
            end
          else None
      | EmptyString => None
      end
  end.

(** A member name that needs no escape. *)
Definition plain_name (name : string) : Prop :=
  forall r, read_string (name +:+ String quote r) = Some (name, r).

Definition read_object (s : string) : option (list (string * string)) :=
  match s with
  | String b r => if byte_of b =? 123 then read_members (String.length r) r else None
  | EmptyString => None
  end.

End JsonReader.

Module TextSpec.
Import Utils Text.

(** The tail [trim] keeps after a first kept character. *)
Definition keep_to_last (r : string) : string :=
  match find_last_not_of r with
  | Some j => substring 0 (S j) r
  | None => EmptyString
  end.

(** Every character is a non-null ASCII character. *)
Fixpoint plain_ascii (s : string) : bool :=
  match s with
  | EmptyString => true
  | String c r => (0 <? byte_of c) && (byte_of c <? 0x80) && plain_ascii r
  end.

(** [n] copies of a character. *)
Fixpoint replicate_char (n : nat) (c : ascii) : string :=
  match n with
  | O => EmptyString
  | S n' => String c (replicate_char n' c)
  end.

End TextSpec.

(** ** config.h / config.cpp *)

Module Config.
Import Utils Text.

(** [constexpr size_t MAX_CONFIG_STRING_SIZE = 256;] *)
Definition MAX_CONFIG_STRING_SIZE : nat := 256.

(** [struct TTSConfig]: each string member stands for the pointer
    together with the buffer it points to. *)
Record TTSConfig := mkTTSConfig {
  server : string;
  model : string;
  voice : string;
  api_key : string;
  format : string;
  cancel_key : string;
  log_level : string;
  volume : Z;
  mute_original : bool;
  max_cache_size : Z;
  enable_disk_cache : bool;
  max_disk_cache_mb : Z;
  show_console : bool;
  log_to_file : bool;
  max_fetch_threads : Z;
  max_pending_fetches : Z
}.

(** [value.c_str()] as the callee reads it: the characters before the
    first null. *)
Fixpoint c_str (s : string) : string :=
  match s with
  | EmptyString => EmptyString
  | String c r => if byte_of c =? 0 then EmptyString else String c (c_str r)
  end.

(** [SetString]: [strncpy_s(buffer, 256, value, _TRUNCATE)] copies at
    most 255 characters and terminates them; an empty value empties the
    buffer. *)
Definition SetString (value : string) : string :=
  substring 0 (MAX_CONFIG_STRING_SIZE - 1) (c_str value).

Definition SetServer (value : string) (c : TTSConfig) : TTSConfig :=
  mkTTSConfig (SetString value) (model c) (voice c) (api_key c) (format c) (cancel_key c)
    (log_level c) (volume c) (mute_original c) (max_cache_size c) (enable_disk_cache c)
    (max_disk_cache_mb c) (show_console c) (log_to_file c) (max_fetch_threads c)
    (max_pending_fetches c).

Definition SetModel (value : string) (c : TTSConfig) : TTSConfig :=
  mkTTSConfig (server c) (SetString value) (voice c) (api_key c) (format c) (cancel_key c)
    (log_level c) (volume c) (mute_original c) (max_cache_size c) (enable_disk_cache c)
    (max_disk_cache_mb c) (show_console c) (log_to_file c) (max_fetch_threads c)
    (max_pending_fetches c).

Definition SetVoice (value : string) (c : TTSConfig) : TTSConfig :=
  mkTTSConfig (server c) (model c) (SetString value) (api_key c) (format c) (cancel_key c)
    (log_level c) (volume c) (mute_original c) (max_cache_size c) (enable_disk_cache c)
    (max_disk_cache_mb c) (show_console c) (log_to_file c) (max_fetch_threads c)
    (max_pending_fetches c).

Definition SetApiKey (value : string) (c : TTSConfig) : TTSConfig :=
  mkTTSConfig (server c) (model c) (voice c) (SetString value) (format c) (cancel_key c)
    (log_level c) (volume c) (mute_original c) (max_cache_size c) (enable_disk_cache c)
    (max_disk_cache_mb c) (show_console c) (log_to_file c) (max_fetch_threads c)
    (max_pending_fetches c).

Definition SetFormat (value : string) (c : TTSConfig) : TTSConfig :=
  mkTTSConfig (server c) (model c) (voice c) (api_key c) (SetString value) (cancel_key c)
    (log_level c) (volume c) (mute_original c) (max_cache_size c) (enable_disk_cache c)
    (max_disk_cache_mb c) (show_console c) (log_to_file c) (max_fetch_threads c)
    (max_pending_fetches c).

Definition SetCancelKey (value : string) (c : TTSConfig) : TTSConfig :=
  mkTTSConfig (server c) (model c) (voice c) (api_key c) (format c) (SetString value)
    (log_level c) (volume c) (mute_original c) (max_cache_size c) (enable_disk_cache c)
    (max_disk_cache_mb c) (show_console c) (log_to_file c) (max_fetch_threads c)
    (max_pending_fetches c).

Definition SetLogLevel (value : string) (c : TTSConfig) : TTSConfig :=
  mkTTSConfig (server c) (model c) (voice c) (api_key c) (format c) (cancel_key c)
    (SetString value) (volume c) (mute_original c) (max_cache_size c) (enable_disk_cache c)
    (max_disk_cache_mb c) (show_console c) (log_to_file c) (max_fetch_threads c)
    (max_pending_fetches c).

(** Assignments to the members that are not strings. *)
Definition set_volume (n : Z) (c : TTSConfig) : TTSConfig :=
  mkTTSConfig (server c) (model c) (voice c) (api_key c) (format c) (cancel_key c)
    (log_level c) n (mute_original c) (max_cache_size c) (enable_disk_cache c)
    (max_disk_cache_mb c) (show_console c) (log_to_file c) (max_fetch_threads c)
    (max_pending_fetches c).

Definition set_mute_original (b : bool) (c : TTSConfig) : TTSConfig :=
  mkTTSConfig (server c) (model c) (voice c) (api_key c) (format c) (cancel_key c)
    (log_level c) (volume c) b (max_cache_size c) (enable_disk_cache c)
    (max_disk_cache_mb c) (show_console c) (log_to_file c) (max_fetch_threads c)
    (max_pending_fetches c).

Definition set_max_cache_size (n : Z) (c : TTSConfig) : TTSConfig :=
  mkTTSConfig (server c) (model c) (voice c) (api_key c) (format c) (cancel_key c)
    (log_level c) (volume c) (mute_original c) n (enable_disk_cache c)
    (max_disk_cache_mb c) (show_console c) (log_to_file c) (max_fetch_threads c)
    (max_pending_fetches c).

Definition set_show_console (b : bool) (c : TTSConfig) : TTSConfig :=
  mkTTSConfig (server c) (model c) (voice c) (api_key c) (format c) (cancel_key c)
    (log_level c) (volume c) (mute_original c) (max_cache_size c) (enable_disk_cache c)
    (max_disk_cache_mb c) b (log_to_file c) (max_fetch_threads c)
    (max_pending_fetches c).

Definition set_log_to_file (b : bool) (c : TTSConfig) : TTSConfig :=
  mkTTSConfig (server c) (model c) (voice c) (api_key c) (format c) (cancel_key c)
    (log_level c) (volume c) (mute_original c) (max_cache_size c) (enable_disk_cache c)
    (max_disk_cache_mb c) (show_console c) b (max_fetch_threads c)
    (max_pending_fetches c).

Definition set_max_fetch_threads (n : Z) (c : TTSConfig) : TTSConfig :=
  mkTTSConfig (server c) (model c) (voice c) (api_key c) (format c) (cancel_key c)
    (log_level c) (volume c) (mute_original c) (max_cache_size c) (enable_disk_cache c)
    (max_disk_cache_mb c) (show_console c) (log_to_file c) n
    (max_pending_fetches c).

Definition set_max_pending_fetches (n : Z) (c : TTSConfig) : TTSConfig :=
  mkTTSConfig (server c) (model c) (voice c) (api_key c) (format c) (cancel_key c)
    (log_level c) (volume c) (mute_original c) (max_cache_size c) (enable_disk_cache c)
    (max_disk_cache_mb c) (show_console c) (log_to_file c) (max_fetch_threads c) n.

(** [void TTSConfig::SetDefaults()] assigns every member. *)
Definition SetDefaults : TTSConfig :=
  {| server := SetString "http://localhost:5050/v1";
     model := SetString "tts-1";
     voice := SetString "onyx";
     api_key := SetString "";
     format := SetString "wav";
     cancel_key := SetString "F9";
     log_level := SetString "info";
     volume := 90;
     mute_original := true;
     max_cache_size := 50;
     enable_disk_cache := true;
     max_disk_cache_mb := 500;
     show_console := true;
     log_to_file := true;
     max_fetch_threads := 4;
     max_pending_fetches := 20 |}.

(** [strcmp(g_config.format, ...) != 0] for each of the five names. *)
Definition unknown_format (f : string) : bool :=
  negb (String.eqb f "wav") && negb (String.eqb f "mp3") && negb (String.eqb f "opus")
  && negb (String.eqb f "aac") && negb (String.eqb f "flac").

(** [strncmp(g_config.server, "http://", 7) != 0 && strncmp(...,
    "https://", 8) != 0]. *)
Definition bad_server (s : string) : bool :=
  negb (String.prefix "http://" s) && negb (String.prefix "https://" s).

(** [bool ValidateConfig()], which returns [true] on every path; the
    result here is [g_config] as the call leaves it. *)
Definition ValidateConfig (c : TTSConfig) : TTSConfig :=
  let c1 := if volume c <? 0 then set_volume 0 c else c in
  let c2 := if 100 <? volume c1 then set_volume 100 c1 else c1 in
  let c3 := if bad_server (server c2) then SetServer "http://localhost:5050/v1" c2 else c2 in
  if unknown_format (format c3) then SetFormat "wav" c3 else c3.

(** [isspace] in the "C" locale. *)
Definition is_space (c : ascii) : bool :=
  let b := byte_of c in (b =? 32) || ((9 <=? b) && (b <=? 13)).

Fixpoint skip_space (s : string) : string :=
  match s with
  | String c r => if is_space c then skip_space r else s
  | EmptyString => EmptyString
  end.

Definition digit_value (c : ascii) : option Z :=
  let b := byte_of c in
  if (48 <=? b) && (b <=? 57) then Some (b - 48) else None.

(** The decimal digits at the head of [s], read after [acc]. *)
Fixpoint read_digits (acc : Z) (s : string) : Z :=
  match s with
  | String c r =>
      match digit_value c with
      | Some d => read_digits (acc * 10 + d) r
      | None => acc
      end
  | EmptyString => acc
  end.

Definition INT_MAX : Z := 2 ^ 31 - 1.
Definition INT_MIN : Z := - 2 ^ 31.

(** [std::stoi(value)]: white space, an optional sign, decimal digits up
    to the first other character.  [None] is a thrown exception:
    [invalid_argument] without a digit, [out_of_range] outside [int]. *)
Definition stoi (s : string) : option Z :=
  let s1 := skip_space s in
  let '(negative, s2) :=
    match s1 with
    | String c r =>
        if byte_of c =? 45 then (true, r)
        else if byte_of c =? 43 then (false, r)
        else (false, s1)
    | EmptyString => (false, EmptyString)
    end in
  match s2 with
  | String c _ =>
      match digit_value c with
      | Some _ =>
          let v := if negative then - read_digits 0 s2 else read_digits 0 s2 in
          if (INT_MIN <=? v) && (v <=? INT_MAX) then Some v else None
      | None => None
      end
  | EmptyString => None
  end.

(** [line.find(ch)]; [None] is [npos]. *)
Fixpoint find (ch : ascii) (s : string) : option nat :=
  match s with
  | EmptyString => None
  | String c r => if Ascii.eqb c ch then Some O else S <$> find ch r
  end.

(** The loop body of [LoadConfig] up to the two [trim] calls: the key
    and the value of a line, or [None] where the line is skipped with
    [continue]. *)
Definition split_line (line : string) : option (string * string) :=
  let line1 :=
    match find "#" line with
    | Some commentPos => substring 0 commentPos line
    | None => line
    end in
  let line2 := trim line1 in
  if String.eqb line2 EmptyString then None
  else
    match find "=" line2 with
    | None => None
    | Some eqPos =>
        Some (trim (substring 0 eqPos line2),
              trim (substring (eqPos + 1) (String.length line2) line2))
    end.

(** The chain of [if (key == ...)]; [None] is an exception of
    [std::stoi], which [LoadConfig] does not catch. *)
Definition assign (key value : string) (c : TTSConfig) : option TTSConfig :=
  if String.eqb key "server" then Some (SetServer value c)
  else if String.eqb key "model" then Some (SetModel value c)
  else if String.eqb key "voice" then Some (SetVoice value c)
  else if String.eqb key "api_key" then Some (SetApiKey value c)
  else if String.eqb key "format" then Some (SetFormat value c)
  else if String.eqb key "volume" then n ← stoi value; Some (set_volume n c)
  else if String.eqb key "mute_original" then
    n ← stoi value; Some (set_mute_original (negb (n =? 0)) c)
  else if String.eqb key "cancel_key" then Some (SetCancelKey value c)
  else if String.eqb key "max_cache_size" then n ← stoi value; Some (set_max_cache_size n c)
  else if String.eqb key "log_level" then Some (SetLogLevel value c)
  else if String.eqb key "show_console" then
    n ← stoi value; Some (set_show_console (negb (n =? 0)) c)
  else if String.eqb key "log_to_file" then
    n ← stoi value; Some (set_log_to_file (negb (n =? 0)) c)
  else if String.eqb key "max_fetch_threads" then
    n ← stoi value; Some (set_max_fetch_threads n c)
  else if String.eqb key "max_pending_fetches" then
    n ← stoi value; Some (set_max_pending_fetches n c)
  else Some c.

(** One round of [while (std::getline(file, line))]. *)
Definition load_line (c : TTSConfig) (line : string) : option TTSConfig :=
  match split_line line with
  | Some (key, value) => assign key value c
  | None => Some c
  end.

Fixpoint load_lines (c : TTSConfig) (lines : list string) : option TTSConfig :=
  match lines with
  | [] => Some c
  | line :: rest =>
      match load_line c line with
      | Some c' => load_lines c' rest
      | None => None
      end
  end.

(** How a call of [LoadConfig] ends: with [false] and the defaults, with
    [true] and the validated settings, or with an exception. *)
Inductive LoadResult :=
| NotFound (c : TTSConfig)
| Loaded (c : TTSConfig)
| Threw.

(** [bool LoadConfig(filename)]; [file] is [None] when the file cannot
    be opened and else the lines [std::getline] returns. *)
Definition LoadConfig (file : option (list string)) : LoadResult :=
  match file with
  | None => NotFound SetDefaults
  | Some lines =>
      match load_lines SetDefaults lines with
      | Some c => Loaded (ValidateConfig c)
      | None => Threw
      end
  end.

End Config.

Module ConfigSpec.
Import Utils Text Config.

(** What [ValidateConfig] establishes. *)
Definition valid (c : TTSConfig) : Prop :=
  0 <= volume c <= 100
  ∧ bad_server (server c) = false
  ∧ unknown_format (format c) = false.

(** A string that fits a buffer of [MAX_CONFIG_STRING_SIZE] characters,
    terminator included. *)
Definition fits_buffer (s : string) : Prop :=
  (String.length s < MAX_CONFIG_STRING_SIZE)%nat ∧ c_str s = s.

(** Every string member fits its buffer. *)
Definition fits (c : TTSConfig) : Prop :=
  fits_buffer (server c) ∧ fits_buffer (model c) ∧ fits_buffer (voice c)
  ∧ fits_buffer (api_key c) ∧ fits_buffer (format c) ∧ fits_buffer (cancel_key c)
  ∧ fits_buffer (log_level c).

(** No character of [s] is [ch]. *)
Fixpoint free_of (ch : ascii) (s : string) : bool :=
  match s with
  | EmptyString => true
  | String c r => negb (Ascii.eqb c ch) && free_of ch r
  end.

(** A string [trim] leaves as it is. *)
Definition tidy (s : string) : Prop := trim s = s.

End ConfigSpec.

(** ** audio_player.cpp *)

Module AudioPlayer.

Definition wrap16 (x : Z) : Z := x mod 2 ^ 16.

(** [memcpy(dst, &x, n)] of an integer object: its low [n] bytes, least
    significant first. *)
Definition le_bytes (n : nat) (x : Z) : bytes :=
  map (fun i => Z.shiftr x (8 * Z.of_nat i) mod 256) (seq 0 n).

(** The bytes of a four-character tag. *)
Definition tag (s : string) : bytes := Utils.bytes_of_string s.

(** [memcmp(p, t, length t) == 0] where [d] is what [p] points to. *)
Fixpoint starts_with (t d : bytes) : bool :=
  match t, d with
  | [], _ => true
  | x :: t', y :: d' => (x =? y) && starts_with t' d'
  | _ :: _, [] => false
  end.

(** [memcpy(data.data() + pos, src, length src)] inside the vector. *)
Definition write (pos : nat) (src : bytes) (d : bytes) : bytes :=
  take pos d ++ src ++ drop (pos + length src) d.

(** [void AddWavHeader(data, sampleRate, channels, bitsPerSample)]; the
    three [int] parameters are integers, the products are taken as the
    conversions to [uint32_t] and [uint16_t] leave them. *)
Definition AddWavHeader (data : bytes) (sampleRate channels bitsPerSample : Z) : bytes :=
  let dataSize := wrap32 (Z.of_nat (length data)) in
  let totalSize := wrap32 (dataSize + 36) in
  let byteRate := wrap32 (sampleRate * channels * (bitsPerSample ÷ 8)) in
  let blockAlign := wrap16 (channels * (bitsPerSample ÷ 8)) in
  let header :=
    tag "RIFF" ++ le_bytes 4 totalSize ++ tag "WAVE"
    ++ tag "fmt " ++ le_bytes 4 16 ++ le_bytes 2 1 ++ le_bytes 2 channels
    ++ le_bytes 4 sampleRate ++ le_bytes 4 byteRate ++ le_bytes 2 blockAlign
    ++ le_bytes 2 bitsPerSample
    ++ tag "data" ++ le_bytes 4 dataSize in
  header ++ data.

(** The loop [for (i = ...; i < searchLimit - 8; i++)] from [i] on, with
    [steps] rounds left: the first offset at which the tag stands. *)
Fixpoint find_data_tag (d : bytes) (i steps : nat) : option nat :=
  match steps with
  | O => None
  | S k => if starts_with (tag "data") (drop i d) then Some i else find_data_tag d (S i) k
  end.

(** [void RepairWavHeader(data)]. *)
Definition RepairWavHeader (data : bytes) : bytes :=
  if (length data <? 44)%nat then data
  else if negb (starts_with (tag "RIFF") data) then data
  else
    let fileSize := wrap32 (Z.of_nat (length data)) in
    let riffChunkSize := wrap32 (fileSize - 8) in
    let data1 := write 4 (le_bytes 4 riffChunkSize) data in
    let searchLimit := if (length data <? 200)%nat then length data else 200%nat in
    match find_data_tag data1 12 (searchLimit - 8 - 12) with
    | Some i =>
        let dataSubchunkPos := wrap32 (Z.of_nat i) in
        let actualDataSize := wrap32 (fileSize - wrap32 (dataSubchunkPos + 8)) in
        write (i + 4) (le_bytes 4 actualDataSize) data1
    | None => data1
    end.

(** The first part of [PlayAudioFromMemory]: the bytes written to the
    temporary file, or [None] where the call returns at once because
    there is nothing to play.  [isWav] is [g_config.FormatEquals("wav")]. *)
Definition prepare (isWav : bool) (inputAudioData : bytes) : option bytes :=
  match inputAudioData with
  | [] => None
  | _ =>
      if isWav then
        if (4 <=? length inputAudioData)%nat && starts_with (tag "RIFF") inputAudioData
        then Some (RepairWavHeader inputAudioData)
        else Some (AddWavHeader inputAudioData 24000 1 16)
      else Some inputAudioData
  end.

End AudioPlayer.

(** ** hooks.cpp *)

Module Hooks.

(** The cache part of [SetupHooks]:
    [g_audioCache.SetMaxSize(g_config.max_cache_size)], the [int] converted
    to [size_t]. *)
Definition configure_cache (cfg : Config.TTSConfig) (c : AudioCache.t) : AudioCache.t :=
  AudioCache.SetMaxSize c (wrap64 (Config.max_cache_size cfg)).

(** A settings file that sets the cache bound to zero. *)
Definition zero_bound_file : list string := ["max_cache_size = 0"%string].

End Hooks.

(** * Properties *)

(** ** The ordering buffer *)

Section QueueFacts.
Import PlaybackQueue TTSProcessor OrderingSpec.

Lemma Remove_lookup (q : t) (seq k : Z) :
  pendingItems (Remove q seq) !! k
  = if decide (k < seq) then None else pendingItems q !! k.
Proof.
  unfold Remove; simpl.
  destruct (decide (k < seq)) as [Hlt | Hge].
  - apply map_lookup_filter_None. right. intros x _ Hn. simpl in Hn. lia.
  - destruct (pendingItems q !! k) as [x |] eqn:E.
    + apply map_lookup_filter_Some. split; [done | simpl; lia].
    + apply map_lookup_filter_None. by left.
Qed.

Lemma wrap64_small (x : Z) : 0 <= x < UINT64_MOD -> wrap64 x = x.
Proof. intros H. unfold wrap64. by apply Z.mod_small. Qed.

Lemma one_ready_lookup : pendingItems one_ready !! 1 = Some (item_ready 1).
Proof. vm_compute. reflexivity. Qed.

(** C7, as the code has it.  [Remove(seq)] moves the cursor to [seq + 1]
    (modulo 2^64) exactly when [seq] is the current cursor and leaves it
    alone otherwise; it erases exactly the entries whose key is below the
    argument [seq] (not below the new cursor) and keeps every other entry,
    the sequence counter and the shutdown flag. *)
Theorem Remove_spec (q : t) (seq : Z) :
  nextToPlay (Remove q seq)
  = (if seq =? nextToPlay q then wrap64 (seq + 1) else nextToPlay q)
  ∧ (forall k, pendingItems (Remove q seq) !! k
               = if decide (k < seq) then None else pendingItems q !! k)
  ∧ nextSequenceNumber (Remove q seq) = nextSequenceNumber q
  ∧ shutdownRequested (Remove q seq) = shutdownRequested q.
Proof.
  split; [reflexivity|]. split; [|split; reflexivity].
  intros k. apply Remove_lookup.
Qed.

(** C7 as stated fails: with one ready request at key 1 and the cursor at
    1, [Remove(1)] moves the cursor to 2 and the entry at key 1, which is
    below the new cursor, stays. *)
Lemma Remove_keeps_entry_at_seq :
  nextToPlay (Remove one_ready 1) = 2
  ∧ pendingItems (Remove one_ready 1) !! 1 = Some (item_ready 1)
  ∧ ¬ Remove_prunes_below_new_cursor one_ready 1.
Proof.
  assert (Hn : nextToPlay (Remove one_ready 1) = 2) by reflexivity.
  assert (Hl : pendingItems (Remove one_ready 1) !! 1 = Some (item_ready 1)).
  { rewrite Remove_lookup. rewrite decide_False by lia. apply one_ready_lookup. }
  split; [exact Hn|]. split; [exact Hl|].
  intros [_ Hc]. specialize (Hc 1). rewrite Hn, Hl in Hc.
  rewrite decide_True in Hc by lia. discriminate.
Qed.
Lemma number_from_1_snoc (texts : list wstring) (txt : wstring) :
  number_from_1 (texts ++ [txt])
  = number_from_1 texts ++ [(Z.of_nat (length texts) + 1, txt)].
Proof.
  unfold number_from_1. rewrite imap_app. simpl.
  by rewrite Nat.add_0_r.
Qed.

Lemma number_from_1_lookup (texts : list wstring) (i : nat) (txt : wstring) :
  texts !! i = Some txt -> number_from_1 texts !! i = Some (Z.of_nat i + 1, txt).
Proof. intros H. unfold number_from_1. by rewrite list_lookup_imap, H. Qed.

Lemma number_from_1_length (texts : list wstring) :
  length (number_from_1 texts) = length texts.
Proof. apply length_imap. Qed.

Lemma Inv_boot : Inv ghost0 boot.
Proof.
  constructor; simpl.
  - unfold UINT64_MOD. lia.
  - reflexivity.
  - lia.
  - reflexivity.
  - intros k it Hk. by rewrite lookup_empty in Hk.
  - intros k Hk. lia.
  - reflexivity.
  - intros k Hk. by apply not_elem_of_empty in Hk.
  - intros k it Hk. by apply not_elem_of_empty in Hk.
  - reflexivity.
Qed.

Lemma Inv_AddRequest g s txt :
  Inv g s ->
  Z.of_nat (length (g_texts g ++ [txt])) < UINT64_MOD - 1 ->
  Inv (gstep g (EvAddRequest txt)) (step s (EvAddRequest txt)).
Proof.
  intros [Hb Hn Hp Hc Hpend Hpres Hret Hrr Hrdy Hsh] Hb'.
  rewrite length_app in Hb'. simpl in Hb'.
  assert (Hfresh : pendingItems (queue s) !! nextSequenceNumber (queue s) = None).
  { destruct (pendingItems (queue s) !! nextSequenceNumber (queue s)) as [it|] eqn:E; [|done].
    apply Hpend in E. lia. }
  constructor; simpl; rewrite ?length_app; simpl.
  - lia.
  - rewrite Hn. rewrite wrap64_small; unfold UINT64_MOD in *; lia.
  - lia.
  - exact Hc.
  - intros k it Hk.
    destruct (decide (k = nextSequenceNumber (queue s))) as [-> | Hne].
    + rewrite lookup_insert_eq in Hk. inversion Hk; subst it; clear Hk. simpl.
      rewrite Hn. split; [lia|]. split; [done|].
      replace (Z.to_nat (Z.of_nat (length (g_texts g)) + 1 - 1)) with (length (g_texts g)) by lia.
      by rewrite lookup_app_r, Nat.sub_diag.
    + rewrite lookup_insert_ne in Hk by done.
      destruct (Hpend _ _ Hk) as (Hr & Hs & Ht).
      split; [lia|]. split; [done|].
      rewrite lookup_app_l; [done|]. lia.
  - intros k Hk.
    destruct (decide (k = nextSequenceNumber (queue s))) as [-> | Hne].
    + rewrite lookup_insert_eq. eauto.
    + rewrite lookup_insert_ne by done. apply Hpres. lia.
  - rewrite number_from_1_snoc, take_app_le; [done|].
    rewrite number_from_1_length. lia.
  - intros k Hk. apply Hrr in Hk. lia.
  - intros k it Hk Hl.
    destruct (decide (k = nextSequenceNumber (queue s))) as [-> | Hne].
    + apply Hrr in Hk. lia.
    + rewrite lookup_insert_ne in Hl by done. eauto.
  - exact Hsh.
Qed.

Lemma MarkReady_marks seq audio path : marks (fun q => MarkReady q seq audio path) seq.
Proof.
  intros q. unfold MarkReady.
  destruct (pendingItems q !! seq) as [it|] eqn:E; simpl.
  - repeat split; try done.
    + intros k Hk. by rewrite lookup_insert_ne.
    + eexists. rewrite lookup_insert_eq. by repeat split.
  - rewrite E. by repeat split.
Qed.

Lemma MarkFailed_marks seq : marks (fun q => MarkFailed q seq) seq.
Proof.
  intros q. unfold MarkFailed.
  destruct (pendingItems q !! seq) as [it|] eqn:E; simpl.
  - repeat split; try done.
    + intros k Hk. by rewrite lookup_insert_ne.
    + eexists. rewrite lookup_insert_eq. by repeat split.
  - rewrite E. by repeat split.
Qed.

Lemma Inv_mark g s f seq :
  marks f seq -> Inv g s -> Inv (mark seq g) (set_queue (f (queue s)) s).
Proof.
  intros Hm [Hb Hn Hp Hc Hpend Hpres Hret Hrr Hrdy Hsh].
  destruct (Hm (queue s)) as (Mn & Mc & Ms & Mo & Mk).
  assert (Hsame : forall k it, pendingItems (f (queue s)) !! k = Some it ->
            exists it0, pendingItems (queue s) !! k = Some it0
                        ∧ sequenceNumber it = sequenceNumber it0 ∧ text it = text it0
                        ∧ (isReady it0 = true -> isReady it = true)
                        ∧ (k = seq -> isReady it = true)).
  { intros k it Hk. destruct (decide (k = seq)) as [-> | Hne].
    - destruct (pendingItems (queue s) !! seq) as [it0|] eqn:E.
      + destruct Mk as (it' & Hl & Hs' & Ht' & Hr'). rewrite Hk in Hl.
        inversion Hl; subst it'. exists it0. by repeat split.
      + congruence.
    - rewrite Mo in Hk by done. exists it. by repeat split. }
  constructor; simpl.
  - exact Hb.
  - by rewrite Mn.
  - exact Hp.
  - rewrite Mc. exact Hc.
  - intros k it Hk. destruct (Hsame _ _ Hk) as (it0 & Hl0 & Hs0 & Ht0 & _).
    destruct (Hpend _ _ Hl0) as (Hr & Hs1 & Ht1). rewrite Hs0, Ht0. split; [lia|]. by split.
  - intros k Hk. destruct (decide (k = seq)) as [-> | Hne].
    + destruct (Hpres _ Hk) as [it0 E]. rewrite E in Mk.
      destruct Mk as (it' & Hl & _). eauto.
    + rewrite Mo by done. by apply Hpres.
  - exact Hret.
  - intros k. case_bool_decide; [|apply Hrr].
    intros [Hk | Hk]%elem_of_union; [|by apply Hrr].
    apply elem_of_singleton in Hk. lia.
  - intros k it Hk Hl. destruct (Hsame _ _ Hl) as (it0 & Hl0 & _ & _ & Hkeep & Hseq).
    destruct (decide (k = seq)) as [-> | Hne]; [by apply Hseq|].
    apply Hkeep. apply (Hrdy k); [|done].
    revert Hk. case_bool_decide; [|done].
    intros [Hk | Hk]%elem_of_union; [|done].
    apply elem_of_singleton in Hk. done.
  - by rewrite Ms.
Qed.

Lemma Inv_Shutdown g s :
  Inv g s -> Inv (gstep g EvShutdown) (step s EvShutdown).
Proof.
  intros [Hb Hn Hp Hc Hpend Hpres Hret Hrr Hrdy Hsh].
  constructor; simpl; done.
Qed.

Lemma Inv_WaitForNextReady g s :
  Inv g s -> Inv g (step s EvWaitForNextReady).
Proof.
  intros HI. pose proof HI as [Hb Hn Hp Hc Hpend Hpres Hret Hrr Hrdy Hsh].
  unfold step. destruct (holding s) as [held|] eqn:Hh; [done|].
  unfold WaitForNextReady.
  destruct (shutdownRequested (queue s)) eqn:Esh; [done|].
  destruct (pendingItems (queue s) !! nextToPlay (queue s)) as [it|] eqn:E; [|done].
  destruct (isReady it) eqn:Er; [|done].
  destruct (Hpend _ _ E) as (Hr & Hs & Ht).
  rewrite Hc in Hr, Hs, Ht.
  replace (Z.to_nat (Z.of_nat (length (returned s)) + 1 - 1)) with (length (returned s)) in Ht by lia.
  constructor; simpl; rewrite ?length_app; simpl.
  - exact Hb.
  - exact Hn.
  - lia.
  - rewrite Hc. split; [lia|]. rewrite Hs. lia.
  - intros k it' Hk.
    destruct (decide (k = nextToPlay (queue s))) as [-> | Hne].
    + by rewrite lookup_delete_eq in Hk.
    + rewrite lookup_delete_ne in Hk by done.
      destruct (Hpend _ _ Hk) as (Hr' & Hs' & Ht'). split; [lia|done].
  - intros k Hk. rewrite lookup_delete_ne by lia. apply Hpres. lia.
  - rewrite map_app, Hret. simpl.
    replace (length (returned s) + 1)%nat with (S (length (returned s))) by lia.
    erewrite take_S_r; [reflexivity|].
    unfold key_text. rewrite Hs.
    by apply number_from_1_lookup.
  - exact Hrr.
  - intros k it' Hk Hl.
    destruct (decide (k = nextToPlay (queue s))) as [-> | Hne].
    + by rewrite lookup_delete_eq in Hl.
    + rewrite lookup_delete_ne in Hl by done. eauto.
  - by rewrite Esh.
Qed.

Lemma Inv_Remove g s :
  Inv g s -> Inv g (step s EvRemove).
Proof.
  intros HI. pose proof HI as [Hb Hn Hp Hc Hpend Hpres Hret Hrr Hrdy Hsh].
  unfold step. destruct (holding s) as [held|] eqn:Hh; [|done].
  destruct Hc as (Hc & Hs & Hpos).
  assert (Hkeep : forall k, pendingItems (Remove (queue s) (sequenceNumber held)) !! k
                            = pendingItems (queue s) !! k).
  { intros k. rewrite Remove_lookup. case_decide as Hlt; [|done].
    destruct (pendingItems (queue s) !! k) as [it|] eqn:E; [|done].
    apply Hpend in E. lia. }
  constructor; simpl.
  - exact Hb.
  - exact Hn.
  - exact Hp.
  - rewrite Hs, Hc, Z.eqb_refl. rewrite wrap64_small; unfold UINT64_MOD in *; lia.
  - intros k it Hk. change (pendingItems (Remove (queue s) (sequenceNumber held)) !! k = Some it) in Hk.
    rewrite Hkeep in Hk. eauto.
  - intros k Hk. change (is_Some (pendingItems (Remove (queue s) (sequenceNumber held)) !! k)).
    rewrite Hkeep. eauto.
  - exact Hret.
  - exact Hrr.
  - intros k it Hk Hl. change (pendingItems (Remove (queue s) (sequenceNumber held)) !! k = Some it) in Hl.
    rewrite Hkeep in Hl. eauto.
  - exact Hsh.
Qed.

Lemma Inv_step g s ev :
  Inv g s ->
  Z.of_nat (length (g_texts (gstep g ev))) < UINT64_MOD - 1 ->
  Inv (gstep g ev) (step s ev).
Proof.
  intros HI Hb. destruct ev as [txt | seq audio path | seq | | |].
  - by apply Inv_AddRequest.
  - apply (Inv_mark g s (fun q => MarkReady q seq audio path)); [apply MarkReady_marks|done].
  - apply (Inv_mark g s (fun q => MarkFailed q seq)); [apply MarkFailed_marks|done].
  - by apply Inv_Shutdown.
  - by apply Inv_WaitForNextReady.
  - by apply Inv_Remove.
Qed.


Lemma gstep_texts_mono g ev :
  (length (g_texts g) <= length (g_texts (gstep g ev)))%nat.
Proof. destruct ev; simpl; rewrite ?length_app; simpl; lia. Qed.

Lemma grun_texts_mono tr g :
  (length (g_texts g) <= length (g_texts (grun g tr)))%nat.
Proof.
  revert g. induction tr as [|ev tr IH]; intros g; simpl; [lia|].
  etrans; [apply (gstep_texts_mono g ev)|apply IH].
Qed.

Lemma grun_texts tr g : g_texts (grun g tr) = g_texts g ++ added_texts tr.
Proof.
  revert g. induction tr as [|ev tr IH]; intros g; simpl.
  - by rewrite app_nil_r.
  - rewrite IH. destruct ev; simpl; try done. by rewrite <- app_assoc.
Qed.

Lemma Inv_run tr g s :
  Inv g s ->
  Z.of_nat (length (g_texts (grun g tr))) < UINT64_MOD - 1 ->
  Inv (grun g tr) (run s tr).
Proof.
  revert g s. induction tr as [|ev tr IH]; intros g s HI Hb; simpl; [done|].
  apply IH; [|done]. apply Inv_step; [done|].
  pose proof (grun_texts_mono tr (gstep g ev)). simpl in Hb. lia.
Qed.

Lemma Inv_reachable tr :
  Z.of_nat (count_adds tr) < UINT64_MOD - 1 ->
  Inv (grun ghost0 tr) (run boot tr).
Proof.
  intros Hb. apply Inv_run; [apply Inv_boot|].
  by rewrite grun_texts.
Qed.

Lemma Inv_coherent g s : Inv g s -> holding s = None -> coherent (queue s).
Proof.
  intros [Hb Hn Hp Hc Hpend Hpres Hret Hrr Hrdy Hsh] Hh k it Hk.
  rewrite Hh in Hc. destruct (Hpend _ _ Hk) as (Hr & Hs & _). split; [done|lia].
Qed.

(** One pass of the coordinator's loop brings the backlog down by one. *)
Lemma round_backlog g s :
  Inv g s -> g_shutdown g = false ->
  (forall k, 1 <= k <= Z.of_nat (length (g_texts g)) -> k ∈ g_resolved g) ->
  backlog g (run s [EvWaitForNextReady; EvRemove]) = (backlog g s - 1)%nat.
Proof.
  intros HI Hns Hall. pose proof HI as [Hb Hn Hp Hc Hpend Hpres Hret Hrr Hrdy Hsh].
  unfold run, backlog. simpl.
  destruct (holding s) as [held|] eqn:Hh; simpl.
  - rewrite Hh. simpl. lia.
  - unfold WaitForNextReady. rewrite Hsh, Hns.
    destruct (pendingItems (queue s) !! nextToPlay (queue s)) as [it|] eqn:E.
    + destruct (Hpend _ _ E) as (Hr & _).
      assert (Hin : nextToPlay (queue s) ∈ g_resolved g) by (apply Hall; lia).
      rewrite Hc in Hr. rewrite (Hrdy _ _ Hin E). simpl.
      rewrite length_app. simpl. lia.
    + simpl. rewrite ?Hh. simpl. rewrite ?Hh.
      destruct (decide (length (returned s) < length (g_texts g))%nat) as [Hlt|Hge]; [|lia].
      destruct (Hpres (nextToPlay (queue s)) ltac:(lia)) as [it Hit]. congruence.
Qed.

Lemma coordinator_rounds_S m :
  coordinator_rounds (S m) = [EvWaitForNextReady; EvRemove] ++ coordinator_rounds m.
Proof. reflexivity. Qed.

Lemma rounds_backlog g m s :
  Inv g s -> g_shutdown g = false ->
  (forall k, 1 <= k <= Z.of_nat (length (g_texts g)) -> k ∈ g_resolved g) ->
  Inv g (run s (coordinator_rounds m))
  ∧ backlog g (run s (coordinator_rounds m)) = (backlog g s - m)%nat.
Proof.
  intros HI Hns Hall. revert s HI.
  induction m as [|m IH]; intros s HI.
  - simpl. split; [done|lia].
  - rewrite coordinator_rounds_S. unfold run. rewrite fold_left_app.
    fold (run s [EvWaitForNextReady; EvRemove]).
    fold (run (run s [EvWaitForNextReady; EvRemove]) (coordinator_rounds m)).
    assert (HI' : Inv g (run s [EvWaitForNextReady; EvRemove])).
    { unfold run. simpl. apply Inv_Remove, Inv_WaitForNextReady, HI. }
    destruct (IH _ HI') as [HI'' Hm]. split; [done|].
    rewrite Hm, (round_backlog g s HI Hns Hall). lia.
Qed.

Lemma backlog_le g s : Inv g s -> (backlog g s <= length (g_texts g))%nat.
Proof.
  intros [Hb Hn Hp Hc Hpend Hpres Hret Hrr Hrdy Hsh]. unfold backlog.
  destruct (holding s); [|lia]. destruct Hc as (_ & _ & Hpos). lia.
Qed.

Lemma backlog_0 g s :
  Inv g s -> backlog g s = 0%nat ->
  map key_text (returned s) = number_from_1 (g_texts g).
Proof.
  intros HI H0. pose proof HI as [Hb Hn Hp Hc Hpend Hpres Hret Hrr Hrdy Hsh].
  rewrite Hret. apply take_ge. rewrite number_from_1_length.
  unfold backlog in H0. lia.
Qed.

Lemma all_resolved_spec tr :
  all_resolved tr = true ->
  g_shutdown (grun ghost0 tr) = false
  ∧ forall k, 1 <= k <= Z.of_nat (length (g_texts (grun ghost0 tr))) ->
              k ∈ g_resolved (grun ghost0 tr).
Proof.
  unfold all_resolved. intros [Hs Hf]%andb_true_iff.
  split; [by apply negb_true_iff|].
  intros k Hk.
  assert (Hin : k ∈ seqZ 1 (Z.of_nat (length (g_texts (grun ghost0 tr))))).
  { apply elem_of_seqZ. lia. }
  apply Is_true_true in Hf. rewrite forallb_True, Forall_forall in Hf.
  specialize (Hf _ Hin). by apply bool_decide_unpack in Hf.
Qed.

(** C1. From the constructed buffer, under any interleaving of
    [AddRequest], [MarkReady], [MarkFailed] and [Shutdown] calls with the
    coordinator's [WaitForNextReady] and [Remove] calls (fewer than 2^64 - 1
    requests, so that no sequence number wraps), the items
    [WaitForNextReady] has returned are, in order, the first requests of the
    submission order, each with its own sequence number and text: none is
    skipped or returned twice.  When every request has been marked ready or
    failed after its [AddRequest] and [Shutdown] was not called, as many
    further coordinator passes as there were requests return all of them:
    the returned sequence is the submission order, whatever the order of
    the marks. *)
Theorem playback_order_is_submission_order (tr : list event) :
  Z.of_nat (count_adds tr) < UINT64_MOD - 1 ->
  map key_text (returned (run boot tr))
  = take (length (returned (run boot tr))) (submissions tr)
  ∧ (all_resolved tr = true ->
     forall m, (count_adds tr <= m)%nat ->
       map key_text (returned (run (run boot tr) (coordinator_rounds m)))
       = submissions tr).
Proof.
  intros Hb. pose proof (Inv_reachable tr Hb) as HI.
  assert (Htx : g_texts (grun ghost0 tr) = added_texts tr) by apply grun_texts.
  split.
  - rewrite (inv_returned _ _ HI), Htx. reflexivity.
  - intros Hres m Hm. apply all_resolved_spec in Hres as [Hns Hall].
    destruct (rounds_backlog _ m _ HI Hns Hall) as [HI' Hbl].
    pose proof (backlog_le _ _ HI) as Hle. rewrite Htx in Hle. fold (count_adds tr) in Hle.
    rewrite (backlog_0 _ _ HI'), Htx; [reflexivity|]. lia.
Qed.


Lemma WaitForNextReady_inv (q : t) item q' :
  WaitForNextReady q = WaitItem item q' ->
  shutdownRequested q = false
  ∧ pendingItems q !! nextToPlay q = Some item
  ∧ isReady item = true
  ∧ q' = set_pending (delete (nextToPlay q) (pendingItems q)) q.
Proof.
  unfold WaitForNextReady.
  destruct (shutdownRequested q); [done|].
  destruct (pendingItems q !! nextToPlay q) as [it|]; [|done].
  destruct (isReady it) eqn:Er; [|done].
  intros H. inversion H; subst. done.
Qed.

Lemma MarkReady_absent (q : t) seq audio path :
  pendingItems q !! seq = None -> MarkReady q seq audio path = q.
Proof. intros H. unfold MarkReady. by rewrite H. Qed.

Lemma MarkFailed_absent (q : t) seq :
  pendingItems q !! seq = None -> MarkFailed q seq = q.
Proof. intros H. unfold MarkFailed. by rewrite H. Qed.

Lemma Remove_no_stale (q : t) seq :
  (forall k it, pendingItems q !! k = Some it -> seq <= k) ->
  pendingItems (Remove q seq) = pendingItems q.
Proof.
  intros H. apply map_eq. intros k. rewrite Remove_lookup.
  case_decide as Hlt; [|done].
  destruct (pendingItems q !! k) as [it|] eqn:E; [|done].
  apply H in E. lia.
Qed.

(** C10. In every state the threads reach (fewer than 2^64 - 1 requests),
    when [WaitForNextReady] returns an item it is the entry at the cursor,
    and the state it leaves has that entry erased: a [MarkReady] or
    [MarkFailed] for the item's sequence number then changes nothing, and
    the following [Remove] for it keeps the pending map and the sequence
    counter as they are and moves the cursor one up. *)
Theorem WaitForNextReady_hands_out_erased_entry (tr : list event) item q' :
  Z.of_nat (count_adds tr) < UINT64_MOD - 1 ->
  WaitForNextReady (queue (run boot tr)) = WaitItem item q' ->
  sequenceNumber item = nextToPlay (queue (run boot tr))
  ∧ pendingItems q' = delete (sequenceNumber item) (pendingItems (queue (run boot tr)))
  ∧ pendingItems q' !! sequenceNumber item = None
  ∧ (forall audio path, MarkReady q' (sequenceNumber item) audio path = q')
  ∧ MarkFailed q' (sequenceNumber item) = q'
  ∧ pendingItems (Remove q' (sequenceNumber item)) = pendingItems q'
  ∧ nextToPlay (Remove q' (sequenceNumber item)) = sequenceNumber item + 1
  ∧ nextSequenceNumber (Remove q' (sequenceNumber item)) = nextSequenceNumber q'.
Proof.
  intros Hb Hw. pose proof (Inv_reachable tr Hb) as HI.
  set (s := run boot tr) in *.
  destruct (WaitForNextReady_inv _ _ _ Hw) as (Hns & Hl & Hr & ->).
  pose proof HI as [Hb' Hn Hp Hc Hpend Hpres Hret Hrr Hrdy Hsh].
  destruct (Hpend _ _ Hl) as (Hrange & Hseq & _).
  assert (Hgone : pendingItems (set_pending (delete (nextToPlay (queue s)) (pendingItems (queue s))) (queue s))
                    !! sequenceNumber item = None).
  { simpl. rewrite Hseq. apply lookup_delete_eq. }
  split; [done|]. split; [by rewrite Hseq|]. split; [done|].
  split; [intros; by apply MarkReady_absent|].
  split; [by apply MarkFailed_absent|].
  split.
  { apply Remove_no_stale. simpl. intros k it Hk.
    rewrite Hseq in *.
    destruct (decide (k = nextToPlay (queue s))) as [-> | Hne]; [lia|].
    rewrite lookup_delete_ne in Hk by done.
    destruct (Hpend _ _ Hk) as (Hr' & _).
    destruct (holding s); [destruct Hc as (Hc & _)|]; lia. }
  split; [|done].
  simpl. rewrite Hseq, Z.eqb_refl. apply wrap64_small.
  unfold UINT64_MOD in *. lia.
Qed.

(** C1 on the example of the specification. *)
Lemma playback_order_abc :
  Z.of_nat (count_adds abc_trace) < UINT64_MOD - 1
  ∧ all_resolved abc_trace = true
  ∧ map key_text (returned (run (run boot abc_trace) (coordinator_rounds 3)))
    = [(1, [65]); (2, [66]); (3, [67])].
Proof.
  assert (Hb : Z.of_nat (count_adds abc_trace) < UINT64_MOD - 1) by (vm_compute; reflexivity).
  assert (Hr : all_resolved abc_trace = true) by (vm_compute; reflexivity).
  split; [exact Hb|]. split; [exact Hr|].
  apply (proj2 (playback_order_is_submission_order abc_trace Hb) Hr 3%nat).
  vm_compute. lia.
Defined.

(** C10 on the same example: the first item handed out. *)
Lemma WaitForNextReady_hands_out_abc :
  let q := queue (run boot abc_trace) in
  let item := {| sequenceNumber := 1; text := [65]; audioData := [10];
                 cachePath := EmptyString; isReady := true; failed := false |} in
  let q' := set_pending (delete 1 (pendingItems q)) q in
  WaitForNextReady q = WaitItem item q'
  ∧ pendingItems q' !! 1 = None
  ∧ MarkFailed q' 1 = q'
  ∧ nextToPlay (Remove q' 1) = 2.
Proof.
  intros q item q'.
  assert (Hw : WaitForNextReady q = WaitItem item q') by (vm_compute; reflexivity).
  assert (Hb : Z.of_nat (count_adds abc_trace) < UINT64_MOD - 1) by (vm_compute; reflexivity).
  pose proof (WaitForNextReady_hands_out_erased_entry abc_trace item q' Hb Hw)
    as (_ & _ & H1 & _ & H2 & _ & H3 & _).
  split; [exact Hw|]. split; [exact H1|]. split; [exact H2|exact H3].
Defined.

End QueueFacts.

(** ** The fetch worker pool *)

Section PoolFacts.
Import FetchThreadPool PoolSpec.
Context {Task : Type}.
Implicit Types (p : t Task) (s : sys Task) (task : Task).

Lemma start_tasks p : tasks (start p) = tasks p.
Proof. unfold start. by destruct (initialized p). Qed.

Lemma start_max p : maxPendingTasks (start p) = maxPendingTasks p.
Proof. unfold start. by destruct (initialized p). Qed.

Lemma Enqueue_full p task :
  maxPendingTasks p <= Z.of_nat (length (tasks p)) ->
  Enqueue p task = (false, start p).
Proof.
  intros H. unfold Enqueue. rewrite start_max, start_tasks.
  by rewrite (proj2 (Z.leb_le _ _) H).
Qed.

Lemma Enqueue_room p task :
  Z.of_nat (length (tasks p)) < maxPendingTasks p ->
  (Enqueue p task).1 = true
  ∧ tasks (Enqueue p task).2 = tasks p ++ [task]
  ∧ maxPendingTasks (Enqueue p task).2 = maxPendingTasks p.
Proof.
  intros H. unfold Enqueue. rewrite start_max, start_tasks.
  by rewrite (proj2 (Z.leb_gt _ _) H).
Qed.

Lemma pool_inv_step p0 s ev : pool_inv p0 s -> pool_inv p0 (step s ev).
Proof.
  intros (Hm & Hl). destruct ev as [task|]; unfold step.
  - destruct (Enqueue (pool s) task) as [ok p'] eqn:E.
    destruct (decide (maxPendingTasks (pool s) <= Z.of_nat (length (tasks (pool s))))) as [Hfull|Hroom].
    + rewrite Enqueue_full in E by done. inversion E; subst ok p'.
      unfold pool_inv; simpl. by rewrite start_max, start_tasks.
    + destruct (Enqueue_room (pool s) task ltac:(lia)) as (H1 & H2 & H3).
      rewrite E in H1, H2, H3. simpl in *. subst ok.
      unfold pool_inv; simpl. rewrite H2, H3, length_app. simpl.
      split; [done|lia].
  - unfold WorkerLoop. destruct (tasks (pool s)) as [|task rest] eqn:E.
    + destruct (stop (pool s)); unfold pool_inv; by rewrite E.
    + unfold pool_inv; simpl. simpl in Hl.
      split; [done|lia].
Qed.

Lemma pool_inv_run p0 tr s : pool_inv p0 s -> pool_inv p0 (run s tr).
Proof.
  revert s. induction tr as [|ev tr IH]; intros s H; simpl; [done|].
  apply IH. by apply pool_inv_step.
Qed.

Lemma pool_inv_boot p :
  Z.of_nat (length (tasks p)) <= maxPendingTasks p -> pool_inv p (boot p).
Proof. intros H. by unfold pool_inv, boot. Qed.

Lemma account_run p tr :
  executed (run (boot p) tr) ++ tasks (pool (run (boot p) tr))
  = tasks p ++ accepted (run (boot p) tr).
Proof.
  assert (H : forall s, executed s ++ tasks (pool s) = tasks p ++ accepted s ->
              executed (run s tr) ++ tasks (pool (run s tr)) = tasks p ++ accepted (run s tr)).
  { induction tr as [|ev tr IH]; intros s Hs; simpl; [done|].
    apply IH. destruct ev as [task|]; unfold step.
    - unfold Enqueue. destruct (_ <=? _); simpl; rewrite ?start_tasks; [done|].
      by rewrite !app_assoc, Hs.
    - unfold WorkerLoop. destruct (tasks (pool s)) as [|task rest] eqn:E.
      + destruct (stop (pool s)); by rewrite E.
      + simpl. by rewrite <- app_assoc. }
  apply H. simpl. by rewrite app_nil_r.
Qed.

(** C3. [Enqueue] on a queue that holds [maxPendingTasks] tasks or more
    returns [false] and leaves the queue as it is; below the bound it
    returns [true] and appends the task.  Under any sequence of [Enqueue]
    calls and worker passes the queue length stays within the bound it
    started within, and the tasks run so far followed by the queued ones
    are exactly the initial queue followed by the accepted tasks, in order:
    a rejected task is neither queued nor run.  On a full queue (bound > 0)
    a worker pass takes the front task and the next [Enqueue] is accepted.
    The global pool is bounded at 20. *)
Theorem Enqueue_backpressure p task (tr : list (event Task)) :
  (maxPendingTasks p <= Z.of_nat (length (tasks p)) ->
     (Enqueue p task).1 = false ∧ tasks (Enqueue p task).2 = tasks p)
  ∧ (Z.of_nat (length (tasks p)) < maxPendingTasks p ->
     (Enqueue p task).1 = true ∧ tasks (Enqueue p task).2 = tasks p ++ [task])
  ∧ (Z.of_nat (length (tasks p)) <= maxPendingTasks p ->
     Z.of_nat (length (tasks (pool (run (boot p) tr)))) <= maxPendingTasks p)
  ∧ executed (run (boot p) tr) ++ tasks (pool (run (boot p) tr))
    = tasks p ++ accepted (run (boot p) tr)
  ∧ (Z.of_nat (length (tasks p)) = maxPendingTasks p -> 0 < maxPendingTasks p ->
     exists first p', WorkerLoop p = WorkerRuns first p'
                      ∧ (Enqueue p' task).1 = true
                      ∧ tasks (Enqueue p' task).2 = tasks p' ++ [task])
  ∧ maxPendingTasks (@g_fetchThreadPool Task) = 20.
Proof.
  split.
  { intros H. rewrite Enqueue_full by done. simpl. by rewrite start_tasks. }
  split.
  { intros H. destruct (Enqueue_room p task H) as (H1 & H2 & _). done. }
  split.
  { intros H. destruct (pool_inv_run p tr _ (pool_inv_boot p H)) as (_ & Hl). done. }
  split; [apply account_run|].
  split; [|reflexivity].
  intros Hfull Hpos. unfold WorkerLoop.
  destruct (tasks p) as [|first rest] eqn:E; [simpl in Hfull; lia|].
  eexists _, _. split; [reflexivity|].
  match goal with |- (Enqueue ?p' _).1 = _ ∧ _ =>
    destruct (Enqueue_room p' task) as (H1 & H2 & _); [simpl in *; lia|] end.
  done.
Qed.

End PoolFacts.

Section PoolExample.
Import FetchThreadPool PoolSpec.

(** C3 on a full pool bounded at 2. *)
Lemma Enqueue_backpressure_full_pool :
  (Enqueue full_pool 3%nat).1 = false
  ∧ tasks (Enqueue full_pool 3%nat).2 = [1%nat; 2%nat]
  ∧ Z.of_nat (length (tasks (pool (run (boot full_pool) [EvEnqueue 3%nat; EvWorker; EvEnqueue 4%nat])))) <= 2
  ∧ exists first p', WorkerLoop full_pool = WorkerRuns first p'
                     ∧ (Enqueue p' 3%nat).1 = true
                     ∧ tasks (Enqueue p' 3%nat).2 = tasks p' ++ [3%nat].
Proof.
  pose proof (Enqueue_backpressure full_pool 3%nat [EvEnqueue 3%nat; EvWorker; EvEnqueue 4%nat])
    as (Ha & _ & Hc & _ & He & _).
  destruct Ha as [Ha1 Ha2]; [simpl; lia|].
  split; [exact Ha1|]. split; [exact Ha2|].
  split; [apply Hc; simpl; lia|].
  apply He; simpl; lia.
Defined.

End PoolExample.

(** ** The retry loop *)

Section FetchFacts.
Import TTSFetcher FetchSpec.
Implicit Types (net : Z -> AttemptOutcome).

Lemma attempts_pass k : attempts (pass k) = [k].
Proof. unfold pass. by destruct (0 <? k). Qed.

Lemma attempts_app e1 e2 : attempts (e1 ++ e2) = attempts e1 ++ attempts e2.
Proof. apply omap_app. Qed.

Lemma pass_split k rest :
  (if 0 <? k then [Sleep (backoff k)] else []) ++ Attempt k :: rest = pass k ++ rest.
Proof. unfold pass. by destruct (0 <? k). Qed.

Lemma pass_last k :
  (if 0 <? k then [Sleep (backoff k)] else []) ++ [Attempt k] = pass k.
Proof. unfold pass. by destruct (0 <? k). Qed.

(** The shape of every run: the passes made are consecutive from the
    first one, at most [remaining] many, each with its own sleep. *)
Lemma retry_loop_shape net remaining a :
  exists n : nat, (n <= remaining)%nat
    ∧ (retry_loop net remaining a).2 = flat_map pass (seqZ a (Z.of_nat n)).
Proof.
  revert a. induction remaining as [|r IH]; intros a.
  - exists 0%nat. split; [lia|reflexivity].
  - destruct (IH (a + 1)) as (n & Hn & Hr).
    assert (Hmore : pass a ++ (retry_loop net r (a + 1)).2
                    = flat_map pass (seqZ a (Z.of_nat (S n)))).
    { rewrite Hr. replace (Z.of_nat (S n)) with (Z.succ (Z.of_nat n)) by lia.
      rewrite (seqZ_cons a) by lia. simpl.
      replace (Z.pred (Z.succ (Z.of_nat n))) with (Z.of_nat n) by lia.
      by replace (Z.succ a) with (a + 1) by lia. }
    assert (Hone : pass a = flat_map pass (seqZ a (Z.of_nat 1))).
    { simpl. by rewrite app_nil_r. }
    simpl. destruct (net a) as [| | | | |c body];
      try (exists (S n); split; [lia|]; simpl; by rewrite pass_split).
    destruct (c =? 200).
    { exists 1%nat. split; [lia|]. simpl snd. by rewrite pass_last. }
    destruct ((400 <=? c) && (c <? 500)).
    { exists 1%nat. split; [lia|]. simpl snd. by rewrite pass_last. }
    exists (S n). split; [lia|]. simpl snd. by rewrite pass_split.
Qed.

Lemma attempts_passes l : attempts (flat_map pass l) = l.
Proof.
  induction l as [|k l IH]; [done|].
  simpl. by rewrite attempts_app, attempts_pass, IH.
Qed.

(** A client error at pass [k], reached through retried passes, ends the
    loop there. *)
Lemma retry_loop_client_error net remaining a k :
  a <= k < a + Z.of_nat remaining ->
  is_client_error (net k) = true ->
  (forall j, a <= j < k -> is_retried (net j) = true) ->
  retry_loop net remaining a = ([], flat_map pass (seqZ a (k - a + 1))).
Proof.
  revert a. induction remaining as [|r IH]; intros a Hk Hc Hre; [lia|].
  destruct (decide (a = k)) as [-> | Hne].
  - replace (k - k + 1) with 1 by lia.
    simpl. unfold is_client_error in Hc.
    destruct (net k) as [| | | | |c body]; try done.
    assert ((c =? 200) = false) as -> by lia.
    rewrite Hc. by rewrite pass_last, app_nil_r.
  - assert (Ha : is_retried (net a) = true) by (apply Hre; lia).
    assert (IHa := IH (a + 1) ltac:(lia) Hc ltac:(intros; apply Hre; lia)).
    replace (k - a + 1) with (Z.succ (k - a)) by lia.
    rewrite (seqZ_cons a) by lia.
    replace (Z.pred (Z.succ (k - a))) with (k - (a + 1) + 1) by lia.
    replace (Z.succ a) with (a + 1) by lia.
    simpl. rewrite IHa. unfold is_retried, is_success, is_client_error in Ha.
    destruct (net a) as [| | | | |c body]; simpl; rewrite ?pass_split; try done.
    apply andb_true_iff in Ha as [H1 H2].
    apply negb_true_iff in H1, H2. by rewrite H1, H2.
Qed.

(** Passes that are all retried use up the budget. *)
Lemma retry_loop_exhausted net remaining a :
  (forall j, a <= j < a + Z.of_nat remaining -> is_retried (net j) = true) ->
  retry_loop net remaining a = ([], flat_map pass (seqZ a (Z.of_nat remaining))).
Proof.
  revert a. induction remaining as [|r IH]; intros a Hre; [done|].
  assert (Ha : is_retried (net a) = true) by (apply Hre; lia).
  assert (IHa := IH (a + 1) ltac:(intros; apply Hre; lia)).
  replace (Z.of_nat (S r)) with (Z.succ (Z.of_nat r)) by lia.
  rewrite (seqZ_cons a) by lia.
  replace (Z.pred (Z.succ (Z.of_nat r))) with (Z.of_nat r) by lia.
  replace (Z.succ a) with (a + 1) by lia.
  simpl. rewrite IHa. unfold is_retried, is_success, is_client_error in Ha.
  destruct (net a) as [| | | | |c body]; simpl; rewrite ?pass_split; try done.
  apply andb_true_iff in Ha as [H1 H2].
  apply negb_true_iff in H1, H2. by rewrite H1, H2.
Qed.

(** Without a status 200 the result is empty. *)
Lemma retry_loop_no_success net remaining a :
  (forall j, a <= j < a + Z.of_nat remaining -> is_success (net j) = false) ->
  (retry_loop net remaining a).1 = [].
Proof.
  revert a. induction remaining as [|r IH]; intros a Hs; [done|].
  assert (Ha : is_success (net a) = false) by (apply Hs; lia).
  assert (Hr : (retry_loop net r (a + 1)).1 = []) by (apply IH; intros; apply Hs; lia).
  simpl. unfold is_success in Ha.
  destruct (net a) as [| | | | |c body]; simpl; try done.
  rewrite Ha. by destruct ((400 <=? c) && (c <? 500)).
Qed.

Lemma retried_of_transport_or_server o :
  is_transport_failure o || is_server_error o = true -> is_retried o = true.
Proof.
  unfold is_retried, is_success, is_client_error. destruct o as [| | | | |c body]; try done.
  simpl. intros [H1 H2]%andb_true_iff.
  apply andb_true_iff. split; apply negb_true_iff; lia.
Qed.

Lemma backoff_exact k : 0 <= k <= 21 -> backoff k = 500 * 2 ^ k.
Proof.
  intros Hk. unfold backoff, wrap32, UINT32_MOD.
  rewrite Z.shiftl_1_l. apply Z.mod_small.
  assert (2 ^ k <= 2 ^ 21) by (apply Z.pow_le_mono_r; lia).
  assert (0 < 2 ^ k) by (apply Z.pow_pos_nonneg; lia).
  lia.
Qed.

(** C6. When pass [k] (within the budget) receives a 4xx status, every
    pass before it having ended in [continue], the loop ends there: the
    result is empty and exactly the passes 0..k were made, so a client
    error on the first pass means exactly one pass.  Transport failures and
    5xx responses end in [continue], and when every pass within the budget
    is one of them all [maxRetries] passes are made before the empty
    result. *)
Theorem client_error_ends_retry_loop net (maxRetries k : Z) :
  0 <= k < maxRetries ->
  is_client_error (net k) = true ->
  (forall j, 0 <= j < k -> is_retried (net j) = true) ->
  FetchTTSAudioWithRetry net maxRetries = ([], flat_map pass (seqZ 0 (k + 1)))
  ∧ attempts (FetchTTSAudioWithRetry net maxRetries).2 = seqZ 0 (k + 1)
  ∧ (k = 0 -> attempts (FetchTTSAudioWithRetry net maxRetries).2 = [0])
  ∧ (forall o, is_transport_failure o || is_server_error o = true -> is_retried o = true)
  ∧ forall net',
      (forall j, 0 <= j < maxRetries ->
         is_transport_failure (net' j) || is_server_error (net' j) = true) ->
      FetchTTSAudioWithRetry net' maxRetries = ([], flat_map pass (seqZ 0 maxRetries))
      ∧ attempts (FetchTTSAudioWithRetry net' maxRetries).2 = seqZ 0 maxRetries.
Proof.
  intros Hk Hc Hre.
  assert (E : FetchTTSAudioWithRetry net maxRetries = ([], flat_map pass (seqZ 0 (k + 1)))).
  { unfold FetchTTSAudioWithRetry.
    rewrite (retry_loop_client_error net _ 0 k); [by rewrite Z.sub_0_r|lia|done|done]. }
  split; [exact E|]. split; [rewrite E; apply attempts_passes|].
  split; [intros ->; by rewrite E|].
  split; [apply retried_of_transport_or_server|].
  intros net' Hall.
  assert (E' : FetchTTSAudioWithRetry net' maxRetries = ([], flat_map pass (seqZ 0 maxRetries))).
  { unfold FetchTTSAudioWithRetry. rewrite retry_loop_exhausted.
    - by rewrite Z2Nat.id by lia.
    - intros j Hj. apply retried_of_transport_or_server, Hall. lia. }
  split; [exact E'|]. rewrite E'. apply attempts_passes.
Qed.

(** C6 on a rejecting and on an unreachable service, budget 3. *)
Lemma client_error_on_first_attempt :
  is_client_error (rejecting 0) = true
  ∧ FetchTTSAudioWithRetry rejecting 3 = ([], [Attempt 0])
  ∧ FetchTTSAudioWithRetry unreachable 3
    = ([], [Attempt 0; Sleep 1000; Attempt 1; Sleep 2000; Attempt 2]).
Proof.
  assert (Hc : is_client_error (rejecting 0) = true) by reflexivity.
  destruct (client_error_ends_retry_loop rejecting 3 0 ltac:(lia) Hc ltac:(intros; lia))
    as (H1 & _ & _ & _ & H5).
  split; [exact Hc|]. split; [exact H1|].
  exact (proj1 (H5 unreachable (fun _ _ => eq_refl))).
Defined.

(** C5 as stated fails: three passes are separated by two sleeps, of
    1000 ms and 2000 ms, so the three listed delays of 500, 1000 and
    2000 ms are produced against no service at all. *)
Lemma listed_delays_not_produced :
  delays (FetchTTSAudio unreachable).2 = [1000; 2000]
  ∧ delays (FetchTTSAudio unreachable).2 ≠ listed_delays
  ∧ forall net, delays (FetchTTSAudio net).2 ≠ listed_delays.
Proof.
  split; [reflexivity|]. split; [discriminate|].
  intros net. unfold FetchTTSAudio, FetchTTSAudioWithRetry.
  destruct (retry_loop_shape net (Z.to_nat 3) 0) as (n & Hn & ->).
  change (Z.to_nat 3) with 3%nat in Hn.
  destruct n as [|[|[|[|n]]]]; [discriminate..|lia].
Qed.

(** C5, amended.  At most [maxRetries] passes are made; the effects are
    the passes made, each pass [k >= 1] preceded by one sleep of
    [500 * 2^k] ms and pass 0 by none; without a status 200 within the
    budget the result is empty; the default budget is 3, and against a
    service that never answers its sleeps are 1000 ms and 2000 ms. *)
Theorem FetchTTSAudio_budget_and_backoff net (maxRetries : Z) :
  (length (attempts (FetchTTSAudioWithRetry net maxRetries).2) <= Z.to_nat maxRetries)%nat
  ∧ (FetchTTSAudioWithRetry net maxRetries).2
    = flat_map pass (attempts (FetchTTSAudioWithRetry net maxRetries).2)
  ∧ (forall k, 1 <= k <= 21 -> pass k = [Sleep (500 * 2 ^ k); Attempt k])
  ∧ pass 0 = [Attempt 0]
  ∧ ((forall j, 0 <= j < maxRetries -> is_success (net j) = false) ->
     (FetchTTSAudioWithRetry net maxRetries).1 = [])
  ∧ FetchTTSAudio net = FetchTTSAudioWithRetry net 3
  ∧ delays (FetchTTSAudio unreachable).2 = [1000; 2000].
Proof.
  unfold FetchTTSAudioWithRetry.
  destruct (retry_loop_shape net (Z.to_nat maxRetries) 0) as (n & Hn & Hs).
  rewrite Hs, attempts_passes.
  split; [rewrite length_seqZ; lia|].
  split; [reflexivity|].
  split.
  { intros k Hk. unfold pass. rewrite (proj2 (Z.ltb_lt 0 k)) by lia.
    by rewrite backoff_exact by lia. }
  split; [reflexivity|].
  split.
  { intros Hf. apply retry_loop_no_success. intros j Hj. apply Hf. lia. }
  split; [reflexivity|]. reflexivity.
Qed.

(** C5 on an unreachable service. *)
Lemma FetchTTSAudio_unreachable :
  FetchTTSAudio unreachable
  = ([], [Attempt 0; Sleep 1000; Attempt 1; Sleep 2000; Attempt 2])
  ∧ pass 1 = [Sleep 1000; Attempt 1]
  ∧ pass 2 = [Sleep 2000; Attempt 2].
Proof.
  destruct (FetchTTSAudio_budget_and_backoff unreachable 3)
    as (_ & _ & Hp & _ & He & _).
  split.
  - apply injective_projections; [|reflexivity].
    apply He. intros j _. reflexivity.
  - split; [apply (Hp 1)|apply (Hp 2)]; lia.
Defined.

End FetchFacts.

(** ** Sanitization *)

Section SanitizeFacts.
Import Utils AudioCache PlaybackQueue TTSProcessor SanitizeSpec.

(** What [MarkFailed] does to a pending entry and to the others. *)
Lemma MarkFailed_present (q : PlaybackQueue.t) seq it :
  pendingItems q !! seq = Some it ->
  pendingItems (MarkFailed q seq) !! seq
  = Some {| sequenceNumber := sequenceNumber it; PlaybackQueue.text := PlaybackQueue.text it;
            audioData := audioData it; cachePath := cachePath it;
            isReady := true; failed := true |}
  ∧ forall k, k ≠ seq -> pendingItems (MarkFailed q seq) !! k = pendingItems q !! k.
Proof.
  intros H. unfold MarkFailed. rewrite H. simpl. split.
  - apply lookup_insert_eq.
  - intros k Hk. by rewrite lookup_insert_ne.
Qed.


Lemma erase_remove_chars ch text :
  list_ascii_of_string (erase_remove ch text)
  = filter (fun c => c ≠ ch) (list_ascii_of_string text).
Proof.
  induction text as [|c r IH]; [done|]. simpl.
  destruct (Ascii.eqb_spec c ch) as [-> | Hne].
  - rewrite filter_cons_False by (intros H; by apply H). done.
  - rewrite filter_cons_True by done. simpl. by rewrite IH.
Qed.

Lemma resize_down_chars n text :
  list_ascii_of_string (resize_down n text) = take n (list_ascii_of_string text).
Proof.
  revert text. induction n as [|n IH]; intros [|c r]; try done.
  simpl. by rewrite IH.
Qed.

Lemma length_chars text : length (list_ascii_of_string text) = String.length text.
Proof. induction text as [|c r IH]; [done|]. simpl. by rewrite IH. Qed.

Lemma SanitizeText_text text :
  list_ascii_of_string (SanitizeText text).1.2
  = take MAX_LENGTH (filter (fun c => c ≠ Ascii.zero) (list_ascii_of_string text)).
Proof.
  unfold SanitizeText.
  destruct (MAX_LENGTH <? String.length (erase_remove Ascii.zero text))%nat eqn:E;
    cbn [fst snd].
  - by rewrite resize_down_chars, erase_remove_chars.
  - rewrite erase_remove_chars. symmetry. apply take_ge.
    apply Nat.ltb_ge in E. rewrite <- erase_remove_chars, length_chars. lia.
Qed.

Lemma SanitizeText_result text :
  (SanitizeText text).1.1 = negb (String.eqb (SanitizeText text).1.2 EmptyString).
Proof.
  unfold SanitizeText.
  by destruct (MAX_LENGTH <? String.length (erase_remove Ascii.zero text))%nat.
Qed.

Lemma SanitizeText_log text :
  (WarnInvalidUTF8 ∈ (SanitizeText text).2)
  <-> IsValidUTF8 (erase_remove Ascii.zero text) = false.
Proof.
  unfold SanitizeText.
  destruct (MAX_LENGTH <? String.length (erase_remove Ascii.zero text))%nat;
    cbn [fst snd]; rewrite elem_of_app;
    destruct (IsValidUTF8 (erase_remove Ascii.zero text)); split; intros H;
    try reflexivity; try discriminate H; try (left; apply list_elem_of_here);
    destruct H as [H | H];
    solve [ by apply elem_of_nil in H
          | apply list_elem_of_singleton in H; discriminate H ].
Qed.

(** C9. The text [SanitizeText] leaves is the input without its null
    bytes, cut to its first 5000 characters: it holds no null byte and is
    at most 5000 long.  The result is [false] exactly when that text is
    empty.  Invalid UTF-8 only adds a warning to the log.  When the cache
    misses and [SanitizeText] fails, the fetch task marks the request
    failed and the network log is what it was: no pass of the fetch
    procedure is made.  Marked failed means that the pending entry of the
    request ends with its [failed] and [isReady] flags set, its number
    and text kept, and every other entry as it was. *)
Theorem SanitizeText_spec (text : string) :
  let ok := (SanitizeText text).1.1 in
  let out := (SanitizeText text).1.2 in
  list_ascii_of_string out
  = take MAX_LENGTH (filter (fun c => c ≠ Ascii.zero) (list_ascii_of_string text))
  ∧ (Ascii.zero ∉ list_ascii_of_string out)
  ∧ (String.length out <= MAX_LENGTH)%nat
  ∧ MAX_LENGTH = 5000%nat
  ∧ (ok = false <-> out = EmptyString)
  ∧ ((WarnInvalidUTF8 ∈ (SanitizeText text).2)
     <-> IsValidUTF8 (erase_remove Ascii.zero text) = false)
  ∧ (forall cfg env w seq c1,
      AudioCache.Get (g_audioCache w) (os_get env) (format cfg) text (server cfg) (voice cfg)
      = Some (None, c1) ->
      ok = false ->
      FetchAndEnqueueForPlayback cfg env w text seq
      = Some {| g_audioCache := c1;
                g_playbackQueue := MarkFailed (g_playbackQueue w) seq;
                network := network w |})
  ∧ forall cfg env w seq c1 it,
      AudioCache.Get (g_audioCache w) (os_get env) (format cfg) text (server cfg) (voice cfg)
      = Some (None, c1) ->
      ok = false ->
      pendingItems (g_playbackQueue w) !! seq = Some it ->
      exists w' it',
        FetchAndEnqueueForPlayback cfg env w text seq = Some w'
        ∧ network w' = network w
        ∧ pendingItems (g_playbackQueue w') !! seq = Some it'
        ∧ failed it' = true ∧ isReady it' = true
        ∧ sequenceNumber it' = sequenceNumber it
        ∧ PlaybackQueue.text it' = PlaybackQueue.text it
        ∧ forall k, k ≠ seq ->
            pendingItems (g_playbackQueue w') !! k = pendingItems (g_playbackQueue w) !! k.
Proof.
  intros ok out.
  assert (Hout : list_ascii_of_string out
    = take MAX_LENGTH (filter (fun c => c ≠ Ascii.zero) (list_ascii_of_string text)))
    by apply SanitizeText_text.
  split; [exact Hout|]. split.
  { rewrite Hout. intros Hin. apply subseteq_take in Hin.
    apply list_elem_of_filter in Hin as [Hne _]. by apply Hne. }
  split.
  { rewrite <- length_chars, Hout, length_take. lia. }
  split; [reflexivity|].
  split.
  { unfold ok, out. rewrite SanitizeText_result, negb_false_iff. apply String.eqb_eq. }
  split; [apply SanitizeText_log|].
  assert (Hrun : forall cfg env w seq c1,
             AudioCache.Get (g_audioCache w) (os_get env) (format cfg) text (server cfg)
               (voice cfg) = Some (None, c1) ->
             ok = false ->
             FetchAndEnqueueForPlayback cfg env w text seq
             = Some {| g_audioCache := c1;
                       g_playbackQueue := MarkFailed (g_playbackQueue w) seq;
                       network := network w |}).
  { intros cfg env w seq c1 Hget Hok. unfold FetchAndEnqueueForPlayback.
    rewrite Hget. unfold ok in Hok.
    destruct (SanitizeText text) as [[ok' out'] log']. simpl in Hok. subst ok'. reflexivity. }
  split; [exact Hrun|].
  intros cfg env w seq c1 it Hget Hok Hit.
  destruct (MarkFailed_present (g_playbackQueue w) seq it Hit) as [Hl Hothers].
  eexists _, _. split; [by apply Hrun|]. simpl.
  split; [reflexivity|]. split; [exact Hl|]. by repeat split.
Qed.

(** A text that is not valid UTF-8 passes, with a warning. *)
Lemma SanitizeText_invalid_utf8_passes :
  SanitizeText invalid_utf8 = (true, invalid_utf8, [WarnInvalidUTF8]).
Proof. vm_compute. reflexivity. Qed.

(** C9 on the empty text. *)
Lemma SanitizeText_empty_text :
  (SanitizeText EmptyString).1.1 = false
  ∧ AudioCache.Get (g_audioCache fresh_world) (os_get answering_env) (format some_config)
      EmptyString (server some_config) (voice some_config)
    = Some (None, g_audioCache fresh_world)
  ∧ FetchAndEnqueueForPlayback some_config answering_env fresh_world EmptyString 1
    = Some {| g_audioCache := g_audioCache fresh_world;
              g_playbackQueue := MarkFailed (g_playbackQueue fresh_world) 1;
              network := [] |}
  ∧ exists w' it',
      FetchAndEnqueueForPlayback some_config answering_env fresh_world EmptyString 1 = Some w'
      ∧ pendingItems (g_playbackQueue w') !! 1 = Some it'
      ∧ failed it' = true ∧ isReady it' = true.
Proof.
  assert (Hok : (SanitizeText EmptyString).1.1 = false) by (vm_compute; reflexivity).
  assert (Hget : AudioCache.Get (g_audioCache fresh_world) (os_get answering_env)
                   (format some_config) EmptyString (server some_config) (voice some_config)
                 = Some (None, g_audioCache fresh_world)) by (vm_compute; reflexivity).
  assert (Hit : pendingItems (g_playbackQueue fresh_world) !! 1
                = Some {| sequenceNumber := 1; PlaybackQueue.text := []; audioData := [];
                          cachePath := EmptyString; isReady := false; failed := false |})
    by (vm_compute; reflexivity).
  split; [exact Hok|]. split; [exact Hget|].
  destruct (SanitizeText_spec EmptyString) as (_ & _ & _ & _ & _ & _ & H & H').
  split; [exact (H some_config answering_env fresh_world 1 _ Hget Hok)|].
  destruct (H' some_config answering_env fresh_world 1 _ _ Hget Hok Hit)
    as (w' & it' & E & _ & Hl & Hf & Hr & _).
  exists w', it'. by repeat split.
Defined.

End SanitizeFacts.

(** ** The cache *)

Section CacheFacts.
Import AudioCache CacheSpec.
Implicit Types (m : gmap string CacheEntry) (c : t).

(** The model of the hash provider on the test vectors of FIPS 180-4. *)
Lemma sha256_test_vectors :
  to_hex (Sha256.digest (Utils.bytes_of_string "abc"))
  = "ba7816bf8f01cfea414140de5dae2223b00361a396177a9cb410ff61f20015ad"
  ∧ to_hex (Sha256.digest (Utils.bytes_of_string EmptyString))
    = "e3b0c44298fc1c149afbf4c8996fb92427ae41e4649b934ca495991b7852b855"
  ∧ to_hex (Sha256.digest (Utils.bytes_of_string
              "abcdbcdecdefdefgefghfghighijhijkijkljklmklmnlmnomnopnopq"))
    = "248d6a61d20638b8e5c026930c3e6039a33ce45964ff2167f6ecedd419db06c1".
Proof. vm_compute. done. Qed.

(** With the bound 0 the first [Put] reaches [cache.erase(cache.end())]. *)
Lemma Put_zero_bound_undefined os fmt text server voice d fs :
  Put (create 0 fs) os fmt text server voice d = None.
Proof. reflexivity. Qed.

Lemma older_cases (a b : string * CacheEntry) :
  (older a b = a ∨ older a b = b)
  ∧ timestamp (older a b).2 <= timestamp a.2
  ∧ timestamp (older a b).2 <= timestamp b.2.
Proof.
  unfold older. destruct (timestamp b.2 <? timestamp a.2) eqn:E.
  - split; [by right|]. lia.
  - split; [by left|]. lia.
Qed.

(** The scan ends on an element of the list that no element undercuts. *)
Lemma older_fold (l : list (string * CacheEntry)) (x0 : string * CacheEntry) :
  fold_left older l x0 ∈ x0 :: l
  ∧ forall y, y ∈ x0 :: l -> timestamp (fold_left older l x0).2 <= timestamp y.2.
Proof.
  revert x0. induction l as [|x l IH]; intros x0; simpl.
  - split; [apply list_elem_of_here|].
    intros y Hy. apply list_elem_of_singleton in Hy as ->. lia.
  - destruct (IH (older x0 x)) as [Hin Hmin].
    destruct (older_cases x0 x) as (Hc & H0 & H1).
    split.
    + apply elem_of_cons in Hin as [Hin | Hin].
      * rewrite Hin. destruct Hc as [-> | ->].
        -- apply list_elem_of_here.
        -- apply list_elem_of_further, list_elem_of_here.
      * by do 2 apply list_elem_of_further.
    + intros y Hy.
      pose proof (Hmin (older x0 x) (list_elem_of_here _ _)) as Hself.
      apply elem_of_cons in Hy as [-> | Hy]; [lia|].
      apply elem_of_cons in Hy as [-> | Hy]; [lia|].
      apply Hmin. by apply list_elem_of_further.
Qed.

Lemma find_oldest_None m : find_oldest m = None <-> m = ∅.
Proof.
  unfold find_oldest. rewrite <- map_to_list_empty_iff.
  destruct (map_to_list m); split; done.
Qed.

Lemma find_oldest_Some m k e :
  find_oldest m = Some (k, e) ->
  m !! k = Some e ∧ forall k' e', m !! k' = Some e' -> timestamp e <= timestamp e'.
Proof.
  unfold find_oldest. destruct (map_to_list m) as [|first l] eqn:E; [done|].
  intros H. injection H as Hr.
  change (fold_left older (first :: l) first = (k, e)) in Hr.
  destruct (older_fold (first :: l) first) as [Hin Hmin]. rewrite Hr in Hin, Hmin.
  split.
  - apply elem_of_map_to_list. rewrite E.
    apply elem_of_cons in Hin as [Hin | Hin]; [|done].
    rewrite Hin. apply list_elem_of_here.
  - intros k' e' Hk'. apply elem_of_map_to_list in Hk'. rewrite E in Hk'.
    apply (Hmin (k', e')). by apply list_elem_of_further.
Qed.

Lemma evict_if_full_room m max :
  Z.of_nat (size m) < max -> evict_if_full m max = Some m.
Proof. intros H. unfold evict_if_full. by rewrite (proj2 (Z.leb_gt _ _) H). Qed.

Lemma evict_if_full_full m max m1 :
  max <= Z.of_nat (size m) -> evict_if_full m max = Some m1 ->
  exists k_old e_old,
    m !! k_old = Some e_old
    ∧ (forall k e, m !! k = Some e -> timestamp e_old <= timestamp e)
    ∧ m1 = delete k_old m.
Proof.
  intros H. unfold evict_if_full. rewrite (proj2 (Z.leb_le _ _) H).
  destruct (find_oldest m) as [[k e]|] eqn:E; [|done].
  intros Hm. inversion Hm; subst m1. simpl.
  destruct (find_oldest_Some _ _ _ E) as [Hl Hmin]. eauto.
Qed.

Lemma evict_if_full_defined m max :
  0 < max ∨ m ≠ ∅ -> is_Some (evict_if_full m max).
Proof.
  intros H. unfold evict_if_full. destruct (max <=? Z.of_nat (size m)) eqn:E; [|eauto].
  destruct (find_oldest m) as [o|] eqn:Eo; [eauto|].
  apply find_oldest_None in Eo. subst m. rewrite map_size_empty in E.
  apply Z.leb_le in E. destruct H as [H|H]; [simpl in E; lia|done].
Qed.

Lemma written_after_evict max key new m m1 :
  evict_if_full m max = Some m1 ->
  written_under_bound max key new m (<[key := new]> m1).
Proof.
  intros He. split; [|split].
  - intros Hroom. rewrite evict_if_full_room in He by done. by inversion He.
  - intros Hfull. destruct (evict_if_full_full _ _ _ Hfull He) as (k & e & Hl & Hmin & ->).
    exists k, e. repeat split; try done.
    case_decide as Hk; [subst; apply lookup_insert_eq|].
    rewrite lookup_insert_ne by done. apply lookup_delete_eq.
  - intros Hb.
    destruct (decide (Z.of_nat (size m) < max)) as [Hroom | Hfull].
    + rewrite evict_if_full_room in He by done. inversion He; subst m1.
      pose proof (map_size_insert key new m) as Hs.
      destruct (m !! key); simpl in Hs; lia.
    + assert (Hfull' : max <= Z.of_nat (size m)) by lia.
      destruct (evict_if_full_full _ _ _ Hfull' He) as (k & e & Hl & Hmin & ->).
      pose proof (map_size_insert key new (delete k m)) as Hs.
      pose proof (map_size_delete_Some k m (ltac:(eauto))) as Hd.
      assert (0 < size m)%nat.
      { destruct (decide (size m = 0%nat)) as [H0|]; [|lia].
        apply map_size_empty_iff in H0. subst m. by rewrite lookup_empty in Hl. }
      destruct (delete k m !! key); simpl in Hs; lia.
Qed.

Lemma Put_inv c os fmt text server voice d c' :
  Put c os fmt text server voice d = Some c' ->
  exists m1, evict_if_full (cache c) (maxSize c) = Some m1
    ∧ cache c' = <[GenerateCacheKey (bcrypt_ok os) text server voice := fresh d (clock os)]> m1
    ∧ maxSize c' = maxSize c.
Proof.
  unfold Put. destruct (evict_if_full (cache c) (maxSize c)) as [m1|]; [|done].
  intros H. inversion H; subst c'; clear H. by exists m1.
Qed.

(** C2, at the input where the code fails it and elsewhere.  [Put] is
    defined whenever the bound is positive or the tier is not empty, and
    [Get] with the same triple right after it (the hash provider behaving
    as it did for [Put]) reports a hit with exactly the bytes that were
    put.  On an empty tier with the bound 0, however, [Put] erases
    [cache.end()] and nothing follows; and that is the cache [SetupHooks]
    configures from a settings file with the line [max_cache_size = 0],
    which [LoadConfig] and [ValidateConfig] accept, whatever the triple
    and the bytes. *)
Theorem Put_then_Get c os os' fmt text server voice d :
  (0 < maxSize c ∨ cache c ≠ ∅ -> is_Some (Put c os fmt text server voice d))
  ∧ (forall c',
      Put c os fmt text server voice d = Some c' ->
      bcrypt_ok os' = bcrypt_ok os ->
      exists c'', Get c' os' fmt text server voice = Some (Some d, c'')
                  ∧ cache c'' !! GenerateCacheKey (bcrypt_ok os') text server voice
                    = Some (fresh d (clock os')))
  ∧ (maxSize c = 0 -> cache c = ∅ -> Put c os fmt text server voice d = None)
  ∧ exists cfg,
      Config.LoadConfig (Some Hooks.zero_bound_file) = Config.Loaded cfg
      ∧ Config.max_cache_size cfg = 0
      ∧ forall c0, cache c0 = ∅ ->
          Put (Hooks.configure_cache cfg c0) os fmt text server voice d = None.
Proof.
  assert (Hzero : forall c1, maxSize c1 = 0 -> cache c1 = ∅ ->
                             Put c1 os fmt text server voice d = None).
  { intros c1 Hm He. unfold Put, evict_if_full. by rewrite Hm, He. }
  split.
  { intros H. unfold Put.
    destruct (evict_if_full_defined (cache c) (maxSize c) H) as [m1 ->]. eauto. }
  split.
  { intros c' Hput Hok.
    destruct (Put_inv _ _ _ _ _ _ _ _ Hput) as (m1 & _ & Hc & _).
    unfold Get, Get_memory. rewrite Hok, Hc, lookup_insert_eq. simpl.
    eexists. split; [reflexivity|]. simpl. apply lookup_insert_eq. }
  split; [apply Hzero|].
  eexists. split; [vm_compute; reflexivity|]. split; [reflexivity|].
  intros c0 He. by apply Hzero.
Qed.

(** C2 on a fresh cache with the default bound, and on the same cache
    with the bound 0. *)
Lemma Put_then_Get_hello :
  (exists c' c'',
    Put (create 50 ∅) (os_at 1) "wav" "hello" "http://localhost:5050/v1" "onyx" [82; 73; 70; 70]
    = Some c'
    ∧ Get c' (os_at 2) "wav" "hello" "http://localhost:5050/v1" "onyx"
      = Some (Some [82; 73; 70; 70], c''))
  ∧ Put (SetMaxSize (create 50 ∅) 0) (os_at 1) "wav" "hello" "http://localhost:5050/v1" "onyx"
      [82; 73; 70; 70] = None.
Proof.
  destruct (Put_then_Get (create 50 ∅) (os_at 1) (os_at 2) "wav" "hello"
              "http://localhost:5050/v1" "onyx" [82; 73; 70; 70]) as (Hdef & Hrt & _).
  destruct (Put_then_Get (SetMaxSize (create 50 ∅) 0) (os_at 1) (os_at 2) "wav" "hello"
              "http://localhost:5050/v1" "onyx" [82; 73; 70; 70]) as (_ & _ & Hzero & _).
  split; [|apply Hzero; reflexivity].
  destruct Hdef as [c' Hc']; [left; simpl; lia|].
  destruct (Hrt c' Hc' eq_refl) as (c'' & Hg & _).
  exists c', c''. split; [exact Hc'|exact Hg].
Defined.

Lemma Get_disk_inv c os fmt key d c' :
  Get_disk c os fmt key = Some (Some d, c') ->
  LoadFromDisk c fmt key (read_ok os) = Some d
  ∧ exists m1, evict_if_full (cache c) (maxSize c) = Some m1
      ∧ c' = set_cache (<[key := fresh d (clock os)]> m1) c.
Proof.
  unfold Get_disk.
  destruct (LoadFromDisk c fmt key (read_ok os)) as [outData|]; [|done].
  destruct (evict_if_full (cache c) (maxSize c)) as [m1|]; [|done].
  intros H. inversion H; subst. eauto.
Qed.

Lemma Get_disk_miss c os fmt key c' :
  Get_disk c os fmt key = Some (None, c') -> c' = c.
Proof.
  unfold Get_disk.
  destruct (LoadFromDisk c fmt key (read_ok os)) as [outData|].
  - by destruct (evict_if_full (cache c) (maxSize c)).
  - intros H. by inversion H.
Qed.

Lemma Get_disk_bound c os fmt key r c' :
  Z.of_nat (size (cache c)) <= maxSize c ->
  Get_disk c os fmt key = Some (r, c') ->
  maxSize c' = maxSize c ∧ Z.of_nat (size (cache c')) <= maxSize c.
Proof.
  intros Hb H. destruct r as [d|].
  - destruct (Get_disk_inv _ _ _ _ _ _ H) as (_ & m1 & He & ->). simpl.
    split; [done|]. by apply (written_after_evict _ _ _ _ _ He).
  - by rewrite (Get_disk_miss _ _ _ _ _ H).
Qed.

Lemma Get_memory_inv c os key d c' :
  Get_memory c os key = Some (d, c') ->
  exists e, cache c !! key = Some e ∧ d = data e
            ∧ c' = set_cache (<[key := fresh (data e) (clock os)]> (cache c)) c.
Proof.
  unfold Get_memory. destruct (cache c !! key) as [e|]; [|done].
  intros H. inversion H; subst. eauto.
Qed.

Lemma apply_op_bound fmt o c c' :
  Z.of_nat (size (cache c)) <= maxSize c ->
  apply_op fmt c o = Some c' ->
  maxSize c' = maxSize c ∧ Z.of_nat (size (cache c')) <= maxSize c.
Proof.
  intros Hb E.
  destruct o as [os text server voice d | os text server voice | os key]; simpl in E.
  - destruct (Put_inv _ _ _ _ _ _ _ _ E) as (m1 & He & Hc & Hm).
    split; [done|]. rewrite Hc. by apply (written_after_evict _ _ _ _ _ He).
  - unfold Get in E.
    destruct (Get_memory c os _) as [[d c1]|] eqn:Em.
    + simpl in E. inversion E; subst c1.
      destruct (Get_memory_inv _ _ _ _ _ Em) as (e & Hl & _ & ->). simpl.
      split; [done|]. rewrite map_size_insert_Some by eauto. done.
    + destruct (Get_disk c os fmt _) as [[r c1]|] eqn:Ed; [|done].
      simpl in E. inversion E; subst c1. by apply (Get_disk_bound _ _ _ _ _ _ Hb Ed).
  - destruct (Get_disk c os fmt key) as [[r c1]|] eqn:Ed; [|done].
    simpl in E. inversion E; subst c1. by apply (Get_disk_bound _ _ _ _ _ _ Hb Ed).
Qed.

Lemma run_bound fmt ops c c' :
  Z.of_nat (size (cache c)) <= maxSize c ->
  run fmt c ops = Some c' ->
  maxSize c' = maxSize c ∧ Z.of_nat (size (cache c')) <= maxSize c.
Proof.
  revert c. induction ops as [|o ops IH]; intros c Hb; simpl.
  - intros H. by inversion H; subst.
  - destruct (apply_op fmt c o) as [c1|] eqn:E; [|done].
    intros Hrun.
    destruct (apply_op_bound _ _ _ _ Hb E) as [Hm1 Hb1].
    assert (Hb1' : Z.of_nat (size (cache c1)) <= maxSize c1) by lia.
    destruct (IH c1 Hb1' Hrun) as [Hm' Hb']. split; lia.
Qed.

(** C4, as the code has it.  [Put], and the promotion of a disk hit by
    [Get], write the key under the bound: while the tier holds fewer
    entries than [maxSize] nothing else changes; when it holds [maxSize]
    or more, one entry whose timestamp no other entry undercuts is erased
    first, whether or not the key was already present, and is afterwards
    absent unless it is the key being written (which it never is when
    [Get] found the key missing just before).  A memory hit refreshes the
    entry and erases nothing.  From a fresh cache, under any sequence of
    such calls, the entry count never exceeds the bound. *)
Theorem memory_tier_bound_and_eviction c os fmt text server voice :
  let key := GenerateCacheKey (bcrypt_ok os) text server voice in
  (forall d c',
     Put c os fmt text server voice d = Some c' ->
     written_under_bound (maxSize c) key (fresh d (clock os)) (cache c) (cache c'))
  ∧ (forall d c',
       Get_disk c os fmt key = Some (Some d, c') ->
       LoadFromDisk c fmt key (read_ok os) = Some d
       ∧ written_under_bound (maxSize c) key (fresh d (clock os)) (cache c) (cache c'))
  ∧ (forall d c',
       cache c !! key = None ->
       Get c os fmt text server voice = Some (Some d, c') ->
       written_under_bound (maxSize c) key (fresh d (clock os)) (cache c) (cache c')
       ∧ (maxSize c <= Z.of_nat (size (cache c)) ->
          exists k_old, is_Some (cache c !! k_old) ∧ cache c' !! k_old = None))
  ∧ (forall e r c',
       cache c !! key = Some e ->
       Get c os fmt text server voice = Some (r, c') ->
       r = Some (data e) ∧ cache c' = <[key := fresh (data e) (clock os)]> (cache c))
  ∧ (forall max fs ops c',
       0 <= max -> run fmt (create max fs) ops = Some c' ->
       Z.of_nat (size (cache c')) <= max).
Proof.
  intros key.
  assert (Hdisk : forall d c',
    Get_disk c os fmt key = Some (Some d, c') ->
    LoadFromDisk c fmt key (read_ok os) = Some d
    ∧ written_under_bound (maxSize c) key (fresh d (clock os)) (cache c) (cache c')).
  { intros d c' H. destruct (Get_disk_inv _ _ _ _ _ _ H) as (Hl & m1 & He & ->).
    split; [done|]. simpl. by apply written_after_evict. }
  split; [|split; [|split; [|split]]].
  - intros d c' Hput. destruct (Put_inv _ _ _ _ _ _ _ _ Hput) as (m1 & He & -> & _).
    by apply written_after_evict.
  - exact Hdisk.
  - intros d c' Hnone. unfold Get, Get_memory. fold key. rewrite Hnone.
    intros H. destruct (Hdisk _ _ H) as [_ Hw]. split; [exact Hw|].
    intros Hfull. destruct Hw as (_ & Hev & _).
    destruct (Hev Hfull) as (k & e & Hl & _ & _ & Hgone).
    exists k. split; [eauto|].
    etrans; [exact Hgone|]. case_decide as Hk; [|done]. congruence.
  - intros e r c' Hsome. unfold Get, Get_memory. fold key. rewrite Hsome.
    intros H. by inversion H.
  - intros max fs ops c' Hmax Hrun.
    assert (H0 : Z.of_nat (size (cache (create max fs))) <= maxSize (create max fs)).
    { simpl. rewrite map_size_empty. exact Hmax. }
    exact (proj2 (run_bound fmt ops (create max fs) c' H0 Hrun)).
Qed.

Lemma third_put_eq text :
  0 < maxSize two_entries ->
  Put two_entries (os_at 3) "wav" text "srv" "v" [3] = Some (third_put text).
Proof.
  intros H. unfold third_put.
  destruct (Put two_entries (os_at 3) "wav" text "srv" "v" [3]) as [c3|] eqn:E; [reflexivity|].
  unfold Put in E.
  destruct (evict_if_full_defined (cache two_entries) (maxSize two_entries)) as [m1 Hm1];
    [by left|].
  rewrite Hm1 in E. discriminate E.
Qed.

(** C4 as stated fails: the tier, bounded at two, holds "A" and "B";
    writing "B" again would leave two entries, and yet "A" is erased. *)
Lemma Put_of_present_key_evicts :
  Put two_entries (os_at 3) "wav" "B" "srv" "v" [3] = Some (third_put "B")
  ∧ maxSize two_entries = 2
  ∧ size (cache two_entries) = 2%nat
  ∧ cache two_entries !! key_of "A" = Some (fresh [1] 1)
  ∧ cache two_entries !! key_of "B" = Some (fresh [2] 2)
  ∧ cache (third_put "B") !! key_of "A" = None
  ∧ size (cache (third_put "B")) = 1%nat
  ∧ ¬ evicts_only_on_overflow 2 (key_of "B") (fresh [3] 3)
        (cache two_entries) (cache (third_put "B")).
Proof.
  assert (HA : cache (third_put "B") !! key_of "A" = None) by (vm_compute; reflexivity).
  split; [apply third_put_eq; vm_compute; reflexivity|].
  split; [vm_compute; reflexivity|].
  split; [vm_compute; reflexivity|].
  split; [vm_compute; reflexivity|].
  split; [vm_compute; reflexivity|].
  split; [exact HA|].
  split; [vm_compute; reflexivity|].
  intros H. unfold evicts_only_on_overflow in H.
  assert (Hs : Z.of_nat (size (<[key_of "B" := fresh [3] 3]> (cache two_entries))) <= 2)
    by (vm_compute; intros Hc; discriminate Hc).
  specialize (H Hs). rewrite H in HA. clear H Hs. vm_compute in HA. discriminate HA.
Qed.

(** C4 on the same tier: writing a third text erases the oldest entry, "A". *)
Lemma Put_of_new_key_evicts_oldest :
  Put two_entries (os_at 3) "wav" "C" "srv" "v" [3] = Some (third_put "C")
  ∧ Z.of_nat (size (cache (third_put "C"))) <= 2
  ∧ exists k_old e_old,
      cache two_entries !! k_old = Some e_old
      ∧ (forall k e, cache two_entries !! k = Some e -> timestamp e_old <= timestamp e)
      ∧ cache (third_put "C") !! k_old
        = if decide (k_old = key_of "C") then Some (fresh [3] 3) else None.
Proof.
  assert (Hput : Put two_entries (os_at 3) "wav" "C" "srv" "v" [3] = Some (third_put "C"))
    by (apply third_put_eq; vm_compute; reflexivity).
  destruct (memory_tier_bound_and_eviction two_entries (os_at 3) "wav" "C" "srv" "v")
    as (HPut & _).
  destruct (HPut _ _ Hput) as (_ & Hfull & Hbound).
  split; [exact Hput|]. split.
  - apply Hbound. vm_compute. intros Hc; discriminate Hc.
  - destruct Hfull as (k & e & Hl & Hmin & _ & Hgone);
      [vm_compute; intros Hc; discriminate Hc|].
    exists k, e. split; [exact Hl|]. split; [exact Hmin|exact Hgone].
Defined.

Lemma has_bar_app_bar t r : has_bar (t +:+ String "|" r) = true.
Proof.
  induction t as [|c t IH]; simpl; [done|]. rewrite IH. apply orb_true_r.
Qed.

(** A text without the separator ends where the first separator stands. *)
Lemma bar_split t t' r r' :
  has_bar t = false -> has_bar t' = false ->
  t +:+ String "|" r = t' +:+ String "|" r' -> t = t' ∧ r = r'.
Proof.
  revert t'. induction t as [|c t IH]; intros [|c' t'] Ht Ht' H; simpl in *.
  - by inversion H.
  - inversion H; subst c'. by rewrite Ascii.eqb_refl in Ht'.
  - inversion H; subst c. by rewrite Ascii.eqb_refl in Ht.
  - inversion H; subst c'.
    apply orb_false_iff in Ht as [_ Ht]. apply orb_false_iff in Ht' as [_ Ht'].
    destruct (IH t' Ht Ht') as [-> ->]; done.
Qed.

Lemma combined_injective text server voice text' server' voice' :
  has_bar text = false -> has_bar server = false ->
  has_bar text' = false -> has_bar server' = false ->
  combined text server voice = combined text' server' voice' ->
  (text, server, voice) = (text', server', voice').
Proof.
  intros Ht Hs Ht' Hs' H. unfold combined in H.
  apply (bar_split text text') in H as [-> H]; [|done..].
  apply (bar_split server server') in H as [-> ->]; done.
Qed.

(** C8, as the code has it.  With the hash provider succeeding or failing
    alike, identical triples have identical keys, and so have any two
    triples whose strings [text|server|voice] coincide; when neither text
    nor server contains the separator, equal strings mean equal triples.
    The key is the hex SHA-256 digest of that string, or the empty string
    when the provider fails. *)
Theorem GenerateCacheKey_spec ok text server voice text' server' voice' :
  ((text, server, voice) = (text', server', voice') ->
   GenerateCacheKey ok text server voice = GenerateCacheKey ok text' server' voice')
  ∧ (combined text server voice = combined text' server' voice' ->
     GenerateCacheKey ok text server voice = GenerateCacheKey ok text' server' voice')
  ∧ (has_bar text = false -> has_bar server = false ->
     has_bar text' = false -> has_bar server' = false ->
     combined text server voice = combined text' server' voice' ->
     (text, server, voice) = (text', server', voice'))
  ∧ GenerateCacheKey true text server voice
    = to_hex (Sha256.digest (Utils.bytes_of_string (text +:+ "|" +:+ server +:+ "|" +:+ voice)))
  ∧ GenerateCacheKey false text server voice = EmptyString.
Proof.
  split; [by intros [= -> -> ->]|].
  split; [intros H; unfold GenerateCacheKey; by rewrite H|].
  split; [apply combined_injective|].
  split; reflexivity.
Qed.

(** C8 as stated fails: the same text with a different endpoint and a
    different voice has the same key. *)
Lemma separator_collision :
  GenerateCacheKey true "hello" "srv|" "v" = GenerateCacheKey true "hello" "srv" "|v"
  ∧ ("hello", "srv|", "v") ≠ ("hello", "srv", "|v")
  ∧ ¬ key_injective.
Proof.
  assert (H : GenerateCacheKey true "hello" "srv|" "v"
              = GenerateCacheKey true "hello" "srv" "|v") by (vm_compute; reflexivity).
  split; [exact H|]. split; [discriminate|].
  intros Hinj. apply Hinj in H. discriminate.
Qed.

(** C8 on one triple, and on the two triples that share a string. *)
Lemma GenerateCacheKey_same_triple :
  has_bar "hello" = false ∧ has_bar "srv" = false
  ∧ combined "hello" "srv|" "v" = combined "hello" "srv" "|v"
  ∧ GenerateCacheKey true "hello" "srv" "onyx" = GenerateCacheKey true "hello" "srv" "onyx"
  ∧ ("hello", "srv", "onyx") = ("hello", "srv", "onyx")
  ∧ GenerateCacheKey true "hello" "srv|" "v" = GenerateCacheKey true "hello" "srv" "|v".
Proof.
  destruct (GenerateCacheKey_spec true "hello" "srv" "onyx" "hello" "srv" "onyx")
    as (H1 & _ & H3 & _).
  destruct (GenerateCacheKey_spec true "hello" "srv|" "v" "hello" "srv" "|v")
    as (_ & H2 & _).
  split; [reflexivity|]. split; [reflexivity|]. split; [reflexivity|].
  split; [exact (H1 eq_refl)|].
  split; [exact (H3 eq_refl eq_refl eq_refl eq_refl eq_refl)|].
  exact (H2 eq_refl).
Defined.

End CacheFacts.

(** * Further properties *)

(** ** The ordering buffer, continued *)

Section QueueMore.
Import PlaybackQueue TTSProcessor OrderingSpec Producer.

Lemma step_keeps_shutdown s ev :
  shutdownRequested (queue s) = true ->
  shutdownRequested (queue (step s ev)) = true ∧ returned (step s ev) = returned s.
Proof.
  intros H. destruct ev as [txt | seq audio path | seq | | |]; simpl.
  - done.
  - unfold MarkReady. by destruct (pendingItems (queue s) !! seq).
  - unfold MarkFailed. by destruct (pendingItems (queue s) !! seq).
  - done.
  - destruct (holding s); [done|]. unfold WaitForNextReady. by rewrite H.
  - by destruct (holding s).
Qed.

Lemma run_keeps_shutdown tr s :
  shutdownRequested (queue s) = true ->
  shutdownRequested (queue (run s tr)) = true ∧ returned (run s tr) = returned s.
Proof.
  revert s. induction tr as [|ev tr IH]; intros s H; simpl; [done|].
  destruct (step_keeps_shutdown s ev H) as [H1 H2].
  destruct (IH _ H1) as [H3 H4]. split; [done|]. by rewrite H4.
Qed.

(** X1. After [Shutdown], whatever is called afterwards and whatever is
    ready, [WaitForNextReady] returns the shutdown signal and the
    coordinator is handed no further item. *)
Theorem Shutdown_is_final (s : sys) (tr : list event) :
  WaitForNextReady (queue (run (step s EvShutdown) tr)) = WaitShutdown
  ∧ returned (run (step s EvShutdown) tr) = returned s.
Proof.
  destruct (run_keeps_shutdown tr (step s EvShutdown) eq_refl) as [H1 H2].
  split; [|exact H2]. unfold WaitForNextReady. by rewrite H1.
Qed.

Lemma apply_mark_failed q m k it :
  pendingItems q !! k = Some it -> failed it = true -> isReady it = true ->
  exists it', pendingItems (apply_mark q m) !! k = Some it'
              ∧ failed it' = true ∧ isReady it' = true
              ∧ sequenceNumber it' = sequenceNumber it ∧ text it' = text it.
Proof.
  intros Hk Hf Hr. destruct m as [seq audio path | seq]; simpl.
  - unfold MarkReady. destruct (pendingItems q !! seq) as [it0|] eqn:E;
      [|exists it; by repeat split].
    simpl. destruct (decide (seq = k)) as [-> | Hne].
    + rewrite lookup_insert_eq. rewrite Hk in E. inversion E; subst it0.
      eexists. split; [reflexivity|]. simpl. by repeat split.
    + rewrite lookup_insert_ne by done. exists it. by repeat split.
  - unfold MarkFailed. destruct (pendingItems q !! seq) as [it0|] eqn:E;
      [|exists it; by repeat split].
    simpl. destruct (decide (seq = k)) as [-> | Hne].
    + rewrite lookup_insert_eq. rewrite Hk in E. inversion E; subst it0.
      eexists. split; [reflexivity|]. simpl. by repeat split.
    + rewrite lookup_insert_ne by done. exists it. by repeat split.
Qed.

(** X2. A request that was marked failed stays failed: after [MarkFailed]
    on a pending request, no sequence of later [MarkReady] and
    [MarkFailed] calls, on this or other sequence numbers, clears the
    [failed] flag or the [isReady] flag, so the coordinator will skip it. *)
Theorem failed_is_sticky (q : PlaybackQueue.t) (seq : Z) (it : AudioItem)
    (calls : list mark_call) :
  pendingItems q !! seq = Some it ->
  exists it', pendingItems (fold_left apply_mark calls (MarkFailed q seq)) !! seq = Some it'
              ∧ failed it' = true ∧ isReady it' = true
              ∧ sequenceNumber it' = sequenceNumber it ∧ text it' = text it.
Proof.
  intros Hk.
  assert (H0 : exists it0, pendingItems (MarkFailed q seq) !! seq = Some it0
                 ∧ failed it0 = true ∧ isReady it0 = true
                 ∧ sequenceNumber it0 = sequenceNumber it ∧ text it0 = text it).
  { unfold MarkFailed. rewrite Hk. simpl. rewrite lookup_insert_eq.
    eexists. split; [reflexivity|]. simpl. by repeat split. }
  generalize dependent (MarkFailed q seq). clear Hk.
  induction calls as [|m calls IH]; intros q0 (it0 & Hl & Hf & Hr & Hs & Ht); simpl.
  - exists it0. by repeat split.
  - apply IH.
    destruct (apply_mark_failed q0 m seq it0 Hl Hf Hr) as (it1 & H1 & H2 & H3 & H4 & H5).
    exists it1. repeat split; try done; congruence.
Qed.

Lemma failed_is_sticky_example :
  exists it', pendingItems (fold_left apply_mark [CallMarkReady 1 [7] None; CallMarkFailed 2]
                              (MarkFailed (AddRequest init [65]).2 1)) !! 1 = Some it'
              ∧ failed it' = true ∧ isReady it' = true.
Proof.
  destruct (failed_is_sticky (AddRequest init [65]).2 1
              {| sequenceNumber := 1; text := [65]; audioData := []; cachePath := EmptyString;
                 isReady := false; failed := false |}
              [CallMarkReady 1 [7] None; CallMarkFailed 2])
    as (it' & H1 & H2 & H3 & _).
  { vm_compute. reflexivity. }
  exists it'. by repeat split.
Defined.

(** The pending map holds exactly the requests not yet handed out. *)
Lemma size_pending_step g s ev :
  Inv g s ->
  Z.of_nat (length (g_texts (gstep g ev))) < UINT64_MOD - 1 ->
  (size (pendingItems (queue s)) + length (returned s) = length (g_texts g))%nat ->
  (size (pendingItems (queue (step s ev))) + length (returned (step s ev))
   = length (g_texts (gstep g ev)))%nat.
Proof.
  intros HI Hb Hs. pose proof HI as [Hb0 Hn Hp Hc Hpend Hpres Hret Hrr Hrdy Hsh].
  destruct ev as [txt | seq audio path | seq | | |]; simpl.
  - rewrite map_size_insert_None, length_app; [simpl; lia|].
    destruct (pendingItems (queue s) !! nextSequenceNumber (queue s)) as [it|] eqn:E; [|done].
    apply Hpend in E. lia.
  - unfold MarkReady. destruct (pendingItems (queue s) !! seq) as [it|] eqn:E; [|done].
    simpl. rewrite map_size_insert_Some by eauto. done.
  - unfold MarkFailed. destruct (pendingItems (queue s) !! seq) as [it|] eqn:E; [|done].
    simpl. rewrite map_size_insert_Some by eauto. done.
  - done.
  - destruct (holding s); [done|]. unfold WaitForNextReady.
    destruct (shutdownRequested (queue s)); [done|].
    destruct (pendingItems (queue s) !! nextToPlay (queue s)) as [it|] eqn:E; [|done].
    destruct (isReady it); [|done]. simpl.
    rewrite map_size_delete_Some by eauto. rewrite length_app. simpl.
    assert (0 < size (pendingItems (queue s)))%nat; [|lia].
    destruct (decide (size (pendingItems (queue s)) = 0%nat)) as [H0|]; [|lia].
    apply map_size_empty_iff in H0. rewrite H0 in E. by rewrite lookup_empty in E.
  - destruct (holding s) as [held|] eqn:Hh; [|done].
    change (size (pendingItems (Remove (queue s) (sequenceNumber held)))
            + length (returned s) = length (g_texts g))%nat.
    rewrite Remove_no_stale; [done|].
    intros k it Hk. destruct Hc as (Hc & Hseq & _).
    apply Hpend in Hk. lia.
Qed.

Lemma size_pending_run tr g s :
  Inv g s ->
  Z.of_nat (length (g_texts (grun g tr))) < UINT64_MOD - 1 ->
  (size (pendingItems (queue s)) + length (returned s) = length (g_texts g))%nat ->
  (size (pendingItems (queue (run s tr))) + length (returned (run s tr))
   = length (g_texts (grun g tr)))%nat.
Proof.
  revert g s. induction tr as [|ev tr IH]; intros g s HI Hb Hs; simpl; [done|].
  assert (Hb1 : Z.of_nat (length (g_texts (gstep g ev))) < UINT64_MOD - 1).
  { pose proof (grun_texts_mono tr (gstep g ev)). simpl in Hb. lia. }
  apply IH; [by apply Inv_step|done|by apply size_pending_step].
Qed.

(** X3. In every state the threads reach, [GetSize] is the number of
    requests added minus the number [WaitForNextReady] has handed out. *)
Theorem GetSize_counts_outstanding (tr : list event) :
  Z.of_nat (count_adds tr) < UINT64_MOD - 1 ->
  (GetSize (queue (run boot tr)) + length (returned (run boot tr)) = count_adds tr)%nat.
Proof.
  intros Hb. unfold GetSize, count_adds.
  replace (added_texts tr) with (g_texts (grun ghost0 tr)) by apply grun_texts.
  apply size_pending_run; [apply Inv_boot|by rewrite grun_texts|reflexivity].
Qed.

Lemma GetSize_abc :
  (GetSize (queue (run boot (abc_trace ++ [EvWaitForNextReady]))) = 2)%nat.
Proof.
  assert (Hb : Z.of_nat (count_adds (abc_trace ++ [EvWaitForNextReady])) < UINT64_MOD - 1)
    by (vm_compute; reflexivity).
  pose proof (GetSize_counts_outstanding _ Hb) as H.
  assert (Hr : length (returned (run boot (abc_trace ++ [EvWaitForNextReady]))) = 1%nat)
    by (vm_compute; reflexivity).
  assert (Hc : count_adds (abc_trace ++ [EvWaitForNextReady]) = 3%nat) by reflexivity.
  rewrite Hr, Hc in H. lia.
Defined.

End QueueMore.

(** ** The retry loop, continued *)

Section FetchMoreFacts.
Import TTSFetcher FetchSpec FetchMore.
Implicit Types (net : Z -> AttemptOutcome).

(** The first status 200, reached through retried passes, ends the loop
    with its body. *)
Lemma retry_loop_success net remaining a k body :
  a <= k < a + Z.of_nat remaining ->
  net k = Response 200 body ->
  (forall j, a <= j < k -> is_retried (net j) = true) ->
  retry_loop net remaining a = (body, flat_map pass (seqZ a (k - a + 1))).
Proof.
  revert a. induction remaining as [|r IH]; intros a Hk Hc Hre; [lia|].
  destruct (decide (a = k)) as [-> | Hne].
  - replace (k - k + 1) with 1 by lia.
    simpl. rewrite Hc. simpl. by rewrite pass_last, app_nil_r.
  - assert (Ha : is_retried (net a) = true) by (apply Hre; lia).
    assert (IHa := IH (a + 1) ltac:(lia) Hc ltac:(intros; apply Hre; lia)).
    replace (k - a + 1) with (Z.succ (k - a)) by lia.
    rewrite (seqZ_cons a) by lia.
    replace (Z.pred (Z.succ (k - a))) with (k - (a + 1) + 1) by lia.
    replace (Z.succ a) with (a + 1) by lia.
    simpl. rewrite IHa. unfold is_retried, is_success, is_client_error in Ha.
    destruct (net a) as [| | | | |c body']; simpl; rewrite ?pass_split; try done.
    apply andb_true_iff in Ha as [H1 H2].
    apply negb_true_iff in H1, H2. by rewrite H1, H2.
Qed.

(** X4. The first pass that receives status 200, every pass before it
    having ended in [continue], ends the procedure: the result is that
    response's body and exactly the passes up to it were made. *)
Theorem first_success_returns_body net (maxRetries k : Z) (body : bytes) :
  0 <= k < maxRetries ->
  net k = Response 200 body ->
  (forall j, 0 <= j < k -> is_retried (net j) = true) ->
  FetchTTSAudioWithRetry net maxRetries = (body, flat_map pass (seqZ 0 (k + 1)))
  ∧ attempts (FetchTTSAudioWithRetry net maxRetries).2 = seqZ 0 (k + 1).
Proof.
  intros Hk Hc Hre.
  assert (E : FetchTTSAudioWithRetry net maxRetries = (body, flat_map pass (seqZ 0 (k + 1)))).
  { unfold FetchTTSAudioWithRetry.
    rewrite (retry_loop_success net _ 0 k body); [by rewrite Z.sub_0_r|lia|done|done]. }
  split; [exact E|]. rewrite E. apply attempts_passes.
Qed.

Lemma third_time_lucky_fetch :
  third_time_lucky [82; 73] 2 = Response 200 [82; 73]
  ∧ FetchTTSAudioWithRetry (third_time_lucky [82; 73]) 3
    = ([82; 73], [Attempt 0; Sleep 1000; Attempt 1; Sleep 2000; Attempt 2])
  ∧ attempts (FetchTTSAudioWithRetry (third_time_lucky [82; 73]) 3).2 = [0; 1; 2].
Proof.
  assert (Hc : third_time_lucky [82; 73] 2 = Response 200 [82; 73]) by reflexivity.
  assert (Hre : forall j, 0 <= j < 2 -> is_retried (third_time_lucky [82; 73] j) = true).
  { intros j Hj. unfold third_time_lucky. by rewrite (proj2 (Z.ltb_lt j 2)) by lia. }
  destruct (first_success_returns_body (third_time_lucky [82; 73]) 3 2 [82; 73]
              ltac:(lia) Hc Hre) as [H1 H2].
  split; [exact Hc|]. split; [exact H1|exact H2].
Defined.

Lemma delays_app e1 e2 : delays (e1 ++ e2) = delays e1 ++ delays e2.
Proof. apply omap_app. Qed.

Lemma total_sleep_app e1 e2 : total_sleep (e1 ++ e2) = total_sleep e1 + total_sleep e2.
Proof.
  unfold total_sleep. rewrite delays_app.
  induction (delays e1) as [|d l IH]; simpl; [done|]. rewrite IH. lia.
Qed.

Lemma flat_map_snoc {A B} (f : A -> list B) l x :
  flat_map f (l ++ [x]) = flat_map f l ++ f x.
Proof. rewrite flat_map_app. simpl. by rewrite app_nil_r. Qed.

(** The sleep of the first [m] passes. *)
Lemma total_sleep_passes (m : nat) :
  (m <= 22)%nat ->
  total_sleep (flat_map pass (seqZ 0 (Z.of_nat m)))
  = if decide (m = 0%nat) then 0 else 500 * (2 ^ Z.of_nat m - 2).
Proof.
  induction m as [|m IH]; intros Hm; [done|].
  replace (Z.of_nat (S m)) with (Z.of_nat m + 1) by lia.
  rewrite (seqZ_app 0 (Z.of_nat m) 1) by lia. rewrite Z.add_0_l.
  change (seqZ (Z.of_nat m) 1) with [Z.of_nat m].
  rewrite flat_map_snoc, total_sleep_app, IH by lia.
  destruct (decide (S m = 0%nat)) as [|_]; [lia|].
  destruct m as [|m'].
  - reflexivity.
  - destruct (decide (S m' = 0%nat)) as [|_]; [lia|]. unfold pass.
    rewrite (proj2 (Z.ltb_lt 0 (Z.of_nat (S m')))) by lia.
    unfold total_sleep. simpl. rewrite backoff_exact by lia.
    rewrite (Z.pow_add_r 2 (Z.of_nat (S m')) 1) by lia. lia.
Qed.

Lemma total_sleep_passes_mono (m n : nat) :
  (m <= n)%nat -> (n <= 22)%nat ->
  total_sleep (flat_map pass (seqZ 0 (Z.of_nat m)))
  <= total_sleep (flat_map pass (seqZ 0 (Z.of_nat n))).
Proof.
  intros Hmn Hn. rewrite !total_sleep_passes by lia.
  repeat case_decide; try lia.
  - assert (2 ^ 1 <= 2 ^ Z.of_nat n) by (apply Z.pow_le_mono_r; lia). lia.
  - assert (2 ^ Z.of_nat m <= 2 ^ Z.of_nat n) by (apply Z.pow_le_mono_r; lia). lia.
Qed.

(** X5. With a budget of 1 to 22 passes the procedure never sleeps longer
    than [500 * (2^maxRetries - 2)] ms in total, whatever the service
    does (3000 ms for the default budget), and it sleeps exactly that long
    when every pass ends in [continue]. *)
Theorem total_backoff_bound net (maxRetries : Z) :
  1 <= maxRetries <= 22 ->
  total_sleep (FetchTTSAudioWithRetry net maxRetries).2 <= 500 * (2 ^ maxRetries - 2)
  ∧ ((forall j, 0 <= j < maxRetries -> is_retried (net j) = true) ->
     total_sleep (FetchTTSAudioWithRetry net maxRetries).2 = 500 * (2 ^ maxRetries - 2)).
Proof.
  intros Hn. unfold FetchTTSAudioWithRetry.
  assert (Hfull : total_sleep (flat_map pass (seqZ 0 (Z.of_nat (Z.to_nat maxRetries))))
                  = 500 * (2 ^ maxRetries - 2)).
  { rewrite total_sleep_passes by lia. rewrite decide_False by lia.
    by rewrite Z2Nat.id by lia. }
  split.
  - destruct (retry_loop_shape net (Z.to_nat maxRetries) 0) as (m & Hm & ->).
    rewrite <- Hfull. apply total_sleep_passes_mono; lia.
  - intros Hre. rewrite retry_loop_exhausted; [exact Hfull|].
    intros j Hj. apply Hre. lia.
Qed.

Lemma total_backoff_default :
  total_sleep (FetchTTSAudio (third_time_lucky [1])).2 <= 3000
  ∧ total_sleep (FetchTTSAudio unreachable).2 = 3000.
Proof.
  destruct (total_backoff_bound (third_time_lucky [1]) 3 ltac:(lia)) as [H1 _].
  destruct (total_backoff_bound unreachable 3 ltac:(lia)) as [_ H2].
  split; [exact H1|]. apply H2. intros j _. reflexivity.
Defined.

End FetchMoreFacts.

(** ** The fetch task and the producer *)

Section ProcessorFacts.
Import Utils AudioCache PlaybackQueue TTSProcessor SanitizeSpec Producer ProcessorSpec.

(** X6. With the hash provider working (the cache key then has the 16
    characters the log lines of [Get] take from it), whatever the cache,
    the sanitizer and the service do, a fetch task that returns has made
    exactly one call on the ordering buffer, a [MarkReady] or a
    [MarkFailed] for its own sequence number; and it never shortens the
    network log. *)
Theorem task_marks_its_request_once cfg env w text seq w' :
  bcrypt_ok (os_get env) = true ->
  FetchAndEnqueueForPlayback cfg env w text seq = Some w' ->
  (exists m, g_playbackQueue w' = apply_mark (g_playbackQueue w) m
             ∧ match m with
               | CallMarkReady k _ (Some _) => k = seq
               | CallMarkReady k _ None => False
               | CallMarkFailed k => k = seq
               end)
  ∧ exists effects, network w' = network w ++ effects.
Proof.
  intros _. unfold FetchAndEnqueueForPlayback.
  destruct (AudioCache.Get _ _ _ _ _ _) as [[[audio|] c1]|]; [| |done].
  - intros H. inversion H; subst w'; simpl. split.
    + by eexists (CallMarkReady seq audio (Some _)).
    + exists []. by rewrite app_nil_r.
  - destruct (SanitizeText text) as [[ok st] lg]. destruct ok; simpl.
    + destruct (TTSFetcher.FetchTTSAudio (net env st)) as [audio effects].
      destruct audio as [|b audio].
      * intros H. inversion H; subst w'; simpl. split; [|by eexists].
        by exists (CallMarkFailed seq).
      * destruct (AudioCache.Put c1 _ _ _ _ _ _) as [c2|]; [|done].
        intros H. inversion H; subst w'; simpl. split; [|by eexists].
        by eexists (CallMarkReady seq (b :: audio) (Some _)).
    + intros H. inversion H; subst w'; simpl. split.
      * by exists (CallMarkFailed seq).
      * exists []. by rewrite app_nil_r.
Qed.

Lemma task_marks_hello :
  exists w', FetchAndEnqueueForPlayback some_config (hello_env 1) two_requests "hello" 1 = Some w'
    ∧ exists m, g_playbackQueue w' = apply_mark (g_playbackQueue two_requests) m.
Proof.
  destruct (FetchAndEnqueueForPlayback some_config (hello_env 1) two_requests "hello" 1)
    as [w'|] eqn:E; [|vm_compute in E; discriminate E].
  destruct (task_marks_its_request_once some_config (hello_env 1) two_requests "hello" 1 w'
              eq_refl E) as [(m & Hm & _) _].
  exists w'. split; [reflexivity|]. by exists m.
Defined.

(** X7. Every request [ProcessTTSRequest] adds is either queued for a
    fetch task that carries its sequence number, or already marked failed
    and ready to be skipped: none is left pending without a task. *)
Theorem ProcessTTSRequest_queues_or_fails conv (q : PlaybackQueue.t)
    (p : FetchThreadPool.t FetchTask) (txt : wstring) :
  let seq := nextSequenceNumber q in
  let q' := (ProcessTTSRequest conv q p txt).1 in
  let p' := (ProcessTTSRequest conv q p txt).2 in
  nextSequenceNumber q' = wrap64 (seq + 1)
  ∧ ((FetchThreadPool.tasks p'
      = FetchThreadPool.tasks p ++ [{| task_text := conv txt; task_seq := seq |}]
      ∧ exists it, pendingItems q' !! seq = Some it
                   ∧ text it = txt ∧ isReady it = false ∧ failed it = false)
     ∨ (FetchThreadPool.tasks p' = FetchThreadPool.tasks p
        ∧ FetchThreadPool.maxPendingTasks p <= Z.of_nat (length (FetchThreadPool.tasks p))
        ∧ exists it, pendingItems q' !! seq = Some it
                     ∧ text it = txt ∧ isReady it = true ∧ failed it = true)).
Proof.
  intros seq q' p'. unfold q', p', ProcessTTSRequest, AddRequest. fold seq.
  destruct (decide (FetchThreadPool.maxPendingTasks p
                    <= Z.of_nat (length (FetchThreadPool.tasks p)))) as [Hfull | Hroom].
  - rewrite Enqueue_full by done. simpl. unfold MarkFailed. simpl.
    rewrite lookup_insert_eq. simpl. split; [done|]. right.
    rewrite start_tasks. split; [done|]. split; [done|].
    rewrite lookup_insert_eq. eexists. split; [reflexivity|]. done.
  - destruct (FetchThreadPool.Enqueue p {| task_text := conv txt; task_seq := seq |})
      as [ok p1] eqn:E.
    destruct (Enqueue_room p {| task_text := conv txt; task_seq := seq |}) as (H1 & H2 & _);
      [lia|]. rewrite E in H1, H2. simpl in H1, H2. subst ok. simpl.
    split; [done|]. left. split; [done|].
    rewrite lookup_insert_eq. eexists. split; [reflexivity|]. done.
Qed.




(** X9. A status 200 without a body counts as a failed fetch and is not
    retried.  When the cache misses (the hash provider working), the
    text passes sanitization and the first pass receives status 200 with
    no bytes, the task makes that one pass only, stores nothing in the
    cache and marks its request failed: the pending entry of the request
    ends with its [failed] and [isReady] flags set, its number and text
    kept, and every other entry as it was. *)
Theorem empty_body_fails_without_retry cfg env w text seq c1 st lg it :
  bcrypt_ok (os_get env) = true ->
  AudioCache.Get (g_audioCache w) (os_get env) (format cfg) text (server cfg) (voice cfg)
  = Some (None, c1) ->
  SanitizeText text = (true, st, lg) ->
  net env st 0 = TTSFetcher.Response 200 [] ->
  pendingItems (g_playbackQueue w) !! seq = Some it ->
  FetchAndEnqueueForPlayback cfg env w text seq
  = Some {| g_audioCache := c1;
            g_playbackQueue := MarkFailed (g_playbackQueue w) seq;
            network := network w ++ [TTSFetcher.Attempt 0] |}
  ∧ exists w' it',
      FetchAndEnqueueForPlayback cfg env w text seq = Some w'
      ∧ g_audioCache w' = c1
      ∧ network w' = network w ++ [TTSFetcher.Attempt 0]
      ∧ pendingItems (g_playbackQueue w') !! seq = Some it'
      ∧ failed it' = true ∧ isReady it' = true
      ∧ sequenceNumber it' = sequenceNumber it
      ∧ PlaybackQueue.text it' = PlaybackQueue.text it
      ∧ forall k, k ≠ seq ->
          pendingItems (g_playbackQueue w') !! k = pendingItems (g_playbackQueue w) !! k.
Proof.
  intros _ Hget Hsan Hnet Hit.
  assert (E : FetchAndEnqueueForPlayback cfg env w text seq
              = Some {| g_audioCache := c1;
                        g_playbackQueue := MarkFailed (g_playbackQueue w) seq;
                        network := network w ++ [TTSFetcher.Attempt 0] |}).
  { unfold FetchAndEnqueueForPlayback.
    rewrite Hget, Hsan. cbn [negb].
    unfold TTSFetcher.FetchTTSAudio, TTSFetcher.FetchTTSAudioWithRetry.
    change (Z.to_nat 3) with 3%nat. cbn [TTSFetcher.retry_loop].
    rewrite Hnet. reflexivity. }
  split; [exact E|].
  destruct (MarkFailed_present (g_playbackQueue w) seq it Hit) as [Hl Hothers].
  eexists _, _. split; [exact E|]. simpl.
  split; [reflexivity|]. split; [reflexivity|]. split; [exact Hl|]. by repeat split.
Qed.

Lemma empty_body_fails_hello :
  exists w' it',
    FetchAndEnqueueForPlayback some_config mute_env two_requests "hello" 1 = Some w'
    ∧ g_audioCache w' = g_audioCache two_requests
    ∧ network w' = [TTSFetcher.Attempt 0]
    ∧ pendingItems (g_playbackQueue w') !! 1 = Some it'
    ∧ failed it' = true ∧ isReady it' = true.
Proof.
  destruct (empty_body_fails_without_retry some_config mute_env two_requests "hello" 1
              (g_audioCache two_requests) "hello" []
              {| sequenceNumber := 1; PlaybackQueue.text := [104]; audioData := [];
                 cachePath := EmptyString; isReady := false; failed := false |})
    as (_ & w' & it' & E & Hc & Hn & Hl & Hf & Hr & _);
    [reflexivity | vm_compute; reflexivity | vm_compute; reflexivity | reflexivity
    | vm_compute; reflexivity |].
  exists w', it'. by repeat split.
Defined.

End ProcessorFacts.

(** ** The cache, continued *)

Section CacheMoreFacts.
Import AudioCache CacheSpec CacheMore.
Implicit Types (m : gmap string CacheEntry) (c : t).

Lemma Get_hit c os fmt text server voice e :
  cache c !! GenerateCacheKey (bcrypt_ok os) text server voice = Some e ->
  Get c os fmt text server voice
  = Some (Some (data e),
          set_cache (<[GenerateCacheKey (bcrypt_ok os) text server voice
                       := fresh (data e) (clock os)]> (cache c)) c).
Proof. intros H. unfold Get, Get_memory. by rewrite H. Qed.

Lemma Put_defined c os fmt text server voice d :
  0 < maxSize c ∨ cache c ≠ ∅ -> is_Some (Put c os fmt text server voice d).
Proof.
  intros H. unfold Put. by destruct (evict_if_full_defined (cache c) (maxSize c) H) as [m1 ->].
Qed.

Lemma Put_files c os fmt text server voice d c' :
  Put c os fmt text server voice d = Some c' ->
  files c' = (SaveToDisk c fmt (GenerateCacheKey (bcrypt_ok os) text server voice) d
                (disk_write os)).2
  ∧ cacheDirectory c' = cacheDirectory c
  ∧ diskCacheEnabled c' = diskCacheEnabled c.
Proof.
  unfold Put. destruct (evict_if_full (cache c) (maxSize c)) as [m1|]; [|done].
  intros H. by inversion H.
Qed.

Lemma Put_writes_file c os fmt text server voice d c' :
  diskCacheEnabled c = true ->
  disk_write os = WriteFileReturns true (length d) ->
  Put c os fmt text server voice d = Some c' ->
  files c' !! file_path c' fmt (GenerateCacheKey (bcrypt_ok os) text server voice) = Some d.
Proof.
  intros Hen Hw Hput. destruct (Put_files _ _ _ _ _ _ _ _ Hput) as (Hf & Hd & _).
  rewrite Hf. unfold SaveToDisk, file_path. rewrite Hen, Hw, Hd. simpl.
  rewrite lookup_insert_eq. by rewrite take_ge.
Qed.

(** X10. The disk tier outlives the memory tier.  After a [Put] whose file
    write succeeded, any cache that sees the same files (after [Clear],
    after an eviction, after a restart) and whose memory tier misses the
    key answers [Get] with the bytes that were put, read back from disk,
    and holds them in memory again afterwards. *)
Theorem Get_reads_back_from_disk c os fmt text server voice d c' c1 os1 :
  diskCacheEnabled c = true ->
  disk_write os = WriteFileReturns true (length d) ->
  Put c os fmt text server voice d = Some c' ->
  files c1 = files c' -> cacheDirectory c1 = cacheDirectory c' ->
  diskCacheEnabled c1 = true ->
  cache c1 !! GenerateCacheKey (bcrypt_ok os) text server voice = None ->
  0 < maxSize c1 ->
  bcrypt_ok os = true -> bcrypt_ok os1 = true -> read_ok os1 = true ->
  exists c2, Get c1 os1 fmt text server voice = Some (Some d, c2)
             ∧ cache c2 !! GenerateCacheKey (bcrypt_ok os) text server voice
               = Some (fresh d (clock os1)).
Proof.
  intros Hen Hw Hput Hfiles Hdir Hen1 Hmiss Hmax Hok Hok1 Hrd.
  pose proof (Put_writes_file _ _ _ _ _ _ _ _ Hen Hw Hput) as Hfile.
  unfold Get, Get_memory, Get_disk, LoadFromDisk. rewrite Hok in *.
  rewrite Hok1, Hmiss, Hen1, Hrd.
  unfold file_path in *. rewrite Hdir, Hfiles, Hfile.
  destruct (evict_if_full_defined (cache c1) (maxSize c1)) as [m1 Hm1]; [by left|].
  rewrite Hm1. eexists. split; [reflexivity|]. simpl. apply lookup_insert_eq.
Qed.

Lemma Clear_then_Get_reads_disk :
  exists c' c2,
    Put (with_disk "C:\cache" 50 ∅) (os_writing 1 4) "wav" "hello" "srv" "onyx" [82; 73; 70; 70]
    = Some c'
    ∧ cache (Clear c') = ∅
    ∧ Get (Clear c') (os_writing 2 0) "wav" "hello" "srv" "onyx"
      = Some (Some [82; 73; 70; 70], c2).
Proof.
  destruct (Put_defined (with_disk "C:\cache" 50 ∅) (os_writing 1 4) "wav" "hello" "srv" "onyx"
              [82; 73; 70; 70]) as [c' E]; [left; reflexivity|].
  destruct (Put_inv _ _ _ _ _ _ _ _ E) as (_ & _ & _ & Hm).
  destruct (Put_files _ _ _ _ _ _ _ _ E) as (_ & _ & Hen).
  destruct (Get_reads_back_from_disk (with_disk "C:\cache" 50 ∅) (os_writing 1 4) "wav"
              "hello" "srv" "onyx" [82; 73; 70; 70] c' (Clear c') (os_writing 2 0)
              eq_refl eq_refl E eq_refl eq_refl Hen eq_refl) as (c2 & H2 & _);
    [simpl; rewrite Hm; reflexivity | reflexivity | reflexivity | reflexivity |].
  exists c', c2. split; [exact E|]. split; [reflexivity|exact H2].
Defined.

(** X11. The path [GetCachedFilePath] hands to the player names the file
    [Put] wrote: after a [Put] whose file write succeeded it is the path
    of a file that holds exactly the bytes that were put. *)
Theorem GetCachedFilePath_names_written_file c os fmt text server voice d c' :
  diskCacheEnabled c = true ->
  disk_write os = WriteFileReturns true (length d) ->
  Put c os fmt text server voice d = Some c' ->
  files c' !! GetCachedFilePath c' (bcrypt_ok os) fmt text server voice = Some d.
Proof.
  intros Hen Hw Hput. unfold GetCachedFilePath.
  destruct (Put_files _ _ _ _ _ _ _ _ Hput) as (_ & _ & Hen').
  rewrite Hen', Hen. by apply (Put_writes_file c).
Qed.

Lemma GetCachedFilePath_hello :
  exists c',
    Put (with_disk "C:\cache" 50 ∅) (os_writing 1 4) "wav" "hello" "srv" "onyx" [82; 73; 70; 70]
    = Some c'
    ∧ files c' !! GetCachedFilePath c' true "wav" "hello" "srv" "onyx" = Some [82; 73; 70; 70].
Proof.
  destruct (Put_defined (with_disk "C:\cache" 50 ∅) (os_writing 1 4) "wav" "hello" "srv" "onyx"
              [82; 73; 70; 70]) as [c' E]; [left; reflexivity|].
  exists c'. split; [exact E|].
  exact (GetCachedFilePath_names_written_file (with_disk "C:\cache" 50 ∅) (os_writing 1 4)
           "wav" "hello" "srv" "onyx" [82; 73; 70; 70] c' eq_refl eq_refl E).
Defined.

(** X12. A hit protects the entry from the next eviction.  When [Get] (the
    hash provider working) hits a key at a clock reading later than the
    timestamp of some other entry, the following [Put] of a different
    key, full tier or not, leaves the hit entry in memory. *)
Theorem hit_survives_next_eviction c os os2 fmt text server voice
    text2 server2 voice2 d2 e k0 e0 r c1 c2 :
  bcrypt_ok os = true ->
  cache c !! GenerateCacheKey (bcrypt_ok os) text server voice = Some e ->
  cache c !! k0 = Some e0 ->
  k0 ≠ GenerateCacheKey (bcrypt_ok os) text server voice ->
  timestamp e0 < clock os ->
  GenerateCacheKey (bcrypt_ok os2) text2 server2 voice2
  ≠ GenerateCacheKey (bcrypt_ok os) text server voice ->
  Get c os fmt text server voice = Some (r, c1) ->
  Put c1 os2 fmt text2 server2 voice2 d2 = Some c2 ->
  r = Some (data e)
  ∧ cache c2 !! GenerateCacheKey (bcrypt_ok os) text server voice
    = Some (fresh (data e) (clock os)).
Proof.
  intros _ Hk Hk0 Hne0 Hts Hne2 Hget Hput.
  unfold Get, Get_memory in Hget. rewrite Hk in Hget.
  inversion Hget; subst r c1; clear Hget. split; [done|].
  destruct (Put_inv _ _ _ _ _ _ _ _ Hput) as (m1 & He & -> & _).
  rewrite lookup_insert_ne by done. simpl in He.
  set (key := GenerateCacheKey (bcrypt_ok os) text server voice) in *.
  set (m := <[key := {| data := data e; timestamp := clock os |}]> (cache c)) in *.
  assert (Hmk : m !! key = Some (fresh (data e) (clock os))) by apply lookup_insert_eq.
  assert (Hm0 : m !! k0 = Some e0) by (unfold m; by rewrite lookup_insert_ne).
  destruct (decide (Z.of_nat (size m) < maxSize c)) as [Hroom | Hfull].
  - rewrite evict_if_full_room in He by done. by inversion He; subst m1.
  - assert (Hfull' : maxSize c <= Z.of_nat (size m)) by lia.
    destruct (evict_if_full_full _ _ _ Hfull' He) as (k & e1 & Hl & Hmin & ->).
    rewrite lookup_delete_ne; [done|].
    intros ->. rewrite Hmk in Hl. inversion Hl; subst e1.
    specialize (Hmin _ _ Hm0). simpl in Hmin. lia.
Qed.

Lemma hit_survives_example :
  exists c1 c2,
    Get two_entries (os_at 3) "wav" "A" "srv" "v" = Some (Some [1], c1)
    ∧ Put c1 (os_at 4) "wav" "C" "srv" "v" [3] = Some c2
    ∧ cache c2 !! GenerateCacheKey true "A" "srv" "v" = Some (fresh [1] 3).
Proof.
  pose proof (hit_survives_next_eviction two_entries (os_at 3) (os_at 4) "wav" "A" "srv" "v"
                "C" "srv" "v" [3] (fresh [1] 1) (GenerateCacheKey true "B" "srv" "v")
                (fresh [2] 2)) as T.
  pose proof (Get_hit two_entries (os_at 3) "wav" "A" "srv" "v" (fresh [1] 1)) as Eg.
  cbn [bcrypt_ok os_at clock fresh data timestamp] in T, Eg.
  assert (HA : cache two_entries !! GenerateCacheKey true "A" "srv" "v" = Some (fresh [1] 1))
    by (vm_compute; reflexivity).
  assert (HB : cache two_entries !! GenerateCacheKey true "B" "srv" "v" = Some (fresh [2] 2))
    by (vm_compute; reflexivity).
  assert (Hne : GenerateCacheKey true "B" "srv" "v" ≠ GenerateCacheKey true "A" "srv" "v")
    by (vm_compute; intros Hc; discriminate Hc).
  assert (Hne2 : GenerateCacheKey true "C" "srv" "v" ≠ GenerateCacheKey true "A" "srv" "v")
    by (vm_compute; intros Hc; discriminate Hc).
  specialize (Eg HA).
  set (c1 := set_cache _ two_entries) in *.
  assert (Hmax : maxSize c1 = 2) by reflexivity.
  destruct (Put c1 (os_at 4) "wav" "C" "srv" "v" [3]) as [c2|] eqn:Ep.
  2:{ unfold Put in Ep.
      destruct (evict_if_full_defined (cache c1) (maxSize c1)) as [m1 Hm1];
        [left; rewrite Hmax; reflexivity|].
      rewrite Hm1 in Ep. discriminate Ep. }
  assert (Hlt : 2 < 3) by lia.
  exists c1, c2.
  destruct (T (Some [1]) c1 c2 eq_refl HA HB Hne Hlt Hne2 Eg Ep) as [_ H].
  split; [exact Eg|]. split; [exact Ep|exact H].
Defined.

Lemma round_length st kw : length st = 8%nat -> length (Sha256.round st kw) = 8%nat.
Proof.
  intros H. do 9 (destruct st as [|? st]; try done).
Qed.

Lemma rounds_length kws st :
  length st = 8%nat -> length (fold_left Sha256.round kws st) = 8%nat.
Proof.
  revert st. induction kws as [|kw kws IH]; intros st H; [done|].
  simpl. apply IH. by apply round_length.
Qed.

Lemma compress_length h block : length h = 8%nat -> length (Sha256.compress h block) = 8%nat.
Proof.
  intros H. unfold Sha256.compress.
  rewrite length_map, length_combine, rounds_length by done. lia.
Qed.

Lemma blocks_length fuel ws h :
  length h = 8%nat -> length (Sha256.blocks fuel ws h) = 8%nat.
Proof.
  revert ws h. induction fuel as [|f IH]; intros ws h H; [done|].
  simpl. destruct ws; [done|]. apply IH. by apply compress_length.
Qed.

Lemma digest_length msg : length (Sha256.digest msg) = 32%nat.
Proof.
  unfold Sha256.digest.
  pose proof (blocks_length
                (length (Sha256.words_of (length (Sha256.pad msg)) (Sha256.pad msg)))
                (Sha256.words_of (length (Sha256.pad msg)) (Sha256.pad msg))
                Sha256.H0 eq_refl) as H.
  destruct (Sha256.blocks _ _ _) as [|a0 [|a1 [|a2 [|a3 [|a4 [|a5 [|a6 [|a7 [|a8 l]]]]]]]]];
    try discriminate H.
  reflexivity.
Qed.

Lemma to_hex_digit_hex n : is_hex_digit (to_hex_digit n) = true.
Proof.
  unfold to_hex_digit. generalize (Z.to_nat n). intros k.
  do 16 (destruct k as [|k]; [reflexivity|]). by destruct k.
Qed.

Lemma to_hex_chars hash :
  list_ascii_of_string (to_hex hash) = flat_map hex_of_byte hash.
Proof. unfold to_hex. apply list_ascii_of_string_of_list_ascii. Qed.

(** X13. With the hash provider working, every cache key is a string of 64
    lower-case hexadecimal digits, whatever the text, the server and the
    voice: it can be used as a file name, and the 16 characters the log
    lines of [Get] take from it are there. *)
Theorem GenerateCacheKey_is_64_hex_digits (text server voice : string) :
  String.length (GenerateCacheKey true text server voice) = 64%nat
  ∧ forallb is_hex_digit (list_ascii_of_string (GenerateCacheKey true text server voice))
    = true.
Proof.
  unfold GenerateCacheKey.
  set (hash := Sha256.digest (Utils.bytes_of_string (combined text server voice))).
  assert (Hchars : forall l, forallb is_hex_digit (flat_map hex_of_byte l) = true
                             ∧ length (flat_map hex_of_byte l) = (2 * length l)%nat).
  { induction l as [|b l [IH1 IH2]]; [done|]. simpl.
    rewrite !to_hex_digit_hex, IH1, IH2. split; [done|lia]. }
  destruct (Hchars hash) as [H1 H2]. split.
  - rewrite <- length_chars, to_hex_chars, H2. unfold hash. by rewrite digest_length.
  - by rewrite to_hex_chars.
Qed.

End CacheMoreFacts.

(** ** The fetch pool, continued *)

Section PoolShutdownFacts.
Import FetchThreadPool PoolShutdown.
Context {Task : Type}.
Implicit Types (p : t Task) (s : sys Task).

Lemma worker_pass_runs_front s task rest :
  tasks (pool s) = task :: rest ->
  executed (step s EvWorker) = executed s ++ [task]
  ∧ tasks (pool (step s EvWorker)) = rest
  ∧ stop (pool (step s EvWorker)) = stop (pool s).
Proof. intros E. unfold step, WorkerLoop. by rewrite E. Qed.

Lemma worker_passes_stopped s n :
  stop (pool s) = true -> (n <= length (tasks (pool s)))%nat ->
  executed (run s (repeat EvWorker n)) = executed s ++ take n (tasks (pool s))
  ∧ tasks (pool (run s (repeat EvWorker n))) = drop n (tasks (pool s))
  ∧ stop (pool (run s (repeat EvWorker n))) = true.
Proof.
  revert s. induction n as [|n IH]; intros s Hstop Hn.
  - simpl. by rewrite take_0, app_nil_r, drop_0.
  - destruct (tasks (pool s)) as [|task rest] eqn:E; [simpl in Hn; lia|].
    simpl in Hn.
    change (run s (repeat EvWorker (S n))) with (run (step s EvWorker) (repeat EvWorker n)).
    destruct (worker_pass_runs_front s task rest E) as (H1 & H2 & H3).
    destruct (IH (step s EvWorker)) as (Ha & Hb & Hc);
      [by rewrite H3 | rewrite H2; lia |].
    rewrite Ha, Hb, Hc, H1, H2. simpl. by rewrite <- app_assoc.
Qed.

(** X14. Shutdown drains the queue.  Once [Shutdown] has stored [stop], no
    worker pass waits and none leaves while a task is queued: the first
    passes run the queued tasks in their order, and a pass finds the exit
    exactly when the queue is empty. *)
Theorem Shutdown_drains_queue p n :
  initialized p = true -> (n <= length (tasks p))%nat ->
  executed (run (boot (Shutdown_signal p)) (repeat EvWorker n)) = take n (tasks p)
  ∧ tasks (pool (run (boot (Shutdown_signal p)) (repeat EvWorker n))) = drop n (tasks p)
  ∧ WorkerLoop (pool (run (boot (Shutdown_signal p)) (repeat EvWorker n))) ≠ WorkerWaits
  ∧ (WorkerLoop (pool (run (boot (Shutdown_signal p)) (repeat EvWorker n))) = WorkerExits
     <-> n = length (tasks p)).
Proof.
  intros Hi Hn.
  assert (Hsig : tasks (Shutdown_signal p) = tasks p ∧ stop (Shutdown_signal p) = true)
    by (unfold Shutdown_signal; by rewrite Hi).
  destruct Hsig as [Ht Hs].
  destruct (worker_passes_stopped (boot (Shutdown_signal p)) n) as (H1 & H2 & H3);
    [exact Hs | simpl; by rewrite Ht |].
  simpl in H1, H2. rewrite Ht in H1, H2.
  split; [exact H1|]. split; [exact H2|].
  unfold WorkerLoop. rewrite H2, H3.
  destruct (drop n (tasks p)) as [|task rest] eqn:E.
  - split; [done|]. split; [intros _|done].
    apply (f_equal length) in E. rewrite length_drop in E. simpl in E. lia.
  - split; [done|]. split; [done|]. intros ->.
    by rewrite drop_all in E.
Qed.

End PoolShutdownFacts.

Lemma Shutdown_drains_busy_pool :
  FetchThreadPool.executed
    (FetchThreadPool.run (FetchThreadPool.boot (PoolShutdown.Shutdown_signal PoolShutdown.busy_pool))
       (repeat FetchThreadPool.EvWorker 3))
  = [7%nat; 8%nat; 9%nat]
  ∧ FetchThreadPool.WorkerLoop
      (FetchThreadPool.pool
         (FetchThreadPool.run
            (FetchThreadPool.boot (PoolShutdown.Shutdown_signal PoolShutdown.busy_pool))
            (repeat FetchThreadPool.EvWorker 3)))
    = FetchThreadPool.WorkerExits.
Proof.
  destruct (Shutdown_drains_queue PoolShutdown.busy_pool 3) as (H1 & _ & _ & H4);
    [reflexivity | simpl; lia |].
  split; [exact H1|]. apply H4. reflexivity.
Defined.

Section PoolRestartFacts.
Import FetchThreadPool PoolShutdown.
Context {Task : Type}.
Implicit Types (p : t Task) (s : sys Task).

Lemma Enqueue_started p task :
  initialized p = true ->
  workers (Enqueue p task).2 = workers p
  ∧ initialized (Enqueue p task).2 = true
  ∧ stop (Enqueue p task).2 = stop p
  ∧ maxPendingTasks (Enqueue p task).2 = maxPendingTasks p.
Proof.
  intros Hi. unfold Enqueue, start. rewrite Hi.
  by destruct (maxPendingTasks p <=? Z.of_nat (length (tasks p))).
Qed.

Lemma enqueue_all_started p ts :
  initialized p = true ->
  workers (enqueue_all p ts) = workers p
  ∧ initialized (enqueue_all p ts) = true
  ∧ stop (enqueue_all p ts) = stop p.
Proof.
  revert p. induction ts as [|task ts IH]; intros p Hi; [done|].
  unfold enqueue_all in *. simpl.
  destruct (Enqueue_started p task Hi) as (Hw & Hi' & Hs & _).
  destruct (IH _ Hi') as (H1 & H2 & H3). by rewrite H1, H2, H3, Hw, Hs.
Qed.

(** X15. Shutdown is final for a started pool.  After [Shutdown] has joined
    and cleared its workers, [Enqueue] never creates a thread again, yet
    it goes on accepting tasks while the queue has room: however many
    calls follow, the pool has no worker, [stop] is still set, and the
    next call with room returns [true] and queues its task. *)
Theorem Enqueue_after_Shutdown p ts task :
  initialized p = true ->
  let q := enqueue_all (Shutdown_clear (Shutdown_signal p)) ts in
  workers q = 0%nat ∧ stop q = true
  ∧ workers (Enqueue q task).2 = 0%nat
  ∧ (Z.of_nat (length (tasks q)) < maxPendingTasks q ->
     (Enqueue q task).1 = true ∧ tasks (Enqueue q task).2 = tasks q ++ [task]).
Proof.
  intros Hi q.
  assert (H0 : initialized (Shutdown_clear (Shutdown_signal p)) = true
               ∧ workers (Shutdown_clear (Shutdown_signal p)) = 0%nat
               ∧ stop (Shutdown_clear (Shutdown_signal p)) = true).
  { unfold Shutdown_clear, Shutdown_signal. rewrite Hi. simpl. done. }
  destruct H0 as (Hi0 & Hw0 & Hs0).
  destruct (enqueue_all_started _ ts Hi0) as (Hw & Hi' & Hs). fold q in Hw, Hi', Hs.
  destruct (Enqueue_started q task Hi') as (Hw' & _).
  split; [by rewrite Hw|]. split; [by rewrite Hs|]. split; [by rewrite Hw', Hw|].
  intros Hroom. destruct (Enqueue_room q task Hroom) as (H1 & H2 & _). done.
Qed.

Lemma workers_step s ev :
  workers (pool (step s ev))
  = match ev with
    | EvEnqueue _ => workers (start (pool s))
    | EvWorker => workers (pool s)
    end
  ∧ initialized (pool (step s ev))
    = match ev with
      | EvEnqueue _ => true
      | EvWorker => initialized (pool s)
      end
  ∧ maxThreads (pool (step s ev)) = maxThreads (pool s).
Proof.
  destruct ev as [task|]; unfold step.
  - unfold Enqueue.
    destruct (maxPendingTasks (start (pool s)) <=? _); simpl;
      (split; [done|]); unfold start; by destruct (initialized (pool s)) eqn:Ei.
  - unfold WorkerLoop. destruct (tasks (pool s)); [by destruct (stop (pool s))|done].
Qed.

(** X16. The workers are created lazily and once.  Along every interleaving
    of [Enqueue] calls and worker passes on a pool built for [threads]
    workers, the pool has no thread before the first [Enqueue] and
    exactly [threads] of them from that call on, whether the call was
    accepted or rejected. *)
Theorem workers_created_once threads maxPending (tr : list (event Task)) :
  workers (pool (run (boot (create threads maxPending)) tr))
  = (if calls_Enqueue tr then Z.to_nat threads else 0%nat)
  ∧ initialized (pool (run (boot (create threads maxPending)) tr)) = calls_Enqueue tr.
Proof.
  assert (H : forall (s : sys Task) b,
             maxThreads (pool s) = threads ->
             initialized (pool s) = b ->
             workers (pool s) = (if b then Z.to_nat threads else 0%nat) ->
             workers (pool (run s tr)) = (if b || calls_Enqueue tr then Z.to_nat threads else 0%nat)
             ∧ initialized (pool (run s tr)) = b || calls_Enqueue tr).
  { induction tr as [|ev tr IH]; intros s b Hm Hi Hw.
    - simpl. by rewrite orb_false_r.
    - destruct (workers_step s ev) as (H1 & H2 & H3).
      change (run s (ev :: tr)) with (run (step s ev) tr).
      change (calls_Enqueue (ev :: tr))
        with (match ev with EvEnqueue _ => true | EvWorker => false end || calls_Enqueue tr).
      destruct ev as [task|].
      + destruct (IH (step s (EvEnqueue task)) true) as [Ha Hb].
        * by rewrite H3.
        * exact H2.
        * rewrite H1. unfold start. rewrite Hi. destruct b; [done|].
          simpl. by rewrite Hw, Hm.
        * change (true || calls_Enqueue tr) with true in Ha, Hb.
          rewrite Ha, Hb. by destruct b.
      + destruct (IH (step s EvWorker) b) as [Ha Hb].
        * by rewrite H3.
        * by rewrite H2.
        * by rewrite H1.
        * by rewrite Ha, Hb. }
  destruct (H (boot (create threads maxPending)) false) as [Ha Hb]; done.
Qed.

End PoolRestartFacts.

Lemma Enqueue_after_Shutdown_busy_pool :
  FetchThreadPool.workers
    (PoolShutdown.enqueue_all
       (PoolShutdown.Shutdown_clear (PoolShutdown.Shutdown_signal PoolShutdown.busy_pool))
       [1%nat]) = 0%nat
  ∧ (FetchThreadPool.Enqueue
       (PoolShutdown.enqueue_all
          (PoolShutdown.Shutdown_clear (PoolShutdown.Shutdown_signal PoolShutdown.busy_pool))
          [1%nat]) 2%nat).1 = true.
Proof.
  destruct (Enqueue_after_Shutdown PoolShutdown.busy_pool [1%nat] 2%nat) as (H1 & _ & _ & H4);
    [reflexivity|].
  split; [exact H1|]. apply H4. vm_compute. reflexivity.
Defined.

(** ** Text utilities *)

Section TrimFacts.
Import Utils Text TextSpec.
Local Arguments append : simpl nomatch.

Lemma app_String c (a b : string) : String c a +:+ b = String c (a +:+ b).
Proof. reflexivity. Qed.

Lemma app_empty_r (a : string) : a +:+ EmptyString = a.
Proof. induction a as [|c a IH]; [done|]. simpl. by rewrite IH. Qed.

Lemma length_app_string (a b : string) :
  String.length (a +:+ b) = (String.length a + String.length b)%nat.
Proof. induction a as [|c a IH]; [done|]. simpl. by rewrite IH. Qed.

Lemma app_assoc_string (a b c : string) : (a +:+ b) +:+ c = a +:+ (b +:+ c).
Proof. induction a as [|x a IH]; [done|]. simpl. by rewrite IH. Qed.

Lemma find_first_None s : find_first_not_of s = None <-> all_trimmed s = true.
Proof.
  induction s as [|c r IH]; simpl; [done|].
  destruct (is_trimmed_char c); simpl; [|done].
  destruct (find_first_not_of r); simpl; split; intros H; try done.
  - by destruct IH as [_ IH]; specialize (IH H).
  - by apply IH.
Qed.

Lemma find_last_None s : find_last_not_of s = None <-> all_trimmed s = true.
Proof.
  induction s as [|c r IH]; simpl; [done|].
  destruct (find_last_not_of r) as [j|].
  - split; [done|]. intros H. apply andb_true_iff in H as [_ H].
    by destruct IH as [_ IH]; specialize (IH H).
  - destruct (is_trimmed_char c); simpl; [|done].
    split; [intros _; by apply IH|done].
Qed.

Lemma trim_cons_trimmed c r : is_trimmed_char c = true -> trim (String c r) = trim r.
Proof.
  intros Hc. unfold trim. simpl. rewrite Hc.
  destruct (find_first_not_of r) as [i|] eqn:Ef; simpl; [|done].
  destruct (find_last_not_of r) as [j|] eqn:El; simpl.
  - done.
  - apply find_last_None, find_first_None in El. congruence.
Qed.

Lemma trim_cons_kept c r :
  is_trimmed_char c = false -> trim (String c r) = String c (keep_to_last r).
Proof.
  intros Hc. unfold trim, keep_to_last. simpl. rewrite Hc.
  destruct (find_last_not_of r) as [j|]; simpl.
  - by rewrite Nat.add_1_r.
  - by destruct r.
Qed.

Lemma keep_to_last_cons c r :
  keep_to_last (String c r)
  = if all_trimmed r then (if is_trimmed_char c then EmptyString else String c EmptyString)
    else String c (keep_to_last r).
Proof.
  unfold keep_to_last. simpl.
  destruct (find_last_not_of r) as [j|] eqn:El.
  - destruct (all_trimmed r) eqn:Ea; [|done].
    apply find_last_None in Ea. congruence.
  - apply find_last_None in El. rewrite El.
    destruct (is_trimmed_char c); [done|by destruct r].
Qed.

Lemma keep_to_last_split r :
  exists t, r = keep_to_last r +:+ t ∧ all_trimmed t = true.
Proof.
  induction r as [|c r (t & Ht & Ha)]; [by exists EmptyString|].
  rewrite keep_to_last_cons.
  destruct (all_trimmed r) eqn:Er.
  - destruct (is_trimmed_char c) eqn:Ec.
    + exists (String c r). simpl. by rewrite Ec, Er.
    + exists r. by simpl.
  - exists t. simpl. by rewrite <- Ht.
Qed.

Lemma keep_to_last_empty r : keep_to_last r = EmptyString -> all_trimmed r = true.
Proof.
  destruct r as [|c r]; [done|]. rewrite keep_to_last_cons. simpl.
  destruct (all_trimmed r); [|done]. by destruct (is_trimmed_char c).
Qed.

Lemma keep_to_last_end r t c :
  keep_to_last r = t +:+ String c EmptyString -> is_trimmed_char c = false.
Proof.
  revert t. induction r as [|x r IH]; intros t.
  - by destruct t.
  - rewrite keep_to_last_cons. destruct (all_trimmed r) eqn:Er.
    + destruct (is_trimmed_char x) eqn:Ex.
      * by destruct t.
      * destruct t as [|y t]; simpl; intros H; [by inversion H; subst|].
        inversion H as [[Hy Ht]]. by destruct t.
    + destruct t as [|y t]; simpl; intros H.
      * inversion H as [[Hy Ht]]. apply keep_to_last_empty in Ht. congruence.
      * inversion H as [[Hy Ht]]. by apply (IH t).
Qed.

Lemma all_trimmed_last s t c :
  all_trimmed s = true -> s = t +:+ String c EmptyString -> is_trimmed_char c = true.
Proof.
  revert s. induction t as [|y t IH]; intros s Ha ->; simpl in Ha.
  - by rewrite andb_true_r in Ha.
  - apply andb_true_iff in Ha as [_ Ha]. by apply (IH _ Ha).
Qed.

Lemma all_trimmed_app a b :
  all_trimmed (a +:+ b) = all_trimmed a && all_trimmed b.
Proof.
  induction a as [|c a IH]; [done|]. simpl. by rewrite IH, andb_assoc.
Qed.

Lemma keep_to_last_trimmed r : all_trimmed r = true -> keep_to_last r = EmptyString.
Proof. intros H. unfold keep_to_last. apply find_last_None in H. by rewrite H. Qed.

(** A kept run followed by trimmed characters is cut back to the run. *)
Lemma keep_to_last_app m r :
  all_trimmed r = true ->
  (forall t c, m = t +:+ String c EmptyString -> is_trimmed_char c = false) ->
  keep_to_last (m +:+ r) = m.
Proof.
  intros Hr. induction m as [|x m IH]; intros Hend.
  - by apply keep_to_last_trimmed.
  - simpl. rewrite keep_to_last_cons, all_trimmed_app, Hr, andb_true_r.
    assert (Hend' : forall t c, m = t +:+ String c EmptyString -> is_trimmed_char c = false).
    { intros t c ->. by apply (Hend (String x t) c). }
    destruct (all_trimmed m) eqn:Em.
    + destruct m as [|y m].
      * by rewrite (Hend EmptyString x).
      * exfalso.
        assert (H : exists t c, String y m = t +:+ String c EmptyString).
        { clear. revert y. induction m as [|z m IH]; intros y.
          - by exists EmptyString, y.
          - destruct (IH z) as (t & c & Ht). exists (String y t), c. simpl. by rewrite <- Ht. }
        destruct H as (t & c & Ht).
        pose proof (all_trimmed_last _ _ _ Em Ht) as H1.
        rewrite (Hend' _ _ Ht) in H1. done.
    + by rewrite IH.
Qed.

Lemma trim_app_trimmed l x : all_trimmed l = true -> trim (l +:+ x) = trim x.
Proof.
  induction l as [|c l IH]; [done|]. simpl. intros H.
  apply andb_true_iff in H as [Hc Hl]. rewrite trim_cons_trimmed by done. by apply IH.
Qed.

(** The input is the result between two runs of trimmed characters. *)
Lemma trim_split s :
  exists l r, s = l +:+ trim s +:+ r ∧ all_trimmed l = true ∧ all_trimmed r = true.
Proof.
  induction s as [|c s (l & r & Hs & Hl & Hr)].
  - by exists EmptyString, EmptyString.
  - destruct (is_trimmed_char c) eqn:Ec.
    + rewrite trim_cons_trimmed by done. exists (String c l), r.
      simpl. rewrite Ec, Hl. by rewrite <- Hs.
    + rewrite trim_cons_kept by done.
      destruct (keep_to_last_split s) as (t & Ht & Ha).
      exists EmptyString, t. simpl. by rewrite <- Ht.
Qed.

Lemma trim_first s c t : trim s = String c t -> is_trimmed_char c = false.
Proof.
  induction s as [|x s IH]; [done|].
  destruct (is_trimmed_char x) eqn:Ex.
  - rewrite trim_cons_trimmed by done. apply IH.
  - rewrite trim_cons_kept by done. intros H. by inversion H; subst.
Qed.

Lemma trim_last s t c : trim s = t +:+ String c EmptyString -> is_trimmed_char c = false.
Proof.
  revert t. induction s as [|x s IH]; intros t.
  - by destruct t.
  - destruct (is_trimmed_char x) eqn:Ex.
    + rewrite trim_cons_trimmed by done. apply IH.
    + rewrite trim_cons_kept by done.
      destruct t as [|y t]; simpl; intros H.
      * by inversion H; subst.
      * inversion H as [[Hy Ht]]. by apply (keep_to_last_end s t c).
Qed.

(** A string between two trimmed runs that neither starts nor ends
    with a trimmed character is what [trim] returns. *)
Lemma trim_strip l m r :
  all_trimmed l = true -> all_trimmed r = true ->
  (forall c t, m = String c t -> is_trimmed_char c = false) ->
  (forall t c, m = t +:+ String c EmptyString -> is_trimmed_char c = false) ->
  trim (l +:+ m +:+ r) = m.
Proof.
  intros Hl Hr Hf He. rewrite trim_app_trimmed by done.
  destruct m as [|x m].
  - simpl. unfold trim. apply find_first_None in Hr. by rewrite Hr.
  - simpl. rewrite trim_cons_kept by (by apply (Hf x m)). f_equal.
    apply keep_to_last_app; [done|]. intros t c ->. by apply (He (String x t) c).
Qed.

Lemma trim_fixed s :
  (forall c t, s = String c t -> is_trimmed_char c = false) ->
  (forall t c, s = t +:+ String c EmptyString -> is_trimmed_char c = false) ->
  trim s = s.
Proof.
  intros Hf He.
  pose proof (trim_strip EmptyString s EmptyString eq_refl eq_refl Hf He) as H.
  simpl in H. by rewrite app_empty_r in H.
Qed.

(** X17. [trim] removes exactly the surrounding white space: the input is
    the result between two runs of the characters space, tab, carriage
    return and line feed; the result neither starts nor ends with one of
    them; and a string that neither starts nor ends with one is left as
    it is, so that trimming twice is trimming once. *)
Theorem trim_spec (s : string) :
  (exists l r, s = l +:+ trim s +:+ r ∧ all_trimmed l = true ∧ all_trimmed r = true)
  ∧ (forall c t, trim s = String c t -> is_trimmed_char c = false)
  ∧ (forall t c, trim s = t +:+ String c EmptyString -> is_trimmed_char c = false)
  ∧ ((forall c t, s = String c t -> is_trimmed_char c = false) ->
     (forall t c, s = t +:+ String c EmptyString -> is_trimmed_char c = false) ->
     trim s = s)
  ∧ trim (trim s) = trim s.
Proof.
  split; [apply trim_split|]. split; [apply trim_first|]. split; [apply trim_last|].
  split; [apply trim_fixed|].
  apply trim_fixed; [apply trim_first|apply trim_last].
Qed.

Lemma trim_spec_example :
  trim (trim (String "009" " volume = 90  ")) = trim (String "009" " volume = 90  ").
Proof.
  exact (proj2 (proj2 (proj2 (proj2 (trim_spec (String "009" " volume = 90  ")))))).
Defined.

End TrimFacts.

Section Utf8Facts.
Import Utils Text TextSpec.
Local Arguments append : simpl nomatch.

Lemma IsValidUTF8_app_bounded n :
  forall s t, (String.length s <= n)%nat ->
    IsValidUTF8 s = true -> IsValidUTF8 (s +:+ t) = IsValidUTF8 t.
Proof.
  induction n as [|n IH]; intros [|c s] t Hlen Hv; try done; [simpl in Hlen; lia|].
  simpl in Hlen. cbn [IsValidUTF8 append] in Hv |- *.
  destruct (byte_of c <? 128); [apply IH; [lia|done]|].
  destruct (Z.land (byte_of c) 224 =? 192).
  { destruct s as [|c1 s1]; [done|]. cbn [append].
    destruct (is_cont c1); [|done]. apply IH; [simpl in Hlen; lia|done]. }
  destruct (Z.land (byte_of c) 240 =? 224).
  { destruct s as [|c1 [|c2 s2]]; [done|done|]. cbn [append].
    destruct (is_cont c1 && is_cont c2); [|done]. apply IH; [simpl in Hlen; lia|done]. }
  destruct (Z.land (byte_of c) 248 =? 240); [|done].
  destruct s as [|c1 [|c2 [|c3 s3]]]; [done|done|done|]. cbn [append].
  destruct (is_cont c1 && is_cont c2 && is_cont c3); [|done].
  apply IH; [simpl in Hlen; lia|done].
Qed.

Lemma IsValidUTF8_app s t :
  IsValidUTF8 s = true -> IsValidUTF8 (s +:+ t) = IsValidUTF8 t.
Proof. by apply (IsValidUTF8_app_bounded (String.length s)). Qed.

Lemma plain_ascii_valid s : plain_ascii s = true -> IsValidUTF8 s = true.
Proof.
  induction s as [|c s IH]; [done|]. cbn [plain_ascii IsValidUTF8].
  intros H. apply andb_true_iff in H as [H Hs]. apply andb_true_iff in H as [_ H].
  rewrite H. by apply IH.
Qed.

(** X18. [IsValidUTF8] reads a text sequence by sequence: every text of
    ASCII characters is valid, a valid prefix leaves the verdict to the
    rest of the text, and so the concatenation of two valid texts is
    valid. *)
Theorem IsValidUTF8_compositional (s t : string) :
  (plain_ascii s = true -> IsValidUTF8 s = true)
  ∧ (IsValidUTF8 s = true -> IsValidUTF8 (s +:+ t) = IsValidUTF8 t)
  ∧ (IsValidUTF8 s = true -> IsValidUTF8 t = true -> IsValidUTF8 (s +:+ t) = true).
Proof.
  split; [apply plain_ascii_valid|]. split; [apply IsValidUTF8_app|].
  intros Hs Ht. by rewrite IsValidUTF8_app.
Qed.

Lemma IsValidUTF8_compositional_example :
  IsValidUTF8 ("caf" +:+ String "195" (String "169" EmptyString)) = true.
Proof.
  destruct (IsValidUTF8_compositional "caf" (String "195" (String "169" EmptyString)))
    as (H1 & _ & H3).
  apply H3; [apply H1|]; reflexivity.
Defined.

Lemma resize_down_app p t :
  resize_down (String.length p) (p +:+ t) = p.
Proof. induction p as [|c p IH]; [by destruct t|]. simpl. by rewrite IH. Qed.

Lemma resize_down_app_S p c t :
  resize_down (S (String.length p)) (p +:+ String c t) = p +:+ String c EmptyString.
Proof. induction p as [|x p IH]; [by destruct t|]. simpl in *. by rewrite IH. Qed.

(** X19. Truncation comes after validation and counts bytes.  When the
    bytes of a text other than its null bytes form valid UTF-8 and the
    5000th of them is the lead byte of a two-byte sequence, [SanitizeText]
    cuts between the two bytes: the text it leaves is not valid UTF-8, and
    the only warning logged is the one about truncation. *)
Theorem truncation_splits_a_sequence (text p rest : string) (c1 c2 : ascii) :
  erase_remove Ascii.zero text = p +:+ String c1 (String c2 rest) ->
  String.length p = 4999%nat ->
  IsValidUTF8 p = true ->
  Z.land (byte_of c1) 0xE0 = 0xC0 ->
  is_cont c2 = true ->
  IsValidUTF8 rest = true ->
  IsValidUTF8 (erase_remove Ascii.zero text) = true
  ∧ SanitizeText text = (true, p +:+ String c1 EmptyString, [WarnTruncated])
  ∧ IsValidUTF8 (p +:+ String c1 EmptyString) = false.
Proof.
  intros Herase Hlen Hp Hc1 Hc2 Hv.
  assert (Hb : (byte_of c1 <? 128) = false).
  { apply Z.ltb_ge. destruct (Z.lt_ge_cases (byte_of c1) 128) as [Hlt|]; [|done].
    exfalso. assert (Hr : 0 <= byte_of c1) by (unfold byte_of; lia).
    assert (H7 : Z.testbit (Z.land (byte_of c1) 224) 7 = true)
      by (rewrite Hc1; reflexivity).
    rewrite Z.land_spec in H7. apply andb_true_iff in H7 as [H7 _].
    rewrite Z.testbit_true in H7 by lia.
    change (2 ^ 7) with 128 in H7. rewrite Z.div_small in H7 by lia. done. }
  assert (Hlead : forall t, IsValidUTF8 (String c1 (String c2 t)) = IsValidUTF8 t).
  { intros t. cbn [IsValidUTF8]. rewrite Hb. apply Z.eqb_eq in Hc1. by rewrite Hc1, Hc2. }
  assert (Hall : IsValidUTF8 (erase_remove Ascii.zero text) = true).
  { rewrite Herase, IsValidUTF8_app by done. by rewrite Hlead. }
  split; [exact Hall|]. split.
  - unfold SanitizeText. rewrite Hall, Herase.
    rewrite length_app_string, Hlen. cbn [String.length].
    assert (Hlt : (MAX_LENGTH <? 4999 + S (S (String.length rest)))%nat = true)
      by (apply Nat.ltb_lt; unfold MAX_LENGTH; lia).
    rewrite Hlt. cbn [fst snd app].
    replace MAX_LENGTH with (S (String.length p)) by (rewrite Hlen; reflexivity).
    rewrite resize_down_app_S. by destruct p.
  - rewrite IsValidUTF8_app by done.
    cbn [IsValidUTF8]. rewrite Hb. apply Z.eqb_eq in Hc1. by rewrite Hc1.
Qed.

Lemma truncation_splits_e_acute :
  SanitizeText (String "195" (String "169" (replicate_char 4997 "a"))
                +:+ String "000" (String "195" (String "169" "!")))
  = (true,
     String "195" (String "169" (replicate_char 4997 "a")) +:+ String "195" EmptyString,
     [WarnTruncated])
  ∧ IsValidUTF8 (String "195" (String "169" (replicate_char 4997 "a"))
                 +:+ String "195" EmptyString) = false.
Proof.
  destruct (truncation_splits_a_sequence
              (String "195" (String "169" (replicate_char 4997 "a"))
               +:+ String "000" (String "195" (String "169" "!")))
              (String "195" (String "169" (replicate_char 4997 "a"))) "!" "195" "169")
    as (_ & H2 & H3); try (vm_compute; reflexivity).
  split; [exact H2|exact H3].
Defined.

End Utf8Facts.

Section JsonFacts.
Import Utils Text JsonReader.
Local Arguments append : simpl nomatch.

(** The reader undoes one round of the [switch], whatever follows. *)
Lemma read_escape_char c tail :
  read_string (escape_char c +:+ tail) = prepend c (read_string tail).
Proof.
  destruct c as [[] [] [] [] [] [] [] []];
    cbv [escape_char]; vm_compute byte_of;
    cbv [Z.eqb Z.ltb Z.compare Pos.compare Pos.compare_cont hex4 append];
    cbv [read_string]; fold read_string; reflexivity.
Qed.

Lemma read_EscapeJSON s rest :
  read_string (EscapeJSON s +:+ String quote rest) = Some (s, rest).
Proof.
  induction s as [|c s IH]; [reflexivity|].
  cbn [EscapeJSON]. rewrite app_assoc_string, read_escape_char, IH. reflexivity.
Qed.

Lemma escape_char_clean c :
  forallb (fun x => 0x20 <=? byte_of x) (list_ascii_of_string (escape_char c)) = true.
Proof.
  destruct c as [[] [] [] [] [] [] [] []]; vm_compute; reflexivity.
Qed.

Lemma chars_app (a b : string) :
  list_ascii_of_string (a +:+ b) = (list_ascii_of_string a ++ list_ascii_of_string b)%list.
Proof. induction a as [|x a IH]; [done|]. simpl. by rewrite IH. Qed.

(** X20. [EscapeJSON] writes the content of a JSON string that reads back
    as the text: a reader that starts after the opening quotation mark
    stops at the mark that follows the escaped text, never at a
    character of the text, and returns the text byte for byte; and the
    escaped text holds no raw control character. *)
Theorem EscapeJSON_round_trip (s rest : string) :
  read_string (EscapeJSON s +:+ String quote rest) = Some (s, rest)
  ∧ forallb (fun x => 0x20 <=? byte_of x) (list_ascii_of_string (EscapeJSON s)) = true.
Proof.
  split; [apply read_EscapeJSON|].
  induction s as [|c s IH]; [reflexivity|].
  cbn [EscapeJSON]. rewrite chars_app, forallb_app, escape_char_clean. exact IH.
Qed.

Lemma read_members_mono f f' s ms :
  read_members f s = Some ms -> (f <= f')%nat -> read_members f' s = Some ms.
Proof.
  revert f' s ms. induction f as [|f IH]; intros f' s ms H Hle; [done|].
  destruct f' as [|f']; [lia|]. cbn [read_members] in H |- *.
  destruct s as [|q r]; [done|]. destruct (byte_of q =? 34); [|done].
  destruct (read_string r) as [[name [|colon [|q' r']]]|]; try done.
  destruct ((byte_of colon =? 58) && (byte_of q' =? 34)); [|done].
  destruct (read_string r') as [[value [|sep r'']]|]; try done.
  destruct (byte_of sep =? 125); [done|]. destruct (byte_of sep =? 44); [|done].
  destruct (read_members f r'') as [ms'|] eqn:E; [|done].
  rewrite (IH f' r'' ms' E); [done|lia].
Qed.

Lemma read_member_more f name value tail :
  plain_name name ->
  read_members (S f) (member name value +:+ "," +:+ tail)
  = match read_members f tail with
    | Some ms => Some ((name, value) :: ms)
    | None => None
    end.
Proof.
  intros Hn. unfold member. rewrite !app_assoc_string, !app_String.
  cbn [read_members append]. change (byte_of quote =? 34) with true. cbv iota.
  rewrite Hn. change ((byte_of ":" =? 58) && (byte_of quote =? 34)) with true. cbv iota.
  rewrite read_EscapeJSON. reflexivity.
Qed.

Lemma read_member_last f name value :
  plain_name name ->
  read_members (S f) (member name value +:+ "}") = Some [(name, value)].
Proof.
  intros Hn. unfold member. rewrite !app_assoc_string, !app_String.
  cbn [read_members append]. change (byte_of quote =? 34) with true. cbv iota.
  rewrite Hn. change ((byte_of ":" =? 58) && (byte_of quote =? 34)) with true. cbv iota.
  rewrite read_EscapeJSON. reflexivity.
Qed.

(** X21. The request body is a JSON object with exactly the four members
    the service expects, and their values read back as the configured
    model, the sanitized text, the voice and the format, whatever bytes
    these hold: no text can close its string and add a member. *)
Theorem jsonBody_reads_back (model text voice format : string) :
  read_object (jsonBody model text voice format)
  = Some [("model"%string, model); ("input"%string, text);
          ("voice"%string, voice); ("response_format"%string, format)].
Proof.
  assert (H4 : forall tail,
             tail = member "model" model +:+ "," +:+ member "input" text +:+ ","
                    +:+ member "voice" voice +:+ ","
                    +:+ member "response_format" format +:+ "}" ->
             read_members 4 tail
             = Some [("model"%string, model); ("input"%string, text);
                     ("voice"%string, voice); ("response_format"%string, format)]).
  { intros tail ->.
    rewrite (read_member_more 3 "model") by (intros r; reflexivity).
    rewrite (read_member_more 2 "input") by (intros r; reflexivity).
    rewrite (read_member_more 1 "voice") by (intros r; reflexivity).
    rewrite (read_member_last 0 "response_format") by (intros r; reflexivity).
    reflexivity. }
  unfold jsonBody, read_object. rewrite app_String.
  change (byte_of "{" =? 123) with true. cbv iota.
  apply (read_members_mono 4); [by apply H4|].
  unfold member. rewrite !length_app_string. simpl. lia.
Qed.

End JsonFacts.

(** ** The settings *)

Section ConfigFacts.
Import Utils Text Config ConfigSpec.
Local Arguments append : simpl nomatch.

Lemma ValidateConfig_valid c : valid (ValidateConfig c).
Proof.
  unfold ValidateConfig, valid.
  destruct (volume c <? 0) eqn:E0; simpl.
  - destruct (bad_server (server c)) eqn:Es; simpl;
      destruct (unknown_format (format c)) eqn:Ef; simpl; rewrite ?Es, ?Ef; repeat split; done.
  - apply Z.ltb_ge in E0. destruct (100 <? volume c) eqn:E1; simpl.
    + destruct (bad_server (server c)) eqn:Es; simpl;
        destruct (unknown_format (format c)) eqn:Ef; simpl; rewrite ?Es, ?Ef;
        repeat split; done.
    + apply Z.ltb_ge in E1.
      destruct (bad_server (server c)) eqn:Es; simpl;
        destruct (unknown_format (format c)) eqn:Ef; simpl; rewrite ?Es, ?Ef;
        repeat split; try done; lia.
Qed.

Lemma ValidateConfig_fixed c : valid c -> ValidateConfig c = c.
Proof.
  intros ((H0 & H1) & Hs & Hf). unfold ValidateConfig.
  rewrite (proj2 (Z.ltb_ge _ _) H0), (proj2 (Z.ltb_ge _ _) H1), Hs, Hf. done.
Qed.

(** X22. [ValidateConfig] repairs and never rejects: the settings it
    leaves have a volume from 0 to 100, a server that starts with
    http:// or https:// and one of the five known formats; it changes
    nothing else; and it leaves settings as they are exactly when they
    were valid already, so that validating twice is validating once. *)
Theorem ValidateConfig_spec (c : TTSConfig) :
  valid (ValidateConfig c)
  ∧ (ValidateConfig c = c <-> valid c)
  ∧ ValidateConfig (ValidateConfig c) = ValidateConfig c
  ∧ volume (ValidateConfig c) = Z.max 0 (Z.min 100 (volume c))
  ∧ (model (ValidateConfig c), voice (ValidateConfig c), api_key (ValidateConfig c),
     cancel_key (ValidateConfig c), log_level (ValidateConfig c))
    = (model c, voice c, api_key c, cancel_key c, log_level c)
  ∧ (mute_original (ValidateConfig c), max_cache_size (ValidateConfig c),
     enable_disk_cache (ValidateConfig c), max_disk_cache_mb (ValidateConfig c),
     show_console (ValidateConfig c), log_to_file (ValidateConfig c),
     max_fetch_threads (ValidateConfig c), max_pending_fetches (ValidateConfig c))
    = (mute_original c, max_cache_size c, enable_disk_cache c, max_disk_cache_mb c,
       show_console c, log_to_file c, max_fetch_threads c, max_pending_fetches c).
Proof.
  split; [apply ValidateConfig_valid|].
  split.
  { split; [intros <-; apply ValidateConfig_valid|apply ValidateConfig_fixed]. }
  split; [apply ValidateConfig_fixed, ValidateConfig_valid|].
  unfold ValidateConfig.
  destruct (volume c <? 0) eqn:E0; simpl.
  - apply Z.ltb_lt in E0.
    destruct (bad_server (server c)); simpl; destruct (unknown_format (format c)); simpl;
      (split; [lia|done]).
  - apply Z.ltb_ge in E0. destruct (100 <? volume c) eqn:E1; simpl.
    + apply Z.ltb_lt in E1.
      destruct (bad_server (server c)); simpl; destruct (unknown_format (format c)); simpl;
        (split; [lia|done]).
    + apply Z.ltb_ge in E1.
      destruct (bad_server (server c)); simpl; destruct (unknown_format (format c)); simpl;
        (split; [lia|done]).
Qed.

Lemma ValidateConfig_defaults : ValidateConfig SetDefaults = SetDefaults.
Proof.
  apply (proj2 (proj1 (proj2 (ValidateConfig_spec SetDefaults)))).
  repeat split; try reflexivity; vm_compute; intros Hc; discriminate Hc.
Defined.

Lemma c_str_idem s : c_str (c_str s) = c_str s.
Proof.
  induction s as [|c s IH]; [done|]. simpl.
  destruct (byte_of c =? 0) eqn:E; [done|]. simpl. by rewrite E, IH.
Qed.

Lemma c_str_substring n s : c_str s = s -> c_str (substring 0 n s) = substring 0 n s.
Proof.
  revert s. induction n as [|n IH]; intros [|c s] H; try done.
  simpl in *. destruct (byte_of c =? 0); [done|].
  inversion H as [H1]. by rewrite H1, IH.
Qed.

Lemma length_substring_le n s : (String.length (substring 0 n s) <= n)%nat.
Proof.
  revert s. induction n as [|n IH]; intros [|c s]; simpl; try lia.
  specialize (IH s). lia.
Qed.

Lemma SetString_fits v : fits_buffer (SetString v).
Proof.
  unfold fits_buffer, SetString, MAX_CONFIG_STRING_SIZE. split.
  - pose proof (length_substring_le (256 - 1) (c_str v)). simpl in *. lia.
  - apply c_str_substring, c_str_idem.
Qed.

Lemma fits_assign key value c c' : fits c -> assign key value c = Some c' -> fits c'.
Proof.
  unfold fits, assign. intros (H1 & H2 & H3 & H4 & H5 & H6 & H7).
  pose proof (SetString_fits value) as Hv.
  repeat (destruct (String.eqb key _);
          [ first [ destruct (stoi value); simpl; intros H; [|discriminate H] | intros H ];
            injection H as <-; simpl;
            repeat match goal with |- _ ∧ _ => split end; assumption |]).
  intros H. injection H as <-. repeat match goal with |- _ ∧ _ => split end; assumption.
Qed.

Lemma fits_load_lines lines c c' : fits c -> load_lines c lines = Some c' -> fits c'.
Proof.
  revert c. induction lines as [|line lines IH]; intros c Hf; simpl.
  - intros H. by inversion H; subst.
  - unfold load_line. destruct (split_line line) as [[key value]|].
    + destruct (assign key value c) as [c1|] eqn:E; [|done].
      apply IH. by apply (fits_assign key value c).
    + by apply IH.
Qed.

Lemma fits_defaults : fits SetDefaults.
Proof.
  unfold fits, fits_buffer, MAX_CONFIG_STRING_SIZE.
  repeat split; try reflexivity; vm_compute; lia.
Qed.

Lemma fits_SetServer v c : fits c -> fits (SetServer v c).
Proof.
  unfold fits. intros (H1 & H2 & H3 & H4 & H5 & H6 & H7).
  pose proof (SetString_fits v) as Hv. cbn [server model voice api_key format cancel_key
    log_level SetServer].
  repeat match goal with |- _ ∧ _ => split end; assumption.
Qed.

Lemma fits_SetFormat v c : fits c -> fits (SetFormat v c).
Proof.
  unfold fits. intros (H1 & H2 & H3 & H4 & H5 & H6 & H7).
  pose proof (SetString_fits v) as Hv. cbn [server model voice api_key format cancel_key
    log_level SetFormat].
  repeat match goal with |- _ ∧ _ => split end; assumption.
Qed.

Lemma fits_ValidateConfig c : fits c -> fits (ValidateConfig c).
Proof.
  intros H. unfold ValidateConfig.
  set (c1 := if volume c <? 0 then set_volume 0 c else c).
  assert (H1 : fits c1) by (unfold c1; by destruct (volume c <? 0)).
  set (c2 := if 100 <? volume c1 then set_volume 100 c1 else c1).
  assert (H2 : fits c2) by (unfold c2; by destruct (100 <? volume c1)).
  set (c3 := if bad_server (server c2) then SetServer "http://localhost:5050/v1" c2 else c2).
  assert (H3 : fits c3)
    by (unfold c3; destruct (bad_server (server c2)); [by apply fits_SetServer|done]).
  destruct (unknown_format (format c3)); [by apply fits_SetFormat|done].
Qed.

(** X23. Whatever the settings file holds, the settings a returning
    [LoadConfig] leaves are valid and fit their buffers: the volume is
    from 0 to 100, the server starts with http:// or https://, the
    format is one of the five known ones, and every string has fewer
    than 256 characters and no null character.  Without a file they are
    the defaults. *)
Theorem LoadConfig_leaves_valid_settings (file : option (list string)) (c : TTSConfig) :
  (LoadConfig file = Loaded c \/ LoadConfig file = NotFound c) ->
  valid c ∧ fits c ∧ (file = None -> c = SetDefaults).
Proof.
  unfold LoadConfig. destruct file as [lines|].
  - destruct (load_lines SetDefaults lines) as [c1|] eqn:E.
    + intros [H|H]; [|discriminate H]. inversion H; subst c.
      split; [apply ValidateConfig_valid|]. split; [|done].
      apply fits_ValidateConfig, (fits_load_lines lines SetDefaults); [apply fits_defaults|done].
    + intros [H|H]; discriminate H.
  - intros [H|H]; [discriminate H|]. inversion H; subst c.
    split; [|split; [apply fits_defaults|done]].
    repeat split; try reflexivity; vm_compute; intros Hc; discriminate Hc.
Qed.

Lemma LoadConfig_repairs_example :
  exists c,
    LoadConfig (Some ["# settings"%string; "volume = 150"%string;
                      "server = ftp://tts.example  # not a web address"%string;
                      "format=ogg"%string; "voice = nova"%string]) = Loaded c
    ∧ ConfigSpec.valid c ∧ volume c = 100 ∧ voice c = "nova"%string.
Proof.
  eexists. split; [vm_compute; reflexivity|].
  split; [|split; reflexivity].
  eapply (LoadConfig_leaves_valid_settings
            (Some ["# settings"%string; "volume = 150"%string;
                   "server = ftp://tts.example  # not a web address"%string;
                   "format=ogg"%string; "voice = nova"%string])).
  left. vm_compute. reflexivity.
Defined.

Lemma free_of_app ch a b : free_of ch (a +:+ b) = free_of ch a && free_of ch b.
Proof. induction a as [|c a IH]; [done|]. simpl. by rewrite IH, andb_assoc. Qed.

Lemma find_free ch a : free_of ch a = true -> find ch a = None.
Proof.
  induction a as [|c a IH]; [done|]. simpl. intros H.
  apply andb_true_iff in H as [Hc Ha]. apply negb_true_iff in Hc. by rewrite Hc, IH.
Qed.

Lemma find_app_here ch a b :
  free_of ch a = true -> find ch (a +:+ String ch b) = Some (String.length a).
Proof.
  induction a as [|c a IH]; simpl.
  - by rewrite Ascii.eqb_refl.
  - intros H. apply andb_true_iff in H as [Hc Ha]. apply negb_true_iff in Hc.
    by rewrite Hc, IH.
Qed.

Lemma substring_0_length a b : substring 0 (String.length a) (a +:+ b) = a.
Proof. induction a as [|c a IH]; [by destruct b|]. simpl. by rewrite IH. Qed.

Lemma substring_skip_length a b n m :
  substring (String.length a + n) m (a +:+ b) = substring n m b.
Proof. induction a as [|c a IH]; [done|]. simpl. by rewrite IH. Qed.

Lemma substring_all b m : (String.length b <= m)%nat -> substring 0 m b = b.
Proof.
  revert b. induction m as [|m IH]; intros [|c b] H; simpl in *; try done; try lia.
  rewrite IH; [done|lia].
Qed.

Lemma trimmed_free_of ch w :
  is_trimmed_char ch = false -> all_trimmed w = true -> free_of ch w = true.
Proof.
  intros Hch. induction w as [|c w IH]; [done|]. simpl. intros H.
  apply andb_true_iff in H as [Hc Hw]. rewrite IH by done. rewrite andb_true_r.
  apply negb_true_iff. destruct (Ascii.eqb_spec c ch) as [-> | _]; [congruence|done].
Qed.

Lemma last_char_exists c (s : string) :
  exists t d, String c s = t +:+ String d EmptyString.
Proof.
  revert c. induction s as [|x s IH]; intros c.
  - by exists EmptyString, c.
  - destruct (IH x) as (t & d & Ht). exists (String c t), d. simpl. by rewrite <- Ht.
Qed.

Lemma last_char_unique (t t' : string) c c' :
  t +:+ String c EmptyString = t' +:+ String c' EmptyString -> c = c'.
Proof.
  revert t'. induction t as [|x t IH]; intros [|y t'] H; simpl in H.
  - by inversion H.
  - inversion H as [[Hx Ht]]. by destruct t'.
  - inversion H as [[Hx Ht]]. by destruct t.
  - inversion H as [[Hx Ht]]. by apply (IH t').
Qed.

Lemma tidy_first k c t : tidy k -> k = String c t -> is_trimmed_char c = false.
Proof. unfold tidy. intros Hk ->. by apply (trim_first _ c t Hk). Qed.

Lemma tidy_last k t c :
  tidy k -> k = t +:+ String c EmptyString -> is_trimmed_char c = false.
Proof. unfold tidy. intros Hk E. rewrite E in Hk. by apply (trim_last _ t c Hk). Qed.

(** What the loop body reads in the text of a line before its comment. *)
Lemma split_line_body w1 k w2 w3 v w4 line :
  all_trimmed w1 = true -> all_trimmed w2 = true ->
  all_trimmed w3 = true -> all_trimmed w4 = true ->
  k ≠ EmptyString -> v ≠ EmptyString -> tidy k -> tidy v ->
  free_of "=" k = true ->
  match find "#" line with
  | Some commentPos => substring 0 commentPos line
  | None => line
  end = w1 +:+ (k +:+ w2 +:+ String "=" (w3 +:+ v)) +:+ w4 ->
  split_line line = Some (k, v).
Proof.
  intros H1 H2 H3 H4 Hk Hv Tk Tv Fk Hline.
  unfold split_line. rewrite Hline. clear Hline.
  set (m := k +:+ w2 +:+ String "=" (w3 +:+ v)).
  assert (Hm : trim (w1 +:+ m +:+ w4) = m).
  { apply trim_strip; [done|done| |].
    - intros c t E. destruct k as [|c0 k0]; [done|].
      unfold m in E. simpl in E. inversion E; subst c0. by apply (tidy_first _ c k0 Tk).
    - intros t c E. destruct v as [|d v0]; [done|].
      destruct (last_char_exists d v0) as (t' & c' & Ht').
      unfold m in E. rewrite Ht' in E.
      assert (E' : (k +:+ w2 +:+ String "=" (w3 +:+ t')) +:+ String c' EmptyString
                   = t +:+ String c EmptyString).
      { rewrite <- E. rewrite !app_assoc_string. simpl. by rewrite !app_assoc_string. }
      apply last_char_unique in E'. subst c'. by apply (tidy_last _ t' c Tv). }
  rewrite Hm.
  assert (Hne : String.eqb m EmptyString = false).
  { destruct k as [|c0 k0]; [done|]. reflexivity. }
  rewrite Hne.
  assert (Hfind : find "=" m = Some (String.length (k +:+ w2))).
  { unfold m. rewrite <- app_assoc_string. apply find_app_here.
    rewrite free_of_app, Fk. by rewrite trimmed_free_of. }
  rewrite Hfind. f_equal. f_equal.
  - unfold m. rewrite <- app_assoc_string, substring_0_length.
    pose proof (trim_strip EmptyString k w2 eq_refl H2) as H. simpl in H. apply H.
    + intros c t E. by apply (tidy_first _ c t Tk).
    + intros t c E. by apply (tidy_last _ t c Tk).
  - unfold m at 2. rewrite <- app_assoc_string, substring_skip_length. simpl.
    rewrite substring_all.
    + pose proof (trim_strip w3 v EmptyString H3 eq_refl) as H.
      rewrite app_empty_r in H. apply H.
      * intros c t E. by apply (tidy_first _ c t Tv).
      * intros t c E. by apply (tidy_last _ t c Tv).
    + unfold m. rewrite !length_app_string. simpl. rewrite !length_app_string. lia.
Qed.

(** X24. The loop of [LoadConfig] reads a line of the form [key = value],
    with or without white space around the two and with or without a
    comment after them, as the key and the value: for a key and a value
    that are not empty, neither start nor end with white space and hold
    no [#], the key holding no [=] either, the split is the pair of
    them. *)
Theorem split_line_reads_assignment (w1 k w2 w3 v w4 comment : string) :
  all_trimmed w1 = true -> all_trimmed w2 = true ->
  all_trimmed w3 = true -> all_trimmed w4 = true ->
  k ≠ EmptyString -> v ≠ EmptyString -> tidy k -> tidy v ->
  free_of "#" k = true -> free_of "=" k = true -> free_of "#" v = true ->
  split_line (w1 +:+ k +:+ w2 +:+ "=" +:+ w3 +:+ v +:+ w4) = Some (k, v)
  ∧ split_line (w1 +:+ k +:+ w2 +:+ "=" +:+ w3 +:+ v +:+ w4 +:+ "#" +:+ comment)
    = Some (k, v).
Proof.
  intros H1 H2 H3 H4 Hk Hv Tk Tv Fk Fe Fv.
  set (body := w1 +:+ (k +:+ w2 +:+ String "=" (w3 +:+ v)) +:+ w4).
  assert (Hfree : free_of "#" body = true).
  { unfold body. rewrite !free_of_app. simpl. rewrite !free_of_app, Fk, Fv.
    by rewrite !(trimmed_free_of "#"). }
  assert (E1 : w1 +:+ k +:+ w2 +:+ "=" +:+ w3 +:+ v +:+ w4 = body).
  { unfold body. by repeat first [rewrite app_assoc_string | progress cbn [append]]. }
  assert (E2 : w1 +:+ k +:+ w2 +:+ "=" +:+ w3 +:+ v +:+ w4 +:+ "#" +:+ comment
               = body +:+ String "#" comment).
  { unfold body. by repeat first [rewrite app_assoc_string | progress cbn [append]]. }
  rewrite E1, E2. split.
  - apply (split_line_body w1 k w2 w3 v w4); try done. by rewrite find_free.
  - apply (split_line_body w1 k w2 w3 v w4); try done.
    by rewrite find_app_here, substring_0_length.
Qed.

Lemma split_line_reads_volume :
  split_line (String "009" "volume  = 90 # percent") = Some ("volume"%string, "90"%string).
Proof.
  assert (Hk : "volume"%string ≠ EmptyString) by discriminate.
  assert (Hv : "90"%string ≠ EmptyString) by discriminate.
  exact (proj2 (split_line_reads_assignment (String "009" "") "volume" "  " " " "90" " "
                  " percent" eq_refl eq_refl eq_refl eq_refl Hk Hv eq_refl eq_refl
                  eq_refl eq_refl eq_refl)).
Defined.

End ConfigFacts.

(** ** The WAV header *)

Section WavFacts.
Import AudioPlayer.

Lemma length_le_bytes n x : length (le_bytes n x) = n.
Proof. unfold le_bytes. by rewrite length_map, length_seq. Qed.

Lemma length_write pos src d :
  (pos + length src <= length d)%nat -> length (write pos src d) = length d.
Proof.
  intros H. unfold write. rewrite !length_app, length_take, length_drop. lia.
Qed.

Lemma take_write_before n pos src d :
  (n <= pos)%nat -> (pos <= length d)%nat -> take n (write pos src d) = take n d.
Proof.
  intros Hn Hp. unfold write. rewrite take_app_le by (rewrite length_take; lia).
  rewrite take_take. f_equal. lia.
Qed.

Lemma read_write pos src d :
  (pos <= length d)%nat -> take (length src) (drop pos (write pos src d)) = src.
Proof.
  intros Hp. unfold write. rewrite drop_app_length' by (rewrite length_take; lia).
  by rewrite take_app_length.
Qed.

Lemma take_drop_write_before j n pos src d :
  (j + n <= pos)%nat -> (pos <= length d)%nat ->
  take n (drop j (write pos src d)) = take n (drop j d).
Proof.
  intros Hj Hp. rewrite !take_drop_commute.
  by rewrite take_write_before by lia.
Qed.

Lemma write_same pos src d :
  (pos <= length d)%nat -> take (length src) (drop pos d) = src -> write pos src d = d.
Proof.
  intros Hp H. unfold write.
  transitivity (take pos d ++ drop pos d); [|apply take_drop]. f_equal.
  transitivity (take (length src) (drop pos d) ++ drop (length src) (drop pos d));
    [|apply take_drop].
  rewrite H. f_equal. by rewrite drop_drop.
Qed.

Lemma starts_with_take t d : starts_with t d = true <-> take (length t) d = t.
Proof.
  revert d. induction t as [|x t IH]; intros [|y d]; simpl; try done.
  rewrite andb_true_iff, IH, Z.eqb_eq. split.
  - by intros [-> ->].
  - intros H. by inversion H as [[H1 H2]]; rewrite H2.
Qed.

Lemma starts_with_ext t d d' :
  take (length t) d = take (length t) d' -> starts_with t d = starts_with t d'.
Proof.
  intros H. destruct (starts_with t d) eqn:E.
  - symmetry. apply starts_with_take. rewrite <- H. by apply starts_with_take.
  - destruct (starts_with t d') eqn:E'; [|done].
    apply starts_with_take in E'. rewrite <- H in E'. apply starts_with_take in E'. congruence.
Qed.

Lemma find_data_tag_range d i steps j :
  find_data_tag d i steps = Some j -> (i <= j < i + steps)%nat.
Proof.
  revert i. induction steps as [|k IH]; intros i; cbn [find_data_tag]; [done|].
  destruct (starts_with (tag "data") (drop i d)).
  - intros H. inversion H. lia.
  - intros H. apply IH in H. lia.
Qed.

(** A search that reads the same bytes up to its first hit has the same
    hit. *)
Lemma find_data_tag_ext d d' i steps :
  (forall k, match find_data_tag d i steps with
             | Some j => (i <= k <= j)%nat
             | None => (i <= k < i + steps)%nat
             end -> take 4 (drop k d') = take 4 (drop k d)) ->
  find_data_tag d' i steps = find_data_tag d i steps.
Proof.
  revert i. induction steps as [|n IH]; intros i H; cbn [find_data_tag] in *; [done|].
  rewrite (starts_with_ext (tag "data") (drop i d') (drop i d)).
  2:{ apply H. destruct (starts_with (tag "data") (drop i d)); [lia|].
      destruct (find_data_tag d (S i) n) as [j|] eqn:E; [|lia].
      apply find_data_tag_range in E. lia. }
  destruct (starts_with (tag "data") (drop i d)); [done|].
  apply IH. intros k Hk. apply H.
  destruct (find_data_tag d (S i) n); lia.
Qed.

Lemma find_data_tag_add d i a b :
  find_data_tag d i (a + b)
  = match find_data_tag d i a with
    | Some j => Some j
    | None => find_data_tag d (i + a) b
    end.
Proof.
  revert i. induction a as [|a IH]; intros i; cbn [find_data_tag Nat.add].
  - by rewrite Nat.add_0_r.
  - destruct (starts_with (tag "data") (drop i d)); [done|].
    rewrite IH. by rewrite Nat.add_succ_r.
Qed.

Lemma length_RepairWavHeader d : length (RepairWavHeader d) = length d.
Proof.
  unfold RepairWavHeader.
  destruct (length d <? 44)%nat eqn:E; [done|]. apply Nat.ltb_ge in E.
  destruct (starts_with (tag "RIFF") d); [|done]. cbn [negb].
  match goal with |- context [write 4 ?s d] => set (s1 := s) end.
  assert (L1 : length (write 4 s1 d) = length d)
    by (apply length_write; unfold s1; rewrite length_le_bytes; lia).
  destruct (find_data_tag _ _ _) as [i|] eqn:F; [|done].
  apply find_data_tag_range in F.
  rewrite length_write; [done|]. rewrite length_le_bytes, L1.
  revert F. destruct (length d <? 200)%nat eqn:E2; intros F;
    [apply Nat.ltb_lt in E2|apply Nat.ltb_ge in E2]; lia.
Qed.

(** X25. [RepairWavHeader] keeps the length of the buffer, leaves a buffer
    shorter than 44 bytes or without the RIFF tag as it is, and is
    idempotent: a repaired header needs no second repair. *)
Theorem RepairWavHeader_idempotent (d : bytes) :
  length (RepairWavHeader d) = length d
  ∧ ((length d < 44)%nat \/ take 4 d ≠ tag "RIFF" -> RepairWavHeader d = d)
  ∧ RepairWavHeader (RepairWavHeader d) = RepairWavHeader d.
Proof.
  split; [apply length_RepairWavHeader|]. split.
  { unfold RepairWavHeader. intros [H|H].
    - by rewrite (proj2 (Nat.ltb_lt _ _) H).
    - destruct (length d <? 44)%nat; [done|].
      destruct (starts_with (tag "RIFF") d) eqn:E; [|done].
      apply starts_with_take in E. done. }
  pose proof (length_RepairWavHeader d) as HL.
  unfold RepairWavHeader at 2 3. unfold RepairWavHeader in HL.
  destruct (length d <? 44)%nat eqn:E.
  { unfold RepairWavHeader. by rewrite E. }
  apply Nat.ltb_ge in E.
  destruct (starts_with (tag "RIFF") d) eqn:ER; cbn [negb] in *.
  2:{ unfold RepairWavHeader. rewrite (proj2 (Nat.ltb_ge _ _) E), ER. done. }
  set (s1 := le_bytes 4 (wrap32 (wrap32 (Z.of_nat (length d)) - 8))) in *.
  set (limit := if (length d <? 200)%nat then length d else 200%nat) in *.
  assert (Hlimit : (limit <= length d)%nat).
  { unfold limit. destruct (length d <? 200)%nat eqn:E2; [|apply Nat.ltb_ge in E2]; lia. }
  assert (Ls1 : length s1 = 4%nat) by apply length_le_bytes.
  set (data1 := write 4 s1 d) in *.
  assert (L1 : length data1 = length d) by (apply length_write; lia).
  assert (R1 : take 4 data1 = tag "RIFF").
  { unfold data1. rewrite take_write_before by lia. by apply starts_with_take in ER. }
  assert (B1 : take 4 (drop 4 data1) = s1).
  { rewrite <- Ls1 at 1. apply read_write. lia. }
  destruct (find_data_tag data1 12 (limit - 8 - 12)) as [i|] eqn:F.
  - pose proof (find_data_tag_range _ _ _ _ F) as Hi.
    match goal with |- context [write (i + 4) ?s data1] => set (s2 := s) in * end.
    assert (Ls2 : length s2 = 4%nat) by apply length_le_bytes.
    set (d2 := write (i + 4) s2 data1) in *.
    assert (L2 : length d2 = length d) by (unfold d2; rewrite length_write; lia).
    unfold RepairWavHeader.
    rewrite L2, (proj2 (Nat.ltb_ge _ _) E).
    assert (R2 : starts_with (tag "RIFF") d2 = true).
    { apply starts_with_take. change (length (tag "RIFF")) with 4%nat.
      unfold d2. rewrite take_write_before by lia. exact R1. }
    rewrite R2. cbn [negb]. fold s1. fold limit.
    assert (W1 : write 4 s1 d2 = d2).
    { apply write_same; [lia|]. rewrite Ls1. unfold d2.
      rewrite take_drop_write_before by lia. exact B1. }
    rewrite W1.
    assert (F2 : find_data_tag d2 12 (limit - 8 - 12) = Some i).
    { rewrite <- F. apply find_data_tag_ext. rewrite F. intros k Hk.
      unfold d2. apply take_drop_write_before; lia. }
    rewrite F2. fold s2. apply write_same; [lia|].
    rewrite Ls2. rewrite <- Ls2 at 1. unfold d2. apply read_write. lia.
  - unfold RepairWavHeader.
    rewrite L1, (proj2 (Nat.ltb_ge _ _) E).
    assert (R2 : starts_with (tag "RIFF") data1 = true).
    { apply starts_with_take. exact R1. }
    rewrite R2. cbn [negb]. fold s1. fold limit.
    assert (W1 : write 4 s1 data1 = data1).
    { apply write_same; [lia|]. by rewrite Ls1. }
    rewrite W1. fold data1. by rewrite F.
Qed.

Lemma RepairWavHeader_short :
  RepairWavHeader [82; 73; 70; 70; 0; 0] = [82; 73; 70; 70; 0; 0].
Proof.
  apply (proj1 (proj2 (RepairWavHeader_idempotent [82; 73; 70; 70; 0; 0]))).
  left. simpl. lia.
Defined.

Lemma wrap32_small x : 0 <= x < 2 ^ 32 -> wrap32 x = x.
Proof. intros H. unfold wrap32, UINT32_MOD. by apply Z.mod_small. Qed.

(** The header [AddWavHeader] writes for 24 kHz, mono, 16 bit. *)
Lemma AddWavHeader_24k d :
  Z.of_nat (length d) + 44 < 2 ^ 32 ->
  AddWavHeader d 24000 1 16
  = tag "RIFF" ++ le_bytes 4 (Z.of_nat (length d) + 36)
    ++ [87; 65; 86; 69; 102; 109; 116; 32; 16; 0; 0; 0; 1; 0; 1; 0;
        192; 93; 0; 0; 128; 187; 0; 0; 2; 0; 16; 0; 100; 97; 116; 97]
    ++ le_bytes 4 (Z.of_nat (length d)) ++ d.
Proof.
  intros H. unfold AddWavHeader.
  rewrite (wrap32_small (Z.of_nat (length d))) by lia.
  rewrite (wrap32_small (Z.of_nat (length d) + 36)) by lia.
  rewrite <- !app_assoc. reflexivity.
Qed.

(** X26. A header the player wrote itself needs no repair: for a payload
    that fits a 32-bit WAV file, [RepairWavHeader] leaves the buffer
    [AddWavHeader] built for 24 kHz, mono, 16 bit as it is, so the sizes
    the one writes are the sizes the other would set. *)
Theorem RepairWavHeader_keeps_own_header (d : bytes) :
  Z.of_nat (length d) + 44 < 2 ^ 32 ->
  RepairWavHeader (AddWavHeader d 24000 1 16) = AddWavHeader d 24000 1 16.
Proof.
  intros H. rewrite AddWavHeader_24k by done.
  set (n := Z.of_nat (length d)) in *.
  set (hd := tag "RIFF" ++ le_bytes 4 (n + 36)
             ++ [87; 65; 86; 69; 102; 109; 116; 32; 16; 0; 0; 0; 1; 0; 1; 0;
                 192; 93; 0; 0; 128; 187; 0; 0; 2; 0; 16; 0; 100; 97; 116; 97]
             ++ le_bytes 4 n ++ d).
  assert (L : length hd = (44 + length d)%nat) by reflexivity.
  unfold RepairWavHeader. rewrite L.
  rewrite (proj2 (Nat.ltb_ge (44 + length d) 44)) by lia.
  change (starts_with (tag "RIFF") hd) with true. cbn [negb].
  replace (Z.of_nat (44 + length d)) with (n + 44) by (unfold n; lia).
  rewrite (wrap32_small (n + 44)) by (unfold n; lia).
  replace (n + 44 - 8) with (n + 36) by lia.
  rewrite (wrap32_small (n + 36)) by (unfold n; lia).
  assert (W1 : write 4 (le_bytes 4 (n + 36)) hd = hd) by reflexivity.
  rewrite W1.
  assert (F24 : find_data_tag hd 12 24 = None) by reflexivity.
  destruct (length d) as [|m] eqn:El.
  - cbn [Nat.add Nat.ltb Nat.leb Nat.sub]. by rewrite F24.
  - assert (Hsteps : exists k,
              ((if (44 + S m <? 200)%nat then (44 + S m)%nat else 200%nat) - 8 - 12)%nat
              = (24 + S k)%nat).
    { destruct (44 + S m <? 200)%nat eqn:E2.
      - exists m. lia.
      - by exists 155%nat. }
    destruct Hsteps as [k ->].
    rewrite find_data_tag_add, F24.
    change (find_data_tag hd (12 + 24) (S k)) with (Some 36%nat).
    cbv iota. change (Z.of_nat 36) with 36.
    rewrite (wrap32_small 36) by done. change (36 + 8) with 44.
    rewrite (wrap32_small 44) by done. replace (n + 44 - 44) with n by lia.
    rewrite (wrap32_small n) by lia.
    reflexivity.
Qed.

Lemma RepairWavHeader_keeps_two_samples :
  RepairWavHeader (AddWavHeader [1; 0; 2; 0] 24000 1 16) = AddWavHeader [1; 0; 2; 0] 24000 1 16.
Proof.
  apply RepairWavHeader_keeps_own_header. simpl. lia.
Defined.

Lemma RepairWavHeader_header d :
  (44 <= length d)%nat -> starts_with (tag "RIFF") d = true ->
  take 4 (RepairWavHeader d) = tag "RIFF"
  ∧ take 4 (drop 4 (RepairWavHeader d))
    = le_bytes 4 (wrap32 (wrap32 (Z.of_nat (length d)) - 8)).
Proof.
  intros E ER. unfold RepairWavHeader.
  rewrite (proj2 (Nat.ltb_ge _ _) E), ER. cbn [negb].
  set (s1 := le_bytes 4 (wrap32 (wrap32 (Z.of_nat (length d)) - 8))) in *.
  set (limit := if (length d <? 200)%nat then length d else 200%nat) in *.
  assert (Hlimit : (limit <= length d)%nat).
  { unfold limit. destruct (length d <? 200)%nat eqn:E2; [|apply Nat.ltb_ge in E2]; lia. }
  assert (Ls1 : length s1 = 4%nat) by apply length_le_bytes.
  set (data1 := write 4 s1 d) in *.
  assert (L1 : length data1 = length d) by (apply length_write; lia).
  assert (R1 : take 4 data1 = tag "RIFF").
  { unfold data1. rewrite take_write_before by lia. by apply starts_with_take in ER. }
  assert (B1 : take 4 (drop 4 data1) = s1).
  { rewrite <- Ls1 at 1. apply read_write. lia. }
  destruct (find_data_tag data1 12 (limit - 8 - 12)) as [i|] eqn:F; [|done].
  pose proof (find_data_tag_range _ _ _ _ F) as Hi.
  split.
  - rewrite take_write_before by lia. exact R1.
  - rewrite take_drop_write_before by lia. exact B1.
Qed.

(** X27. The buffer handed to the player for the wav format carries a
    consistent RIFF header.  For audio that fits a 32-bit WAV file and
    that, where it starts with the RIFF tag, has the 44 bytes of a
    header, the prepared buffer starts with the tag and its bytes 4 to 7
    hold the length of the buffer less 8; raw audio is kept unchanged
    behind a 44-byte header whose last field holds its length, and audio
    with a header keeps its length. *)
Theorem prepare_wav_header (input : bytes) :
  input ≠ [] ->
  Z.of_nat (length input) + 44 < 2 ^ 32 ->
  (starts_with (tag "RIFF") input = true -> (44 <= length input)%nat) ->
  exists out,
    prepare true input = Some out
    ∧ take 4 out = tag "RIFF"
    ∧ take 4 (drop 4 out) = le_bytes 4 (Z.of_nat (length out) - 8)
    ∧ (starts_with (tag "RIFF") input = false ->
       drop 44 out = input
       ∧ take 4 (drop 40 out) = le_bytes 4 (Z.of_nat (length input)))
    ∧ (starts_with (tag "RIFF") input = true -> length out = length input).
Proof.
  intros Hne Hlen Hriff. unfold prepare.
  destruct input as [|b0 input'] eqn:Ein; [done|]. rewrite <- Ein in *.
  destruct (starts_with (tag "RIFF") input) eqn:ER.
  - specialize (Hriff eq_refl).
    rewrite (proj2 (Nat.leb_le 4 (length input))) by lia. cbn [andb].
    destruct (RepairWavHeader_header input Hriff ER) as [H1 H2].
    eexists. split; [reflexivity|]. split; [exact H1|].
    split; [|split; [done|intros _; apply length_RepairWavHeader]].
    rewrite H2, length_RepairWavHeader.
    rewrite (wrap32_small (Z.of_nat (length input))) by lia.
    by rewrite wrap32_small by lia.
  - rewrite andb_false_r. eexists. split; [reflexivity|].
    rewrite AddWavHeader_24k by done.
    split; [reflexivity|]. split.
    + replace (Z.of_nat (length (tag "RIFF" ++ _)) - 8)
        with (Z.of_nat (length input) + 36); [reflexivity|].
      rewrite !length_app, !length_le_bytes. simpl length. lia.
    + split; [|done]. intros _. split; reflexivity.
Qed.

Lemma prepare_wav_raw_samples :
  exists out,
    prepare true [1; 0; 2; 0] = Some out
    ∧ take 4 out = tag "RIFF"
    ∧ take 4 (drop 4 out) = [40; 0; 0; 0]
    ∧ drop 44 out = [1; 0; 2; 0].
Proof.
  destruct (prepare_wav_header [1; 0; 2; 0]) as (out & H1 & H2 & H3 & H4 & _);
    [discriminate | simpl; lia | intros Hc; discriminate Hc |].
  exists out. split; [exact H1|]. split; [exact H2|].
  destruct (H4 eq_refl) as [H5 _].
  split; [|exact H5].
  rewrite H3. injection H1 as <-. reflexivity.
Defined.

End WavFacts.
